(** * SOUL AudioMIDIWrapper: pipeline building and block splitting

    A shallow embedding of [soul::AudioMIDIWrapper]
    (source/modules/soul_core/utilities/soul_AudioMIDIWrapper.h):
    [reset], [buildRenderingPipeline], [render] and
    [RenderContext::iterateInBlocks], followed by the properties of the
    pipeline builder and of the render loop.

    Conventions of the embedding.
    - [uint32_t] and [uint64_t] are [Z] with the wrap-around written out
      ([u32], [u64]).
    - A (pointer, count) pair of inbound MIDI events is the list of the
      [count] events found at the pointer; [++midiIn; --midiInCount] is the
      tail of that list.
    - A failed [SOUL_ASSERT] halts the program: the function returns [None].
    - The [while (framesRemaining != 0)] loop is run with fuel; running out
      of fuel is [None] as well.
    - [Performer], [EndpointDetails] and the choc value and buffer classes
      are declared outside this header: they are taken as interfaces. *)

From Stdlib Require Import ZArith List Lia Bool String Sorted.
Import ListNotations.
Local Open Scope Z_scope.

Set Implicit Arguments.

(** ** Machine integers *)

Definition u32 (z : Z) : Z := z mod 2 ^ 32.
Definition u64 (z : Z) : Z := z mod 2 ^ 64.

Definition is_u32 (z : Z) : Prop := 0 <= z < 2 ^ 32.
Definition is_u64 (z : Z) : Prop := 0 <= z < 2 ^ 64.

(** ** Values, types and buffers of the choc library (interface) *)

Class Choc : Type := {
  (** choc::value::Type *)
  ValueType : Type;
  isFloat : ValueType -> bool;
  isVector : ValueType -> bool;
  getElementType : ValueType -> ValueType;
  getNumElements : ValueType -> Z;
  (** choc::value::Value and ValueView *)
  Value : Type;
  (** [createFloat32 (0)] followed by [getViewReference().set (f)] *)
  createFloat32 : Z -> Value;
  (** [Value v (type)] *)
  createValue : ValueType -> Value;
  (** [v.getObjectMemberAt (0).value.set (i)]; a later assignment
      overwrites an earlier one *)
  setObjectMember0 : Value -> Z -> Value;
  setObjectMember0_overwrite : forall v i j,
    setObjectMember0 (setObjectMember0 v i) j = setObjectMember0 v j;
  (** [v["midiBytes"].getInt32()] *)
  getMidiBytes : Value -> Z;
  (** [createArrayView (data, numFrames)] *)
  createArrayView : list Z -> Value;
  (** [create2DArrayView (data, numFrames, numChannels)], frame-major *)
  create2DArrayView : list (list Z) -> Value;
  (** [getChannelSetFromArray (v)]: the sample of a channel at a frame,
      with the size of the set *)
  getChannelSetFromArray : Value -> (Z * Z) * (Z -> Z -> Z)
}.

Definition EndpointID := string.
Definition EndpointHandle := Z.

Inductive EndpointType := unknown | stream | value | event.

(** soul::EndpointDetails, with the answers of the queries the builder makes
    ([isParameterInput], [isMIDIEventEndpoint], [getNumAudioChannels],
    [getFrameType], [getSingleEventType]). *)
Record EndpointDetails `{Choc} := {
  endpointID : EndpointID;
  name : string;
  endpointType : EndpointType;
  isParameterInput : bool;
  isMIDIEventEndpoint : bool;
  getNumAudioChannels : Z;
  getFrameType : ValueType;
  getSingleEventType : ValueType
}.

Definition isEvent `{Choc} (e : EndpointDetails) : bool :=
  match endpointType e with event => true | _ => false end.
Definition isStream `{Choc} (e : EndpointDetails) : bool :=
  match endpointType e with stream => true | _ => false end.
Definition isValue `{Choc} (e : EndpointDetails) : bool :=
  match endpointType e with value => true | _ => false end.

(** soul::MIDIEvent *)
Record MIDIEvent := {
  frameIndex : Z;
  getPackedMIDIData : Z
}.

Definition fromPackedMIDIData (frame packed : Z) : MIDIEvent :=
  {| frameIndex := frame; getPackedMIDIData := packed |}.

(** choc::buffer::ChannelArrayView: a window of channels and frames onto a
    buffer of the host. *)
Record ChannelArrayView := {
  firstChannel : Z;
  numChannels : Z;
  firstFrame : Z;
  getNumFrames : Z
}.

Definition getFrameRange (v : ChannelArrayView) (s e : Z) : ChannelArrayView :=
  {| firstChannel := firstChannel v; numChannels := numChannels v;
     firstFrame := firstFrame v + s; getNumFrames := e - s |}.

Definition getChannelRange (v : ChannelArrayView) (s e : Z) : ChannelArrayView :=
  {| firstChannel := firstChannel v + s; numChannels := e - s;
     firstFrame := firstFrame v; getNumFrames := getNumFrames v |}.

(** The samples of a host buffer: channel, then frame. *)
Definition Samples := Z -> Z -> Z.

(** ** RenderContext

    [midiIn] stands for the pair [midiIn], [midiInCount]; the pointer
    [midiOut] always points to the outbound buffer of the host, which is in
    the [World] below. *)

Record RenderContext := {
  totalFramesRendered : Z;
  inputChannels : ChannelArrayView;
  outputChannels : ChannelArrayView;
  midiIn : list MIDIEvent;
  frameOffset : Z;
  midiOutCount : Z;
  midiOutCapacity : Z
}.

Definition midiInCount (rc : RenderContext) : Z :=
  Z.of_nat (List.length (midiIn rc)).

(** Field assignments. *)
Definition set_totalFramesRendered (n : Z) (rc : RenderContext) :=
  {| totalFramesRendered := n; inputChannels := inputChannels rc;
     outputChannels := outputChannels rc; midiIn := midiIn rc;
     frameOffset := frameOffset rc; midiOutCount := midiOutCount rc;
     midiOutCapacity := midiOutCapacity rc |}.
Definition set_channels (i o : ChannelArrayView) (rc : RenderContext) :=
  {| totalFramesRendered := totalFramesRendered rc; inputChannels := i;
     outputChannels := o; midiIn := midiIn rc;
     frameOffset := frameOffset rc; midiOutCount := midiOutCount rc;
     midiOutCapacity := midiOutCapacity rc |}.
Definition set_midiIn (l : list MIDIEvent) (rc : RenderContext) :=
  {| totalFramesRendered := totalFramesRendered rc;
     inputChannels := inputChannels rc;
     outputChannels := outputChannels rc; midiIn := l;
     frameOffset := frameOffset rc; midiOutCount := midiOutCount rc;
     midiOutCapacity := midiOutCapacity rc |}.
Definition set_frameOffset (n : Z) (rc : RenderContext) :=
  {| totalFramesRendered := totalFramesRendered rc;
     inputChannels := inputChannels rc;
     outputChannels := outputChannels rc; midiIn := midiIn rc;
     frameOffset := n; midiOutCount := midiOutCount rc;
     midiOutCapacity := midiOutCapacity rc |}.
Definition set_midiOutCount (n : Z) (rc : RenderContext) :=
  {| totalFramesRendered := totalFramesRendered rc;
     inputChannels := inputChannels rc;
     outputChannels := outputChannels rc; midiIn := midiIn rc;
     frameOffset := frameOffset rc; midiOutCount := n;
     midiOutCapacity := midiOutCapacity rc |}.

(** The inner loop of [iterateInBlocks]: events at or before [frameOffset]
    go to the batch of this sub-block ([context.midiIn],
    [context.midiInCount]); the first later one caps [framesToDo] and stays.
    Returns the batch, the events left and [framesToDo]. *)
Fixpoint takeEvents (midiIn : list MIDIEvent) (frameOffset framesToDo : Z)
  : list MIDIEvent * list MIDIEvent * Z :=
  match midiIn with
  | [] => ([], [], framesToDo)
  | ev :: rest =>
      let time := frameIndex ev in
      if time >? frameOffset
      then ([], midiIn, Z.min framesToDo (u32 (time - frameOffset)))
      else
        let r := takeEvents rest frameOffset framesToDo in
        (ev :: fst (fst r), snd (fst r), snd r)
  end.

Section IterateInBlocks.
Context {St : Type}.
Variable maxFramesPerBlock : Z.
Variable render : RenderContext -> St -> RenderContext * St.

(** The outer loop; [this] is the context the method is called on,
    [context] its local copy, handed to [render]. *)
Fixpoint blockLoop (fuel : nat) (this context : RenderContext)
    (framesRemaining : Z) (s : St)
  : option (RenderContext * RenderContext * St) :=
  if framesRemaining =? 0 then Some (this, context, s) else
  match fuel with
  | O => None
  | S fuel' =>
      let taken := takeEvents (midiIn this) (frameOffset this)
                              (Z.min maxFramesPerBlock framesRemaining) in
      let framesToDo := snd taken in
      let this1 := set_midiIn (snd (fst taken)) this in
      let lo := frameOffset this1 in
      let hi := u32 (frameOffset this1 + framesToDo) in
      let context1 :=
        set_channels (getFrameRange (inputChannels this1) lo hi)
                     (getFrameRange (outputChannels this1) lo hi)
                     (set_midiIn (fst (fst taken)) context) in
      let r := render context1 s in
      let this2 := set_frameOffset (u32 (frameOffset this1 + framesToDo)) this1 in
      let context2 :=
        set_frameOffset (u32 (frameOffset (fst r) + framesToDo))
          (set_totalFramesRendered
             (u64 (totalFramesRendered (fst r) + framesToDo)) (fst r)) in
      blockLoop fuel' this2 context2 (u32 (framesRemaining - framesToDo)) (snd r)
  end.

Definition iterateInBlocks (fuel : nat) (this : RenderContext) (s : St)
  : option (RenderContext * St) :=
  match blockLoop fuel this this (getNumFrames (inputChannels this)) s with
  | None => None
  | Some (this', context', s') =>
      Some (set_midiOutCount (midiOutCount context') this', s')
  end.
End IterateInBlocks.

(** ** The engine (interface)

    soul::Performer, as far as the wrapper uses it.  [outputEvents] is the
    list of events an output endpoint produced in the last advance, with
    their frame offsets in that block. *)
Class Performer `{Choc} (P : Type) : Type := {
  getInputEndpoints : P -> list EndpointDetails;
  getOutputEndpoints : P -> list EndpointDetails;
  getEndpointHandle : P -> EndpointID -> EndpointHandle;
  prepare : Z -> P -> P;
  advance : P -> P;
  addInputEvent : EndpointHandle -> Value -> P -> P;
  setSparseInputStreamTarget : EndpointHandle -> Value -> Z -> Z -> P -> P;
  setInputValue : EndpointHandle -> Value -> P -> P;
  setNextInputStreamFrames : EndpointHandle -> Value -> P -> P;
  getOutputStreamFrames : EndpointHandle -> P -> Value;
  outputEvents : EndpointHandle -> P -> list (Z * Value)
}.

(** Modelled from the spec: [Performer::iterateOutputEvents] is declared
    outside this header.  The spec (External interfaces) has it "iterate
    produced output events by handle with early-stop capability": the
    handler is called on each event in turn and a [false] result stops the
    iteration. *)
Fixpoint iterateEvents {V St : Type} (evs : list (Z * V))
    (fn : Z -> V -> St -> bool * St) (s : St) : St :=
  match evs with
  | [] => s
  | (off, v) :: rest =>
      let r := fn off v s in
      if fst r then iterateEvents rest fn (snd r) else snd r
  end.

Definition iterateOutputEvents `{Performer} {St : Type} (h : EndpointHandle)
    (fn : Z -> Value -> St -> bool * St) (perf : P) (s : St) : St :=
  iterateEvents (outputEvents h perf) fn s.

(** ** The wrapper *)

Definition zrange (n : Z) : list Z := map Z.of_nat (seq 0 (Z.to_nat n)).

(** Assignment to slot [i] of a buffer of the host.  The wrapper writes
    [midiOut[midiOutCount]] under [midiOutCount < midiOutCapacity] only; a
    buffer with fewer slots than the capacity the host declared is the
    host's error, and the model stores nothing outside the buffer. *)
Fixpoint store {A : Type} (i : nat) (x : A) (l : list A) : list A :=
  match l, i with
  | [], _ => []
  | _ :: t, O => x :: t
  | y :: t, S j => y :: store j x t
  end.

Section Wrapper.
Context {choc : Choc} {P : Type} {engine : Performer P}.
(** The state of the host that the callbacks given to the builder may read
    and change. *)
Variable Host : Type.

(** The callbacks are [std::function]s: an empty one is [None]; a call may
    read and change the state of the host.  A parameter value is a [float],
    kept as its bits. *)
Definition GetNewValueForParamIfChanged := Host -> option Z * Host.
Definition GetNewParameterValueFn :=
  option (EndpointDetails -> option GetNewValueForParamIfChanged).
Definition GetRampLengthForSparseStreamFn := option (EndpointDetails -> Z).
Definition HandleUnusedEvent := Z -> string -> Value -> Host -> bool * Host.
Definition HandleUnusedEventFn := option HandleUnusedEvent.

(** What a render call works on: the engine, the host state seen by the
    callbacks, the audio buffers of the host and its outbound MIDI buffer.
    The input and the output audio are taken to be two buffers: a host that
    renders in place, with views over the same memory, is not covered. *)
Record World := {
  performer : P;
  host : Host;
  inputAudio : Samples;
  outputAudio : Samples;
  midiOut : list MIDIEvent
}.

Definition set_performer (p : P) (w : World) :=
  {| performer := p; host := host w; inputAudio := inputAudio w;
     outputAudio := outputAudio w; midiOut := midiOut w |}.
Definition set_host (h : Host) (w : World) :=
  {| performer := performer w; host := h; inputAudio := inputAudio w;
     outputAudio := outputAudio w; midiOut := midiOut w |}.
Definition set_outputAudio (o : Samples) (w : World) :=
  {| performer := performer w; host := host w; inputAudio := inputAudio w;
     outputAudio := o; midiOut := midiOut w |}.
Definition set_midiOut (m : list MIDIEvent) (w : World) :=
  {| performer := performer w; host := host w; inputAudio := inputAudio w;
     outputAudio := outputAudio w; midiOut := m |}.

(** The closures pushed on [preRenderOperations] and
    [postRenderOperations], one constructor per lambda of
    [buildRenderingPipeline], with what each captures. *)
Inductive Operation :=
| ParameterEventOp (endpointHandle : EndpointHandle)
    (getNewValueForParamIfChanged : GetNewValueForParamIfChanged)
| ParameterStreamOp (endpointHandle : EndpointHandle)
    (getNewValueForParamIfChanged : GetNewValueForParamIfChanged)
    (rampFrames : Z)
| ParameterValueOp (endpointHandle : EndpointHandle)
    (getNewValueForParamIfChanged : GetNewValueForParamIfChanged)
| MIDIInputOp (endpointHandle : EndpointHandle) (midiEvent : Value)
| MonoInputOp (endpointHandle : EndpointHandle) (startChannel : Z)
| InterleavedInputOp (endpointHandle : EndpointHandle)
    (startChannel numChans interleavedFrames : Z)
| MIDIOutputOp (endpointHandle : EndpointHandle)
| AudioOutputOp (endpointHandle : EndpointHandle) (startChannel numChans : Z)
| UnusedEventOp (endpointHandle : EndpointHandle)
    (handleUnusedEventFn : HandleUnusedEvent) (endpointName : string).

(** The data members of the wrapper, but for the reference to the engine,
    which is in the [World].  [wrapper_totalFramesRendered] is the member
    [totalFramesRendered]; the plain name is the field of [RenderContext]. *)
Record AudioMIDIWrapper := {
  wrapper_totalFramesRendered : Z;
  preRenderOperations : list Operation;
  postRenderOperations : list Operation;
  numInputChannelsExpected : Z;
  numOutputChannelsExpected : Z;
  maxBlockSize : Z
}.

Definition reset (w : AudioMIDIWrapper) : AudioMIDIWrapper :=
  {| wrapper_totalFramesRendered := 0;
     preRenderOperations := [];
     postRenderOperations := [];
     numInputChannelsExpected := 0;
     numOutputChannelsExpected := 0;
     maxBlockSize := 0 |}.

Definition getExpectedNumInputChannels (w : AudioMIDIWrapper) : Z :=
  numInputChannelsExpected w.
Definition getExpectedNumOutputChannels (w : AudioMIDIWrapper) : Z :=
  numOutputChannelsExpected w.

Definition set_maxBlockSize (n : Z) (w : AudioMIDIWrapper) :=
  {| wrapper_totalFramesRendered := wrapper_totalFramesRendered w;
     preRenderOperations := preRenderOperations w;
     postRenderOperations := postRenderOperations w;
     numInputChannelsExpected := numInputChannelsExpected w;
     numOutputChannelsExpected := numOutputChannelsExpected w;
     maxBlockSize := n |}.
Definition push_pre (op : Operation) (w : AudioMIDIWrapper) :=
  {| wrapper_totalFramesRendered := wrapper_totalFramesRendered w;
     preRenderOperations := preRenderOperations w ++ [op];
     postRenderOperations := postRenderOperations w;
     numInputChannelsExpected := numInputChannelsExpected w;
     numOutputChannelsExpected := numOutputChannelsExpected w;
     maxBlockSize := maxBlockSize w |}.
Definition push_post (op : Operation) (w : AudioMIDIWrapper) :=
  {| wrapper_totalFramesRendered := wrapper_totalFramesRendered w;
     preRenderOperations := preRenderOperations w;
     postRenderOperations := postRenderOperations w ++ [op];
     numInputChannelsExpected := numInputChannelsExpected w;
     numOutputChannelsExpected := numOutputChannelsExpected w;
     maxBlockSize := maxBlockSize w |}.
Definition add_inputChannels (n : Z) (w : AudioMIDIWrapper) :=
  {| wrapper_totalFramesRendered := wrapper_totalFramesRendered w;
     preRenderOperations := preRenderOperations w;
     postRenderOperations := postRenderOperations w;
     numInputChannelsExpected := u32 (numInputChannelsExpected w + n);
     numOutputChannelsExpected := numOutputChannelsExpected w;
     maxBlockSize := maxBlockSize w |}.
Definition add_outputChannels (n : Z) (w : AudioMIDIWrapper) :=
  {| wrapper_totalFramesRendered := wrapper_totalFramesRendered w;
     preRenderOperations := preRenderOperations w;
     postRenderOperations := postRenderOperations w;
     numInputChannelsExpected := numInputChannelsExpected w;
     numOutputChannelsExpected := u32 (numOutputChannelsExpected w + n);
     maxBlockSize := maxBlockSize w |}.
Definition add_totalFramesRendered (n : Z) (w : AudioMIDIWrapper) :=
  {| wrapper_totalFramesRendered := u64 (wrapper_totalFramesRendered w + n);
     preRenderOperations := preRenderOperations w;
     postRenderOperations := postRenderOperations w;
     numInputChannelsExpected := numInputChannelsExpected w;
     numOutputChannelsExpected := numOutputChannelsExpected w;
     maxBlockSize := maxBlockSize w |}.

(** [frameType.isFloat() || (frameType.isVector() && frameType.getElementType().isFloat())] *)
Definition isFloatFrameType (t : ValueType) : bool :=
  isFloat t || (isVector t && isFloat (getElementType t)).

(** *** buildRenderingPipeline *)

(** The body of the loop over the input endpoints. *)
Definition buildInput (perf : P)
    (getNewParameterValueFn : GetNewParameterValueFn)
    (getRampLengthForSparseStreamFn : GetRampLengthForSparseStreamFn)
    (inputEndpoint : EndpointDetails) (w : AudioMIDIWrapper)
  : option AudioMIDIWrapper :=
  if isParameterInput inputEndpoint then
    match getNewParameterValueFn with
    | None => Some w
    | Some getNewParameterValue =>
        match getNewParameterValue inputEndpoint with
        | None => Some w
        | Some getNewValueForParamIfChanged =>
            let endpointHandle :=
              getEndpointHandle perf (endpointID inputEndpoint) in
            if isEvent inputEndpoint then
              Some (push_pre (ParameterEventOp endpointHandle
                                getNewValueForParamIfChanged) w)
            else if isStream inputEndpoint then
              match getRampLengthForSparseStreamFn with
              | None => None
              | Some getRampLengthForSparseStream =>
                  let rampFrames := getRampLengthForSparseStream inputEndpoint in
                  Some (push_pre (ParameterStreamOp endpointHandle
                                    getNewValueForParamIfChanged rampFrames) w)
              end
            else if isValue inputEndpoint then
              Some (push_pre (ParameterValueOp endpointHandle
                                getNewValueForParamIfChanged) w)
            else Some w
        end
    end
  else if isMIDIEventEndpoint inputEndpoint then
    let endpointHandle := getEndpointHandle perf (endpointID inputEndpoint) in
    let midiEvent := createValue (getSingleEventType inputEndpoint) in
    Some (push_pre (MIDIInputOp endpointHandle midiEvent) w)
  else
    let numSourceChans := getNumAudioChannels inputEndpoint in
    if negb (numSourceChans =? 0) then
      let endpointHandle := getEndpointHandle perf (endpointID inputEndpoint) in
      let frameType := getFrameType inputEndpoint in
      let startChannel := numInputChannelsExpected w in
      let numChans := getNumElements frameType in
      if isFloatFrameType frameType then
        Some (add_inputChannels numSourceChans
                (push_pre
                   (if numChans =? 1
                    then MonoInputOp endpointHandle startChannel
                    else InterleavedInputOp endpointHandle startChannel
                           numChans (maxBlockSize w)) w))
      else None
    else Some w.

(** The body of the loop over the output endpoints. *)
Definition buildOutput (perf : P) (handleUnusedEventFn : HandleUnusedEventFn)
    (outputEndpoint : EndpointDetails) (w : AudioMIDIWrapper)
  : option AudioMIDIWrapper :=
  if isMIDIEventEndpoint outputEndpoint then
    let endpointHandle := getEndpointHandle perf (endpointID outputEndpoint) in
    Some (push_post (MIDIOutputOp endpointHandle) w)
  else
    let numChans := getNumAudioChannels outputEndpoint in
    if negb (numChans =? 0) then
      let endpointHandle := getEndpointHandle perf (endpointID outputEndpoint) in
      let frameType := getFrameType outputEndpoint in
      let startChannel := numOutputChannelsExpected w in
      let w1 := add_outputChannels numChans w in
      if isFloatFrameType frameType then
        Some (push_post (AudioOutputOp endpointHandle startChannel numChans) w1)
      else None
    else
      match handleUnusedEventFn with
      | Some handleUnusedEvent =>
          if isEvent outputEndpoint then
            let endpointHandle :=
              getEndpointHandle perf (endpointID outputEndpoint) in
            let endpointName := name outputEndpoint in
            Some (push_post (UnusedEventOp endpointHandle handleUnusedEvent
                               endpointName) w)
          else Some w
      | None => Some w
      end.

(** A range-based [for] whose body may halt the program. *)
Fixpoint forEach {A B : Type} (body : A -> B -> option B) (l : list A) (b : B)
  : option B :=
  match l with
  | [] => Some b
  | x :: rest =>
      match body x b with
      | None => None
      | Some b' => forEach body rest b'
      end
  end.

Definition buildRenderingPipeline (processorMaxBlockSize : Z)
    (getNewParameterValueFn : GetNewParameterValueFn)
    (getRampLengthForSparseStreamFn : GetRampLengthForSparseStreamFn)
    (handleUnusedEventFn : HandleUnusedEventFn)
    (perf : P) (w : AudioMIDIWrapper) : option AudioMIDIWrapper :=
  if processorMaxBlockSize >? 0 then
    let w0 := set_maxBlockSize (Z.min 512 processorMaxBlockSize) (reset w) in
    match forEach (buildInput perf getNewParameterValueFn
                     getRampLengthForSparseStreamFn)
                  (getInputEndpoints perf) w0 with
    | None => None
    | Some w1 =>
        forEach (buildOutput perf handleUnusedEventFn)
                (getOutputEndpoints perf) w1
    end
  else None.

(** *** The operations

    [floatValue] and [midiEvent] are captured by value in mutable lambdas;
    each call assigns them before handing them to the engine, so what the
    engine receives depends on the captured prototype and the assigned
    number only. *)

Definition copyIntersectionAndClearOutside (dest : ChannelArrayView)
    (src : (Z * Z) * (Z -> Z -> Z)) (out : Samples) : Samples :=
  fun c f =>
    let c' := c - firstChannel dest in
    let f' := f - firstFrame dest in
    if (0 <=? c') && (c' <? numChannels dest)
       && (0 <=? f') && (f' <? getNumFrames dest)
    then if (c' <? fst (fst src)) && (f' <? snd (fst src))
         then snd src c' f' else 0
    else out c f.

(** The handler the MIDI output operation gives to [iterateOutputEvents]. *)
Definition writeMIDIOut (frameOffset' : Z) (ev : Value)
    (st : RenderContext * World) : bool * (RenderContext * World) :=
  let rc := fst st in
  (true,
   if midiOutCount rc <? midiOutCapacity rc
   then (set_midiOutCount (u32 (midiOutCount rc + 1)) rc,
         set_midiOut
           (store (Z.to_nat (midiOutCount rc))
                  (fromPackedMIDIData (u32 (frameOffset rc + frameOffset'))
                                      (getMidiBytes ev))
                  (midiOut (snd st)))
           (snd st))
   else st).

(** The handler the unused-event operation gives to [iterateOutputEvents]. *)
Definition forwardUnusedEvent (handleUnusedEventFn : HandleUnusedEvent)
    (endpointName : string) (frameOffset' : Z) (eventData : Value)
    (st : RenderContext * World) : bool * (RenderContext * World) :=
  let r := handleUnusedEventFn
             (u64 (totalFramesRendered (fst st) + frameOffset'))
             endpointName eventData (host (snd st)) in
  (fst r, (fst st, set_host (snd r) (snd st))).

Definition pollParameter
    (getNewValueForParamIfChanged : GetNewValueForParamIfChanged)
    (send : Value -> P -> P) (world : World) : World :=
  let r := getNewValueForParamIfChanged (host world) in
  match fst r with
  | Some newValue =>
      set_performer (send (createFloat32 newValue) (performer world))
                    (set_host (snd r) world)
  | None => set_host (snd r) world
  end.

Definition runOperation (op : Operation) (st : RenderContext * World)
  : RenderContext * World :=
  let rc := fst st in
  let world := snd st in
  match op with
  | ParameterEventOp h getNewValue =>
      (rc, pollParameter getNewValue (addInputEvent h) world)
  | ParameterStreamOp h getNewValue rampFrames =>
      (rc, pollParameter getNewValue
             (fun v => setSparseInputStreamTarget h v rampFrames 0) world)
  | ParameterValueOp h getNewValue =>
      (rc, pollParameter getNewValue (setInputValue h) world)
  | MIDIInputOp h midiEvent =>
      (rc, set_performer
             (fold_left
                (fun p ev =>
                   addInputEvent h
                     (setObjectMember0 midiEvent (getPackedMIDIData ev)) p)
                (midiIn rc) (performer world))
             world)
  | MonoInputOp h startChannel =>
      let v := inputChannels rc in
      (rc, set_performer
             (setNextInputStreamFrames h
                (createArrayView
                   (map (fun f => inputAudio world
                                    (firstChannel v + startChannel)
                                    (firstFrame v + f))
                        (zrange (getNumFrames v))))
                (performer world))
             world)
  | InterleavedInputOp h startChannel numChans _ =>
      let v := getChannelRange (inputChannels rc) startChannel
                               (u32 (startChannel + numChans)) in
      (rc, set_performer
             (setNextInputStreamFrames h
                (create2DArrayView
                   (map (fun f =>
                           map (fun c => inputAudio world (firstChannel v + c)
                                                    (firstFrame v + f))
                               (zrange numChans))
                        (zrange (getNumFrames v))))
                (performer world))
             world)
  | MIDIOutputOp h =>
      iterateOutputEvents h writeMIDIOut (performer world) st
  | AudioOutputOp h startChannel numChans =>
      (rc, set_outputAudio
             (copyIntersectionAndClearOutside
                (getChannelRange (outputChannels rc) startChannel
                                 (u32 (startChannel + numChans)))
                (getChannelSetFromArray
                   (getOutputStreamFrames h (performer world)))
                (outputAudio world))
             world)
  | UnusedEventOp h handleUnusedEventFn endpointName =>
      iterateOutputEvents h (forwardUnusedEvent handleUnusedEventFn endpointName)
                          (performer world) st
  end.

Definition runOperations (ops : list Operation) (st : RenderContext * World)
  : RenderContext * World :=
  fold_left (fun st op => runOperation op st) ops st.

(** *** render *)

(** The lambda [render] passes to [iterateInBlocks]. *)
Definition renderBlock (w : AudioMIDIWrapper) (rc : RenderContext)
    (world : World) : RenderContext * World :=
  let world1 :=
    set_performer (prepare (getNumFrames (inputChannels rc)) (performer world))
                  world in
  let st2 := runOperations (preRenderOperations w) (rc, world1) in
  let world3 := set_performer (advance (performer (snd st2))) (snd st2) in
  runOperations (postRenderOperations w) (fst st2, world3).

Definition initialContext (w : AudioMIDIWrapper)
    (input output : ChannelArrayView) (midiIn : list MIDIEvent)
    (midiOutCapacity : Z) : RenderContext :=
  {| totalFramesRendered := wrapper_totalFramesRendered w;
     inputChannels := input;
     outputChannels := output;
     midiIn := midiIn;
     frameOffset := 0;
     midiOutCount := 0;
     midiOutCapacity := midiOutCapacity |}.

(** Returns the wrapper, the world and [numMIDIOutMessages].  The loop gets
    one unit of fuel per frame of the block. *)
Definition render (input output : ChannelArrayView)
    (midiIn : list MIDIEvent) (midiOutCapacity : Z)
    (w : AudioMIDIWrapper) (world : World)
  : option (AudioMIDIWrapper * World * Z) :=
  if (getNumFrames input =? getNumFrames output) && negb (maxBlockSize w =? 0)
  then
    let context := initialContext w input output midiIn midiOutCapacity in
    match iterateInBlocks (maxBlockSize w) (renderBlock w)
                          (Z.to_nat (getNumFrames input)) context world with
    | None => None
    | Some (context', world') =>
        Some (add_totalFramesRendered (getNumFrames input) w, world',
              midiOutCount context')
    end
  else None.

End Wrapper.

Arguments World : clear implicits.

(** * Vocabulary of the properties *)

(** An inbound event as the host can supply it: its frame index is a
    [uint32_t]. *)
Definition wfEvent (ev : MIDIEvent) : Prop := is_u32 (frameIndex ev).

(** Non-decreasing frame offsets. *)
Definition timeSorted (evs : list MIDIEvent) : Prop :=
  Sorted (fun a b => frameIndex a <= frameIndex b) evs.

Definition later (off : Z) (ev : MIDIEvent) : bool := off <? frameIndex ev.

(** A sub-block, as the rendering callback sees it: where its audio window
    starts in the host block, its length and its batch of events. *)
Record SubBlock := {
  blockStart : Z;
  framesToDo : Z;
  blockEvents : list MIDIEvent
}.

Definition subBlockOf (base : ChannelArrayView) (rc : RenderContext) : SubBlock :=
  {| blockStart := firstFrame (inputChannels rc) - firstFrame base;
     framesToDo := getNumFrames (inputChannels rc);
     blockEvents := midiIn rc |}.

(** A rendering callback that also records the context of each call. *)
Definition traced {St : Type} (f : RenderContext -> St -> RenderContext * St)
    (rc : RenderContext) (sl : St * list RenderContext)
  : RenderContext * (St * list RenderContext) :=
  (fst (f rc (fst sl)), (snd (f rc (fst sl)), snd sl ++ [rc])).

(** The contexts [iterateInBlocks] hands to its callback, in order. *)
Definition tracedContexts {St : Type} (maxFramesPerBlock : Z)
    (f : RenderContext -> St -> RenderContext * St) (fuel : nat)
    (this : RenderContext) (s : St) : option (list RenderContext) :=
  match iterateInBlocks maxFramesPerBlock (traced f) fuel this (s, []) with
  | None => None
  | Some r => Some (snd (snd r))
  end.

Definition subBlocks {St : Type} (maxFramesPerBlock : Z)
    (f : RenderContext -> St -> RenderContext * St) (fuel : nat)
    (this : RenderContext) (s : St) : option (list SubBlock) :=
  option_map (map (subBlockOf (inputChannels this)))
             (tracedContexts maxFramesPerBlock f fuel this s).

(** The splitting of the frames [off .. B) with the events [evs] pending. *)
Inductive schedule (C B : Z) : Z -> list MIDIEvent -> list SubBlock -> Prop :=
| schedule_done evs : schedule C B B evs []
| schedule_block off evs blocks :
    off < B ->
    schedule C B (off + snd (takeEvents evs off (Z.min C (B - off))))
             (snd (fst (takeEvents evs off (Z.min C (B - off))))) blocks ->
    schedule C B off evs
      ({| blockStart := off;
          framesToDo := snd (takeEvents evs off (Z.min C (B - off)));
          blockEvents := fst (fst (takeEvents evs off (Z.min C (B - off)))) |}
       :: blocks).

Definition sumFrames (blocks : list SubBlock) : Z :=
  fold_right (fun b acc => framesToDo b + acc) 0 blocks.

Definition capFormula (C B : Z) (events : list MIDIEvent) (b : SubBlock) : Z :=
  match find (later (blockStart b)) events with
  | Some ev => Z.min (Z.min C (B - blockStart b)) (frameIndex ev - blockStart b)
  | None => Z.min C (B - blockStart b)
  end.

(** The events still pending when the loop stands at [off]. *)
Definition pendingFrom (off : Z) (evs : list MIDIEvent) : Prop :=
  timeSorted evs /\ Forall (fun ev => off <= frameIndex ev) evs /\
  Forall wfEvent evs.

(** How two consecutive sub-blocks meet: the second starts where the first
    ends, and the first is a full [C] frames long or ends at the frame index
    of an event. *)
Definition meets (C : Z) (events : list MIDIEvent) (b b' : SubBlock) : Prop :=
  blockStart b' = blockStart b + framesToDo b /\
  (framesToDo b = C \/
   exists ev, In ev events /\ frameIndex ev = blockStart b').

(** [R] holds of every two neighbours in [l]. *)
Definition eachConsecutive {A : Type} (R : A -> A -> Prop) (l : list A) : Prop :=
  forall l1 a b l2, l = l1 ++ a :: b :: l2 -> R a b.

(** Every boundary between two sub-blocks is the frame index of an event. *)
Definition boundariesAtEvents (events : list MIDIEvent)
    (blocks : list SubBlock) : Prop :=
  eachConsecutive
    (fun _ b' => exists ev, In ev events /\ frameIndex ev = blockStart b')
    blocks.

(** The context of a sub-block differs from [rc] in [midiOutCount] at most. *)
Definition sameFrame (rc rc' : RenderContext) : Prop :=
  totalFramesRendered rc' = totalFramesRendered rc /\
  inputChannels rc' = inputChannels rc /\
  outputChannels rc' = outputChannels rc /\
  midiIn rc' = midiIn rc /\
  frameOffset rc' = frameOffset rc /\
  midiOutCapacity rc' = midiOutCapacity rc.

(** The time base of a sub-block: [frameOffset] is where it starts in the
    host block, [totalFramesRendered] the frames rendered before it since
    the pipeline was built, [T0] of them before this host block. *)
Definition timeBase (T0 : Z) (base : ChannelArrayView) (rc : RenderContext) : Prop :=
  frameOffset rc = firstFrame (inputChannels rc) - firstFrame base /\
  totalFramesRendered rc = u64 (T0 + frameOffset rc).

Section RenderVocabulary.
Context {choc : Choc} {P : Type} {engine : Performer P}.
Variable Host : Type.

(** The contexts of the sub-blocks of one [render] call, in order. *)
Definition renderContexts (input output : ChannelArrayView)
    (midiIn : list MIDIEvent) (midiOutCapacity : Z)
    (w : AudioMIDIWrapper Host) (world : World P Host)
  : option (list RenderContext) :=
  if (getNumFrames input =? getNumFrames output) && negb (maxBlockSize w =? 0)
  then tracedContexts (maxBlockSize w) (renderBlock w)
         (Z.to_nat (getNumFrames input))
         (initialContext w input output midiIn midiOutCapacity) world
  else None.

Definition renderSubBlocks (input output : ChannelArrayView)
    (midiIn : list MIDIEvent) (midiOutCapacity : Z)
    (w : AudioMIDIWrapper Host) (world : World P Host)
  : option (list SubBlock) :=
  option_map (map (subBlockOf input))
             (renderContexts input output midiIn midiOutCapacity w world).

(** One call of the unused-event callback: time, endpoint name, event and
    the result it gave. *)
Record Call := {
  callTime : Z;
  callName : string;
  callEvent : Value;
  callResult : bool
}.

(** An unused-event callback that also keeps a log of its calls. *)
Definition recording (fn : HandleUnusedEvent Host)
  : HandleUnusedEvent (Host * list Call) :=
  fun t n v hl =>
    (fst (fn t n v (fst hl)),
     (snd (fn t n v (fst hl)),
      snd hl ++ [{| callTime := t; callName := n; callEvent := v;
                    callResult := fst (fn t n v (fst hl)) |}])).

(** What the callback is to be told about an event the engine produced at
    [off] in the sub-block of [rc]. *)
Definition stamped (rc : RenderContext) (endpointName : string)
    (ev : Z * Value) : Z * string * Value :=
  (u64 (totalFramesRendered rc + fst ev), endpointName, snd ev).

Definition callArgs (c : Call) : Z * string * Value :=
  (callTime c, callName c, callEvent c).

(** The calls the unused-event operation makes to [fn] in a sub-block. *)
Definition unusedEventCalls (h : EndpointHandle) (fn : HandleUnusedEvent Host)
    (endpointName : string) (rc : RenderContext) (world : World P Host)
  : list Call :=
  snd (host (snd (runOperation
                    (UnusedEventOp h (recording fn) endpointName)
                    (rc, {| performer := performer world;
                            host := (host world, []);
                            inputAudio := inputAudio world;
                            outputAudio := outputAudio world;
                            midiOut := midiOut world |})))).

(** The callback was told about every event the engine produced. *)
Definition forwardsEveryEvent (h : EndpointHandle) (fn : HandleUnusedEvent Host)
    (endpointName : string) (rc : RenderContext) (world : World P Host) : Prop :=
  map callArgs (unusedEventCalls h fn endpointName rc world)
  = map (stamped rc endpointName) (outputEvents h (performer world)).

(** The calls [new] are about the first events of [evs], in order; every
    call but the last was answered [true], and if events were left out the
    last call was answered [false]. *)
Definition forwardedPrefix (rc : RenderContext) (endpointName : string)
    (evs : list (Z * Value)) (new : list Call) : Prop :=
  map callArgs new
    = map (stamped rc endpointName) (firstn (List.length new) evs) /\
  Forall (fun c => callResult c = true) (removelast new) /\
  (List.length new = List.length evs \/
   exists l c, new = l ++ [c] /\ callResult c = false).

(** The outbound count is within the capacity. *)
Definition withinCapacity (rc : RenderContext) : Prop :=
  0 <= midiOutCount rc <= midiOutCapacity rc.

(** The endpoints that take the audio branch of the builder. *)
Definition isAudioInput (e : EndpointDetails) : bool :=
  negb (isParameterInput e) && negb (isMIDIEventEndpoint e)
  && negb (getNumAudioChannels e =? 0).
Definition isAudioOutput (e : EndpointDetails) : bool :=
  negb (isMIDIEventEndpoint e) && negb (getNumAudioChannels e =? 0).

Definition totalChannels (sel : EndpointDetails -> bool)
    (eps : list EndpointDetails) : Z :=
  fold_right (fun e acc => getNumAudioChannels e + acc) 0 (filter sel eps).

(** The channel count of an endpoint is a [uint32_t]. *)
Definition wfEndpoint (e : EndpointDetails) : Prop :=
  is_u32 (getNumAudioChannels e).

(** The wrapper on entry to the loops of [buildRenderingPipeline]. *)
Definition freshPipeline (processorMaxBlockSize : Z) (w : AudioMIDIWrapper Host)
  : AudioMIDIWrapper Host :=
  set_maxBlockSize (Z.min 512 processorMaxBlockSize) (reset w).

(** What the host can see of a built pipeline: the expected channel counts
    and the number of operations of each kind. *)
Definition pipelineShape (w : AudioMIDIWrapper Host) : Z * Z * nat * nat :=
  (getExpectedNumInputChannels w, getExpectedNumOutputChannels w,
   List.length (preRenderOperations w), List.length (postRenderOperations w)).

(** Two runs of a loop of the builder that stop together or end in
    pipelines of the same shape. *)
Definition sameShape (a b : option (AudioMIDIWrapper Host)) : Prop :=
  option_map pipelineShape a = option_map pipelineShape b.

End RenderVocabulary.

(** * Watching the engine's clock

    Any engine, with a log of the [prepare] and [advance] calls it
    receives; every other call goes to the engine unlogged. *)

Inductive ClockCall :=
| PrepareCall (numFrames : Z)
| AdvanceCall.

Record Clocked (P : Type) := {
  inner : P;
  clockLog : list ClockCall
}.

Arguments inner {P} _.
Arguments clockLog {P} _.

Definition onInner {P : Type} (g : P -> P) (c : Clocked P) : Clocked P :=
  {| inner := g (inner c); clockLog := clockLog c |}.

Definition logged {P : Type} (call : ClockCall) (g : P -> P) (c : Clocked P)
  : Clocked P :=
  {| inner := g (inner c); clockLog := clockLog c ++ [call] |}.

Definition clockedPerformer {choc : Choc} {P : Type} (engine : Performer P)
  : Performer (Clocked P) :=
  {| getInputEndpoints := fun c => getInputEndpoints (inner c);
     getOutputEndpoints := fun c => getOutputEndpoints (inner c);
     getEndpointHandle := fun c id => getEndpointHandle (inner c) id;
     prepare := fun n => logged (PrepareCall n) (prepare n);
     advance := logged AdvanceCall advance;
     addInputEvent := fun h v => onInner (addInputEvent h v);
     setSparseInputStreamTarget := fun h v r k =>
       onInner (setSparseInputStreamTarget h v r k);
     setInputValue := fun h v => onInner (setInputValue h v);
     setNextInputStreamFrames := fun h v =>
       onInner (setNextInputStreamFrames h v);
     getOutputStreamFrames := fun h c => getOutputStreamFrames h (inner c);
     outputEvents := fun h c => outputEvents h (inner c) |}.

(** The clock calls of a render call with the given sub-blocks: one
    [prepare], with the length of the sub-block, and one [advance] for
    each. *)
Definition clockCalls (blocks : list SubBlock) : list ClockCall :=
  flat_map (fun b => [PrepareCall (framesToDo b); AdvanceCall]) blocks.

(** * Vocabulary of the further properties *)

(** Frames split in blocks of [C]: the number of blocks. *)
Definition ceilDiv (n C : Z) : Z := (n + C - 1) / C.

(** The events of [evs] later than [off]. *)
Definition laterCount (off : Z) (evs : list MIDIEvent) : Z :=
  Z.of_nat (List.length (filter (later off) evs)).

(** The sub-blocks follow one another from frame [s] to frame [e], each at
    least one frame long. *)
Fixpoint tiles (s : Z) (blocks : list SubBlock) (e : Z) : Prop :=
  match blocks with
  | [] => s = e
  | b :: rest =>
      blockStart b = s /\ 0 < framesToDo b /\
      tiles (s + framesToDo b) rest e
  end.

(** The output window of a sub-block covers the frames of its input window
    and all the channels of the host's output. *)
Definition sameWindow (input output : ChannelArrayView) (rc : RenderContext)
  : Prop :=
  getNumFrames (outputChannels rc) = getNumFrames (inputChannels rc) /\
  firstFrame (outputChannels rc) - firstFrame output
    = firstFrame (inputChannels rc) - firstFrame input /\
  firstChannel (inputChannels rc) = firstChannel input /\
  numChannels (inputChannels rc) = numChannels input /\
  firstChannel (outputChannels rc) = firstChannel output /\
  numChannels (outputChannels rc) = numChannels output.

(** Channel ranges (first channel, width) that follow one another from
    channel [s] to channel [e]. *)
Fixpoint contiguousFrom (s : Z) (ranges : list (Z * Z)) (e : Z) : Prop :=
  match ranges with
  | [] => s = e
  | (a, n) :: rest => a = s /\ 0 < n /\ contiguousFrom (s + n) rest e
  end.

Section BuildVocabulary.
Context {choc : Choc} {P : Type} {engine : Performer P}.
Variable Host : Type.

Definition isPreOp (op : Operation Host) : bool :=
  match op with
  | ParameterEventOp _ _ | ParameterStreamOp _ _ _ | ParameterValueOp _ _
  | MIDIInputOp _ _ _ | MonoInputOp _ _ _ | InterleavedInputOp _ _ _ _ _ => true
  | _ => false
  end.

Definition isPostOp (op : Operation Host) : bool :=
  match op with
  | MIDIOutputOp _ _ | AudioOutputOp _ _ _ _ | UnusedEventOp _ _ _ => true
  | _ => false
  end.

Definition isParameterOp (op : Operation Host) : bool :=
  match op with
  | ParameterEventOp _ _ | ParameterStreamOp _ _ _ | ParameterValueOp _ _ => true
  | _ => false
  end.

Definition isUnusedEventOp (op : Operation Host) : bool :=
  match op with
  | UnusedEventOp _ _ _ => true
  | _ => false
  end.

(** The channel ranges the audio output operations write, in order. *)
Definition outputRanges (ops : list (Operation Host)) : list (Z * Z) :=
  flat_map (fun op => match op with
                      | AudioOutputOp _ _ startChannel numChans =>
                          [(startChannel, numChans)]
                      | _ => []
                      end) ops.

(** The first channels the audio input operations read from, in order. *)
Definition inputStarts (ops : list (Operation Host)) : list Z :=
  flat_map (fun op => match op with
                      | MonoInputOp _ _ startChannel => [startChannel]
                      | InterleavedInputOp _ _ startChannel _ _ => [startChannel]
                      | _ => []
                      end) ops.

(** The channel counts of the audio input endpoints before each of them, in
    order: where each one starts in the host's input. *)
Fixpoint prefixSums (s : Z) (eps : list EndpointDetails) : list Z :=
  match eps with
  | [] => []
  | e :: rest =>
      if isAudioInput e
      then s :: prefixSums (s + getNumAudioChannels e) rest
      else prefixSums s rest
  end.

(** The input endpoints at which the builder halts: a stream parameter with
    a change detector and no ramp length provider, or an audio endpoint
    whose frames are not floats. *)
Definition inputHalts (getNewParameterValueFn : GetNewParameterValueFn Host)
    (getRampLengthForSparseStreamFn : GetRampLengthForSparseStreamFn)
    (e : EndpointDetails) : bool :=
  if isParameterInput e then
    match getNewParameterValueFn with
    | Some getNewParameterValue =>
        match getNewParameterValue e, getRampLengthForSparseStreamFn with
        | Some _, None => isStream e
        | _, _ => false
        end
    | None => false
    end
  else
    negb (isMIDIEventEndpoint e) && negb (getNumAudioChannels e =? 0)
    && negb (isFloatFrameType (getFrameType e)).

(** The output endpoints at which the builder halts. *)
Definition outputHalts (e : EndpointDetails) : bool :=
  negb (isMIDIEventEndpoint e) && negb (getNumAudioChannels e =? 0)
  && negb (isFloatFrameType (getFrameType e)).

(** What the MIDI output operation stores for an event of the engine in the
    sub-block of [rc]. *)
Definition midiOutEvent (rc : RenderContext) (ev : Z * Value) : MIDIEvent :=
  fromPackedMIDIData (u32 (frameOffset rc + fst ev)) (getMidiBytes (snd ev)).

(** The compiled pipeline: everything in the wrapper but the frame
    counter. *)
Definition samePipeline (w w' : AudioMIDIWrapper Host) : Prop :=
  preRenderOperations w' = preRenderOperations w /\
  postRenderOperations w' = postRenderOperations w /\
  numInputChannelsExpected w' = numInputChannelsExpected w /\
  numOutputChannelsExpected w' = numOutputChannelsExpected w /\
  maxBlockSize w' = maxBlockSize w.

(** What a render call leaves alone in the outbound buffer: the slots from
    [midiOutCount] on. *)
Definition untouched (cap : Z) (buffer : list MIDIEvent)
    (rc : RenderContext) (world : World P Host) : Prop :=
  midiOutCapacity rc = cap /\
  0 <= midiOutCount rc <= cap /\
  skipn (Z.to_nat (midiOutCount rc)) (midiOut world)
    = skipn (Z.to_nat (midiOutCount rc)) buffer.

End BuildVocabulary.

(** * A small engine to run the wrapper on *)

Module Demo.

Local Open Scope string_scope.

Inductive DemoType :=
| T_float32
| T_int32
| T_vector (elem : DemoType) (n : Z)
| T_midiMessage.

Inductive DemoValue :=
| V_float32 (bits : Z)
| V_int32 (i : Z)
| V_midiMessage (midiBytes : Z)
| V_array (samples : list Z)
| V_array2D (frames : list (list Z)).

Definition demo_setObjectMember0 (v : DemoValue) (i : Z) : DemoValue :=
  match v with
  | V_midiMessage _ => V_midiMessage i
  | _ => v
  end.

Definition demo_setObjectMember0_overwrite (v : DemoValue) (i j : Z)
  : demo_setObjectMember0 (demo_setObjectMember0 v i) j
    = demo_setObjectMember0 v j :=
  match v with
  | V_float32 _ | V_int32 _ | V_midiMessage _ | V_array _ | V_array2D _ =>
      eq_refl
  end.

#[export] Instance choc : Choc := {|
  ValueType := DemoType;
  isFloat := fun t => match t with T_float32 => true | _ => false end;
  isVector := fun t => match t with T_vector _ _ => true | _ => false end;
  getElementType := fun t => match t with T_vector e _ => e | _ => t end;
  getNumElements := fun t => match t with T_vector _ n => n | _ => 1 end;
  Value := DemoValue;
  createFloat32 := V_float32;
  createValue := fun t =>
    match t with
    | T_float32 => V_float32 0
    | T_int32 => V_int32 0
    | T_vector _ _ => V_array []
    | T_midiMessage => V_midiMessage 0
    end;
  setObjectMember0 := demo_setObjectMember0;
  setObjectMember0_overwrite := demo_setObjectMember0_overwrite;
  getMidiBytes := fun v => match v with V_midiMessage b => b | _ => 0 end;
  createArrayView := V_array;
  create2DArrayView := V_array2D;
  getChannelSetFromArray := fun v =>
    match v with
    | V_array l => ((1, Z.of_nat (List.length l)), fun _ f => nth (Z.to_nat f) l 0)
    | V_array2D ll =>
        ((Z.of_nat (List.length (hd [] ll)), Z.of_nat (List.length ll)),
         fun c f => nth (Z.to_nat c) (nth (Z.to_nat f) ll []) 0)
    | _ => ((0, 0), fun _ _ => 0)
    end
|}.

(** The calls the engine received. *)
Inductive EngineCall :=
| Prepare (numFrames : Z)
| Advance
| AddInputEvent (h : EndpointHandle) (v : DemoValue)
| SetSparseInputStreamTarget (h : EndpointHandle) (v : DemoValue) (ramp curve : Z)
| SetInputValue (h : EndpointHandle) (v : DemoValue)
| SetNextInputStreamFrames (h : EndpointHandle) (v : DemoValue).

(** An engine that logs its calls and produces the same output events in
    every block. *)
Record Engine := {
  inputs : list EndpointDetails;
  outputs : list EndpointDetails;
  handles : list (EndpointID * EndpointHandle);
  produced : list (EndpointHandle * (Z * DemoValue));
  calls : list EngineCall
}.

Definition logCall (c : EngineCall) (e : Engine) : Engine :=
  {| inputs := inputs e; outputs := outputs e; handles := handles e;
     produced := produced e; calls := (calls e ++ [c])%list |}.

Definition lookupHandle (e : Engine) (id : EndpointID) : EndpointHandle :=
  match find (fun x => String.eqb (fst x) id) (handles e) with
  | Some x => snd x
  | None => 0
  end.

#[export] Instance engine : Performer Engine := {|
  getInputEndpoints := inputs;
  getOutputEndpoints := outputs;
  getEndpointHandle := lookupHandle;
  prepare := fun n => logCall (Prepare n);
  advance := logCall Advance;
  addInputEvent := fun h v => logCall (AddInputEvent h v);
  setSparseInputStreamTarget := fun h v r c =>
    logCall (SetSparseInputStreamTarget h v r c);
  setInputValue := fun h v => logCall (SetInputValue h v);
  setNextInputStreamFrames := fun h v => logCall (SetNextInputStreamFrames h v);
  getOutputStreamFrames := fun _ _ => V_array2D [];
  outputEvents := fun h e =>
    map snd (filter (fun x => Z.eqb (fst x) h) (produced e))
|}.

Definition audioIn : EndpointDetails :=
  {| endpointID := "in"; name := "audioIn"; endpointType := stream;
     isParameterInput := false; isMIDIEventEndpoint := false;
     getNumAudioChannels := 2; getFrameType := T_vector T_float32 2;
     getSingleEventType := T_float32 |}.

Definition midiInput : EndpointDetails :=
  {| endpointID := "midiIn"; name := "midiIn"; endpointType := event;
     isParameterInput := false; isMIDIEventEndpoint := true;
     getNumAudioChannels := 0; getFrameType := T_midiMessage;
     getSingleEventType := T_midiMessage |}.

Definition audioOut : EndpointDetails :=
  {| endpointID := "out"; name := "audioOut"; endpointType := stream;
     isParameterInput := false; isMIDIEventEndpoint := false;
     getNumAudioChannels := 1; getFrameType := T_float32;
     getSingleEventType := T_float32 |}.

Definition midiOutput : EndpointDetails :=
  {| endpointID := "midiOut"; name := "midiOut"; endpointType := event;
     isParameterInput := false; isMIDIEventEndpoint := true;
     getNumAudioChannels := 0; getFrameType := T_midiMessage;
     getSingleEventType := T_midiMessage |}.

Definition eventOut : EndpointDetails :=
  {| endpointID := "meter"; name := "meter"; endpointType := event;
     isParameterInput := false; isMIDIEventEndpoint := false;
     getNumAudioChannels := 0; getFrameType := T_int32;
     getSingleEventType := T_int32 |}.

(** In every block the engine emits two MIDI messages and two meter
    events. *)
Definition theEngine : Engine :=
  {| inputs := [audioIn; midiInput];
     outputs := [midiOutput; audioOut; eventOut];
     handles := [("in", 1); ("midiIn", 2); ("midiOut", 3); ("out", 4);
                 ("meter", 5)];
     produced := [(3, (0, V_midiMessage 144)); (3, (7, V_midiMessage 128));
                  (5, (0, V_int32 11)); (5, (5, V_int32 12))];
     calls := [] |}.

(** The host keeps nothing; its unused-event callback refuses or accepts
    every event. *)
Definition refuse : HandleUnusedEvent unit := fun _ _ _ h => (false, h).
Definition accept : HandleUnusedEvent unit := fun _ _ _ h => (true, h).

Definition emptyWrapper : AudioMIDIWrapper unit :=
  {| wrapper_totalFramesRendered := 0; preRenderOperations := [];
     postRenderOperations := []; numInputChannelsExpected := 0;
     numOutputChannelsExpected := 0; maxBlockSize := 0 |}.

Definition build (processorMaxBlockSize : Z) (fn : HandleUnusedEvent unit)
  : option (AudioMIDIWrapper unit) :=
  buildRenderingPipeline processorMaxBlockSize None None (Some fn)
                         theEngine emptyWrapper.

(** The pipeline built for [theEngine] with blocks of up to [cap] frames. *)
Definition pipeline (cap : Z) (fn : HandleUnusedEvent unit)
  : AudioMIDIWrapper unit :=
  {| wrapper_totalFramesRendered := 0;
     preRenderOperations := [InterleavedInputOp unit 1 0 2 cap;
                             MIDIInputOp unit 2 (V_midiMessage 0)];
     postRenderOperations := [MIDIOutputOp unit 3; AudioOutputOp unit 4 0 1;
                              UnusedEventOp 5 fn "meter"];
     numInputChannelsExpected := 2;
     numOutputChannelsExpected := 1;
     maxBlockSize := cap |}.

(** The calls that drive the engine's clock and its events. *)
Definition timing (l : list EngineCall) : list EngineCall :=
  filter (fun c => match c with
                   | SetNextInputStreamFrames _ _ => false
                   | _ => true
                   end) l.

(** An engine like [theEngine] that has already run. *)
Definition usedEngine : Engine :=
  {| inputs := inputs theEngine; outputs := outputs theEngine;
     handles := handles theEngine; produced := [];
     calls := [Prepare 4; Advance] |}.

Definition world (midiOutSlots : list MIDIEvent) : World Engine unit :=
  {| performer := theEngine; host := tt;
     inputAudio := fun _ _ => 0; outputAudio := fun _ _ => 0;
     midiOut := midiOutSlots |}.

Definition block (numFrames : Z) : ChannelArrayView :=
  {| firstChannel := 0; numChannels := 2; firstFrame := 0;
     getNumFrames := numFrames |}.

Definition noteAt (frame : Z) : MIDIEvent :=
  {| frameIndex := frame; getPackedMIDIData := 9453568 |}.

Definition someContext : RenderContext :=
  {| totalFramesRendered := 1000; inputChannels := block 64;
     outputChannels := block 64; midiIn := []; frameOffset := 0;
     midiOutCount := 0; midiOutCapacity := 8 |}.

(** A sub-block at frame 4 of the host block with room for one more
    outbound event in a buffer of two. *)
Definition tightContext : RenderContext :=
  {| totalFramesRendered := 1000; inputChannels := block 4;
     outputChannels := block 4; midiIn := []; frameOffset := 4;
     midiOutCount := 1; midiOutCapacity := 2 |}.

(** An engine with a parameter input: an event endpoint the host is to
    control. *)
Definition gainParameter : EndpointDetails :=
  {| endpointID := "gain"; name := "gain"; endpointType := event;
     isParameterInput := true; isMIDIEventEndpoint := false;
     getNumAudioChannels := 0; getFrameType := T_float32;
     getSingleEventType := T_float32 |}.

Definition parameterEngine : Engine :=
  {| inputs := [gainParameter; audioIn];
     outputs := [audioOut];
     handles := [("gain", 6); ("in", 1); ("out", 4)];
     produced := [];
     calls := [] |}.

(** A change detector that never reports a change, and a provider that
    gives it for every parameter. *)
Definition unchanged : GetNewValueForParamIfChanged unit := fun h => (None, h).
Definition detectEvery
  : EndpointDetails -> option (GetNewValueForParamIfChanged unit) :=
  fun _ => Some unchanged.

(** A host that keeps the times its unused-event callback is given. *)
Definition logTime : HandleUnusedEvent (list Z) :=
  fun t _ _ times => (true, (times ++ [t])%list).

Definition timeWrapper : AudioMIDIWrapper (list Z) :=
  {| wrapper_totalFramesRendered := 0; preRenderOperations := [];
     postRenderOperations := []; numInputChannelsExpected := 0;
     numOutputChannelsExpected := 0; maxBlockSize := 0 |}.

Definition timeWorld : World Engine (list Z) :=
  {| performer := theEngine; host := [];
     inputAudio := fun _ _ => 0; outputAudio := fun _ _ => 0;
     midiOut := [] |}.

(** [theEngine] behind a log of its clock calls. *)
Definition clockedWorld : World (Clocked Engine) unit :=
  {| performer := {| inner := theEngine; clockLog := [] |}; host := tt;
     inputAudio := fun _ _ => 0; outputAudio := fun _ _ => 0;
     midiOut := [] |}.

End Demo.

(** * Properties *)

Unset Implicit Arguments.

(** ** Machine integers *)

Lemma u32_id z : is_u32 z -> u32 z = z.
Proof. unfold is_u32, u32; intros; apply Z.mod_small; lia. Qed.

Lemma u64_id z : is_u64 z -> u64 z = z.
Proof. unfold is_u64, u64; intros; apply Z.mod_small; lia. Qed.

Lemma u32_range z : is_u32 (u32 z).
Proof. unfold is_u32, u32; apply Z.mod_pos_bound; lia. Qed.

Lemma u64_range z : is_u64 (u64 z).
Proof. unfold is_u64, u64; apply Z.mod_pos_bound; lia. Qed.

(** ** Lists *)

Lemma In_firstn {A : Type} (x : A) n : forall l, In x (firstn n l) -> In x l.
Proof.
  induction n as [|n IH]; intros [|y l]; simpl; try contradiction.
  intros [-> | Hin]; [now left | right; apply IH, Hin].
Qed.

(** ** The inner loop *)

Lemma takeEvents_split evs off n :
  evs = fst (fst (takeEvents evs off n)) ++ snd (fst (takeEvents evs off n)).
Proof.
  induction evs as [|ev rest IH]; simpl; [reflexivity|].
  destruct (frameIndex ev >? off); simpl; [reflexivity|].
  now rewrite <- IH.
Qed.

Lemma takeEvents_batch evs off n :
  Forall (fun ev => frameIndex ev <= off) (fst (fst (takeEvents evs off n))).
Proof.
  induction evs as [|ev rest IH]; simpl; [constructor|].
  destruct (frameIndex ev >? off) eqn:E; simpl; [constructor|].
  constructor; [lia | exact IH].
Qed.

(** What is left starts with the first event later than [off], and that
    event caps [framesToDo]. *)
Lemma takeEvents_rest evs off n :
  match snd (fst (takeEvents evs off n)) with
  | [] => snd (takeEvents evs off n) = n
  | ev :: _ =>
      off < frameIndex ev /\
      snd (takeEvents evs off n) = Z.min n (u32 (frameIndex ev - off))
  end.
Proof.
  induction evs as [|ev rest IH]; simpl; [reflexivity|].
  destruct (frameIndex ev >? off) eqn:E; simpl; [split; [lia | reflexivity]|].
  exact IH.
Qed.

Lemma takeEvents_find evs off n :
  snd (takeEvents evs off n) =
  match find (later off) evs with
  | Some ev => Z.min n (u32 (frameIndex ev - off))
  | None => n
  end.
Proof.
  induction evs as [|ev rest IH]; simpl; [reflexivity|].
  unfold later at 1.
  rewrite Z.gtb_ltb. destruct (off <? frameIndex ev); simpl; [reflexivity|].
  exact IH.
Qed.

Lemma takeEvents_framesToDo evs off n :
  Forall wfEvent evs -> 0 <= off -> 1 <= n ->
  1 <= snd (takeEvents evs off n) <= n.
Proof.
  intros Hwf Hoff Hn.
  pose proof (takeEvents_rest evs off n) as Hr.
  pose proof (takeEvents_split evs off n) as Hs.
  destruct (snd (fst (takeEvents evs off n))) as [|ev rest] eqn:E; [lia|].
  destruct Hr as [Hlt ->].
  assert (Hin : In ev evs) by (rewrite Hs; apply in_or_app; right; left; reflexivity).
  rewrite Forall_forall in Hwf. specialize (Hwf _ Hin). unfold wfEvent, is_u32 in Hwf.
  rewrite u32_id by (unfold is_u32; lia). lia.
Qed.

(** ** The outer loop *)

Section Loop.
Context {St : Type}.
Variable C : Z.
Variable f : RenderContext -> St -> RenderContext * St.

(** Recording the contexts does not change what the loop computes. *)
Lemma blockLoop_traced fuel : forall this context rem s log,
  blockLoop C f fuel this context rem s =
  option_map (fun r => (fst (fst r), snd (fst r), fst (snd r)))
             (blockLoop C (traced f) fuel this context rem (s, log)).
Proof.
  induction fuel as [|fuel IH]; intros; simpl.
  - destruct (rem =? 0); reflexivity.
  - destruct (rem =? 0); [reflexivity|]. apply IH.
Qed.

Lemma iterateInBlocks_traced fuel this s :
  iterateInBlocks C f fuel this s =
  option_map (fun r => (fst r, fst (snd r)))
             (iterateInBlocks C (traced f) fuel this (s, [])).
Proof.
  unfold iterateInBlocks.
  rewrite (blockLoop_traced fuel this this _ s []).
  destruct (blockLoop C (traced f) fuel this this _ (s, [])) as [[[t c] sl]|];
    reflexivity.
Qed.

(** The loop runs to the end of the block when the cap is at least one
    frame, and splits the block by [schedule]. *)
Lemma blockLoop_schedule (B : Z) (base : ChannelArrayView) fuel :
  forall this context rem s log,
  1 <= C -> is_u32 B ->
  inputChannels this = base ->
  0 <= frameOffset this -> 0 <= rem -> frameOffset this + rem = B ->
  Forall wfEvent (midiIn this) ->
  (Z.to_nat rem <= fuel)%nat ->
  exists this' context' s' new,
    blockLoop C (traced f) fuel this context rem (s, log)
      = Some (this', context', (s', log ++ new)) /\
    schedule C B (frameOffset this) (midiIn this) (map (subBlockOf base) new) /\
    frameOffset this' = B /\ inputChannels this' = base.
Proof.
  induction fuel as [|fuel IH]; intros this context rem s log HC HB Hbase Hoff Hrem Hsum Hwf Hfuel.
  - assert (rem = 0) by lia. subst rem. simpl.
    exists this, context, s, []. rewrite app_nil_r.
    repeat split; auto. replace (frameOffset this) with B by lia. constructor. lia.
  - simpl. destruct (rem =? 0) eqn:E.
    + apply Z.eqb_eq in E. subst rem.
      exists this, context, s, []. rewrite app_nil_r.
      repeat split; auto. replace (frameOffset this) with B by lia. constructor. lia.
    + apply Z.eqb_neq in E.
      assert (Hmin : Z.min C rem = Z.min C (B - frameOffset this)) by (f_equal; lia).
      pose proof (takeEvents_framesToDo (midiIn this) (frameOffset this)
                    (Z.min C rem) Hwf Hoff ltac:(lia)) as Hn.
      pose proof (takeEvents_split (midiIn this) (frameOffset this) (Z.min C rem)) as Hsplit.
      set (taken := takeEvents (midiIn this) (frameOffset this) (Z.min C rem)) in *.
      unfold is_u32 in HB.
      assert (Hhi : u32 (frameOffset this + snd taken) = frameOffset this + snd taken)
        by (apply u32_id; unfold is_u32; lia).
      assert (Hlo : u32 (rem - snd taken) = rem - snd taken)
        by (apply u32_id; unfold is_u32; lia).
      cbn [set_midiIn set_frameOffset frameOffset midiIn inputChannels outputChannels].
      rewrite Hhi, Hlo.
      match goal with
      | |- exists _ _ _ _, blockLoop _ _ _ ?t ?c ?r (?s1, ?l1) = _ /\ _ =>
          destruct (IH t c r s1 l1) as (this' & context' & s' & new & Hrun & Hsch & Hend & Hb)
      end; auto; cbn [frameOffset midiIn inputChannels set_frameOffset set_midiIn]; try lia.
      * rewrite Hsplit in Hwf. apply Forall_app in Hwf. apply Hwf.
      * exists this', context', s'.
        eexists (_ :: new). split.
        { rewrite Hrun. cbn [traced fst snd]. rewrite <- app_assoc. reflexivity. }
        split; [|split; assumption].
        cbn [map]. cbn [frameOffset midiIn set_frameOffset set_midiIn] in Hsch.
        unfold subBlockOf at 1.
        cbn [set_channels set_midiIn inputChannels midiIn getFrameRange firstFrame getNumFrames].
        rewrite Hbase.
        replace (firstFrame base + frameOffset this - firstFrame base)
          with (frameOffset this) by lia.
        replace (frameOffset this + snd taken - frameOffset this)
          with (snd taken) by lia.
        subst taken. rewrite Hmin in *.
        apply schedule_block; [lia | exact Hsch].
Qed.

(** More fuel does not change the result of the loop. *)
Lemma blockLoop_more_fuel fuel : forall this context rem s r k,
  blockLoop C f fuel this context rem s = Some r ->
  blockLoop C f (fuel + k) this context rem s = Some r.
Proof.
  induction fuel as [|fuel IH]; intros this context rem s r k; simpl.
  - destruct (rem =? 0) eqn:E; [|discriminate].
    intros <-. destruct k; simpl; rewrite E; reflexivity.
  - destruct (rem =? 0); [auto|]. apply IH.
Qed.

(** A property of the local context that the callback keeps and the loop's
    own assignments do not disturb holds of the context at the end. *)
Lemma blockLoop_context (I : RenderContext -> Prop) :
  (forall rc s, I rc -> I (fst (f rc s))) ->
  (forall rc i o l, I rc -> I (set_channels i o (set_midiIn l rc))) ->
  (forall rc a b, I rc -> I (set_frameOffset a (set_totalFramesRendered b rc))) ->
  forall fuel this context rem s this' context' s',
  I context ->
  blockLoop C f fuel this context rem s = Some (this', context', s') ->
  I context'.
Proof.
  intros Hf Hin Hout.
  induction fuel as [|fuel IH]; intros this context rem s this' context' s' HI; simpl.
  - destruct (rem =? 0); [|discriminate]. intros [= <- <- <-]. exact HI.
  - destruct (rem =? 0); [intros [= <- <- <-]; exact HI|].
    apply IH. apply Hout, Hf, Hin, HI.
Qed.

(** A property of the local context and the state together that the
    callback keeps and the loop's own assignments do not disturb. *)
Lemma blockLoop_invariant (I : RenderContext -> St -> Prop) :
  (forall rc s, I rc s -> I (fst (f rc s)) (snd (f rc s))) ->
  (forall rc s i o l, I rc s -> I (set_channels i o (set_midiIn l rc)) s) ->
  (forall rc s a b, I rc s ->
                    I (set_frameOffset a (set_totalFramesRendered b rc)) s) ->
  forall fuel this context rem s this' context' s',
  I context s ->
  blockLoop C f fuel this context rem s = Some (this', context', s') ->
  I context' s'.
Proof.
  intros Hf Hin Hout.
  induction fuel as [|fuel IH]; intros this context rem s this' context' s' HI; simpl.
  - destruct (rem =? 0); [|discriminate]. intros [= <- <- <-]. exact HI.
  - destruct (rem =? 0); [intros [= <- <- <-]; exact HI|].
    apply IH. apply Hout, Hf, Hin, HI.
Qed.

(** With a callback that leaves the frame fields alone, the context of each
    sub-block carries the start of the sub-block in [frameOffset] and the
    frames rendered before it in [totalFramesRendered]. *)
Lemma blockLoop_timebase (B T0 : Z) (base : ChannelArrayView) fuel :
  forall this context rem s log this' context' s' log',
  (forall rc s, sameFrame rc (fst (f rc s))) ->
  1 <= C -> is_u32 B ->
  inputChannels this = base ->
  0 <= frameOffset this -> 0 <= rem -> frameOffset this + rem = B ->
  Forall wfEvent (midiIn this) ->
  frameOffset context = frameOffset this ->
  totalFramesRendered context = u64 (T0 + frameOffset this) ->
  blockLoop C (traced f) fuel this context rem (s, log)
    = Some (this', context', (s', log')) ->
  Forall (timeBase T0 base) log -> Forall (timeBase T0 base) log'.
Proof.
  induction fuel as [|fuel IH];
    intros this context rem s log this' context' s' log'
           Hf HC HB Hbase Hoff Hrem Hsum Hwf Hfo Htot; simpl.
  - destruct (rem =? 0); [|discriminate]. intros [= <- <- <- <-]. auto.
  - destruct (rem =? 0) eqn:E; [intros [= <- <- <- <-]; auto|].
    apply Z.eqb_neq in E.
    pose proof (takeEvents_framesToDo (midiIn this) (frameOffset this)
                  (Z.min C rem) Hwf Hoff ltac:(lia)) as Hn.
    pose proof (takeEvents_split (midiIn this) (frameOffset this) (Z.min C rem)) as Hsplit.
    set (taken := takeEvents (midiIn this) (frameOffset this) (Z.min C rem)) in *.
    unfold is_u32 in HB.
    assert (Hhi : u32 (frameOffset this + snd taken) = frameOffset this + snd taken)
      by (apply u32_id; unfold is_u32; lia).
    assert (Hlo : u32 (rem - snd taken) = rem - snd taken)
      by (apply u32_id; unfold is_u32; lia).
    cbn [set_midiIn set_frameOffset frameOffset midiIn inputChannels outputChannels].
    rewrite Hhi, Hlo.
    cbn [traced fst snd].
    match goal with
    | |- context [f ?c1 s] => set (context1 := c1)
    end.
    destruct (Hf context1 s) as (F1 & _ & _ & _ & F5 & _).
    intros Hrun Hlog.
    eapply IH in Hrun; try eassumption;
      cbn [frameOffset midiIn inputChannels set_frameOffset set_midiIn
           set_totalFramesRendered totalFramesRendered]; try lia.
    + rewrite Hsplit in Hwf. apply Forall_app in Hwf. apply Hwf.
    + rewrite F5. subst context1.
      cbn [set_channels set_midiIn frameOffset]. rewrite Hfo. exact Hhi.
    + rewrite F1. subst context1.
      cbn [set_channels set_midiIn totalFramesRendered]. rewrite Htot.
      unfold u64. rewrite Zplus_mod_idemp_l. f_equal. lia.
    + apply Forall_app. split; [exact Hlog|]. constructor; [|constructor].
      unfold timeBase. subst context1.
      cbn [set_channels set_midiIn frameOffset totalFramesRendered inputChannels
           getFrameRange firstFrame].
      rewrite Hbase, Hfo, Htot. split; [lia | reflexivity].
Qed.
End Loop.

(** With a cap of zero frames the loop makes no progress: no amount of
    fuel lets it return on a block that is not empty. *)
Lemma blockLoop_zero_cap {St : Type} (f : RenderContext -> St -> RenderContext * St)
    fuel : forall this context rem s,
  0 < rem -> is_u32 rem ->
  blockLoop 0 f fuel this context rem s = None.
Proof.
  induction fuel as [|fuel IH]; intros this context rem s Hrem Hu; simpl.
  - destruct (rem =? 0) eqn:E; [apply Z.eqb_eq in E; lia | reflexivity].
  - destruct (rem =? 0) eqn:E; [apply Z.eqb_eq in E; lia|].
    rewrite takeEvents_find. replace (Z.min 0 rem) with 0 by lia.
    assert (Hz : match find (later (frameOffset this)) (midiIn this) with
                 | Some ev => Z.min 0 (u32 (frameIndex ev - frameOffset this))
                 | None => 0
                 end = 0).
    { destruct (find _ _); [|reflexivity].
      pose proof (u32_range (frameIndex m - frameOffset this)) as Hr.
      unfold is_u32 in Hr. lia. }
    rewrite Hz. rewrite Z.sub_0_r. rewrite (u32_id rem Hu). apply IH; assumption.
Qed.

(** ** Facts about a schedule *)

Lemma schedule_head C B off evs b blocks :
  schedule C B off evs (b :: blocks) -> blockStart b = off /\ off < B.
Proof. inversion 1; subst; simpl; auto. Qed.

(** The frames of the sub-blocks add up to the frames left, and each
    sub-block has between one and [C] frames inside the block. *)
Lemma schedule_frames C B off evs blocks :
  1 <= C -> 0 <= off ->
  Forall wfEvent evs ->
  schedule C B off evs blocks ->
  sumFrames blocks = B - off /\
  Forall (fun b => 1 <= framesToDo b <= C /\
                   off <= blockStart b /\ blockStart b + framesToDo b <= B)
         blocks.
Proof.
  intros HC Hoff Hwf Hs. induction Hs as [evs | off evs blocks Hlt Hs IH].
  - simpl. split; [lia | constructor].
  - pose proof (takeEvents_framesToDo evs off (Z.min C (B - off)) Hwf Hoff ltac:(lia)) as Hn.
    pose proof (takeEvents_split evs off (Z.min C (B - off))) as Hsplit.
    destruct IH as [IHsum IHall]; [lia | |].
    { rewrite Hsplit in Hwf. apply Forall_app in Hwf. apply Hwf. }
    split.
    + simpl. rewrite IHsum. lia.
    + constructor; [simpl; lia |].
      eapply Forall_impl; [|exact IHall]. simpl. intros b Hb. lia.
Qed.

(** Every batch holds events at or before the start of its sub-block, every
    sub-block starts before the end of the block, and the batches, in
    order, are an initial segment of the pending events. *)
Lemma schedule_batches C B off evs blocks :
  schedule C B off evs blocks ->
  Forall (fun b => blockStart b < B /\
                   Forall (fun ev => frameIndex ev <= blockStart b) (blockEvents b))
         blocks /\
  exists rest, evs = List.concat (map blockEvents blocks) ++ rest.
Proof.
  induction 1 as [evs | off evs blocks Hlt Hs [IHall [rest IHrest]]].
  - split; [constructor | exists evs; reflexivity].
  - split.
    + constructor; [|exact IHall]. simpl. split; [lia | apply takeEvents_batch].
    + exists rest. simpl. rewrite <- app_assoc, <- IHrest. apply takeEvents_split.
Qed.

Lemma find_app_none {A} (p : A -> bool) l1 l2 :
  Forall (fun x => p x = false) l1 -> find p (l1 ++ l2) = find p l2.
Proof.
  induction 1 as [|x l1 Hx _ IH]; simpl; [reflexivity|]. now rewrite Hx.
Qed.

(** The length of a sub-block is the cap, the rest of the block, or the
    distance to the first event later than its start, whichever is least. *)
Lemma schedule_cap C B off evs blocks :
  1 <= C ->
  schedule C B off evs blocks ->
  forall consumed,
  0 <= off -> Forall wfEvent evs ->
  Forall (fun ev => frameIndex ev <= off) consumed ->
  Forall (fun b => framesToDo b = capFormula C B (consumed ++ evs) b) blocks.
Proof.
  intros HC.
  induction 1 as [evs | off evs blocks Hlt Hs IH]; intros consumed Hoff Hwf Hc;
    [constructor|].
  pose proof (takeEvents_framesToDo evs off (Z.min C (B - off)) Hwf Hoff ltac:(lia)) as Hn.
  pose proof (takeEvents_split evs off (Z.min C (B - off))) as Hsplit.
  pose proof (takeEvents_batch evs off (Z.min C (B - off))) as Hbatch.
  constructor.
  - unfold capFormula. cbn [blockStart framesToDo].
    rewrite find_app_none
      by (eapply Forall_impl; [|exact Hc]; unfold later; simpl; intros; lia).
    rewrite takeEvents_find.
    destruct (find (later off) evs) as [ev|] eqn:E; [|reflexivity].
    apply find_some in E. destruct E as [Hin Hl].
    rewrite Forall_forall in Hwf. specialize (Hwf _ Hin).
    unfold later in Hl. unfold wfEvent, is_u32 in Hwf.
    rewrite u32_id by (unfold is_u32; lia). reflexivity.
  - replace (consumed ++ evs)
      with ((consumed ++ fst (fst (takeEvents evs off (Z.min C (B - off)))))
            ++ snd (fst (takeEvents evs off (Z.min C (B - off)))))
      by (rewrite <- app_assoc, <- Hsplit; reflexivity).
    apply IH; [lia | |].
    + rewrite Hsplit in Hwf. apply Forall_app in Hwf. apply Hwf.
    + apply Forall_app. split; eapply Forall_impl; try eassumption;
        simpl; intros; lia.
Qed.

Lemma schedule_inv C B off evs blocks :
  schedule C B off evs blocks ->
  (off = B /\ blocks = []) \/
  (off < B /\
   exists rest,
     blocks = {| blockStart := off;
                 framesToDo := snd (takeEvents evs off (Z.min C (B - off)));
                 blockEvents := fst (fst (takeEvents evs off (Z.min C (B - off)))) |}
              :: rest /\
     schedule C B (off + snd (takeEvents evs off (Z.min C (B - off))))
              (snd (fst (takeEvents evs off (Z.min C (B - off))))) rest).
Proof.
  intros Hs. inversion Hs; subst; [left; auto|].
  right. split; [assumption|]. eexists. split; [reflexivity | assumption].
Qed.

(** ** Time-sorted events *)

Lemma timeSorted_app_r l1 l2 : timeSorted (l1 ++ l2) -> timeSorted l2.
Proof.
  unfold timeSorted. induction l1 as [|a l1 IH]; simpl; [auto|].
  intros Hs. apply Sorted_inv in Hs. apply IH, Hs.
Qed.

Lemma timeSorted_head a l :
  timeSorted (a :: l) -> Forall (fun b => frameIndex a <= frameIndex b) l.
Proof.
  unfold timeSorted. intros Hs.
  apply Sorted_StronglySorted in Hs; [|intros x y z; lia].
  apply StronglySorted_inv in Hs. apply Hs.
Qed.

Lemma filter_all {A} (p : A -> bool) l :
  Forall (fun x => p x = true) l -> filter p l = l.
Proof. induction 1 as [|x l Hx _ IH]; simpl; [|rewrite Hx, IH]; reflexivity. Qed.

Lemma filter_none {A} (p : A -> bool) l :
  Forall (fun x => p x = false) l -> filter p l = [].
Proof. induction 1 as [|x l Hx _ IH]; simpl; [|rewrite Hx, IH]; reflexivity. Qed.

Lemma takeEvents_pending evs off n :
  pendingFrom off evs -> 0 <= off -> 1 <= n ->
  Forall (fun ev => frameIndex ev = off) (fst (fst (takeEvents evs off n))) /\
  pendingFrom (off + snd (takeEvents evs off n)) (snd (fst (takeEvents evs off n))).
Proof.
  intros (Hs & Hge & Hwf) Hoff Hn.
  pose proof (takeEvents_split evs off n) as Hsplit.
  pose proof (takeEvents_batch evs off n) as Hbatch.
  pose proof (takeEvents_rest evs off n) as Hrest.
  destruct (takeEvents evs off n) as [[batch rest] k]. cbn [fst snd] in *.
  rewrite Hsplit in Hs, Hge, Hwf.
  apply Forall_app in Hge. apply Forall_app in Hwf.
  destruct Hge as [Hge1 Hge2]. destruct Hwf as [Hwf1 Hwf2].
  split.
  - rewrite Forall_forall in *. intros ev Hin.
    specialize (Hbatch _ Hin). specialize (Hge1 _ Hin). simpl in *. lia.
  - apply timeSorted_app_r in Hs.
    split; [exact Hs|]. split; [|exact Hwf2].
    destruct rest as [|ev rest]; [constructor|].
    destruct Hrest as [Hlt Hto].
    pose proof (timeSorted_head _ _ Hs) as Hhd.
    inversion Hwf2 as [|? ? Hev _]; subst. unfold wfEvent, is_u32 in Hev.
    rewrite u32_id by (unfold is_u32; lia).
    constructor; [lia|].
    eapply Forall_impl; [|exact Hhd]. simpl. intros; lia.
Qed.

Lemma Sorted_weaken {A} (R R' : A -> A -> Prop) l :
  (forall a b, R a b -> R' a b) -> Sorted R l -> Sorted R' l.
Proof.
  intros Himp. induction 1 as [|a l Hs IH Hhd]; constructor; auto.
  destruct Hhd; constructor; auto.
Qed.

Lemma Sorted_adjacent {A} (R : A -> A -> Prop) l1 : forall l a b l2,
  Sorted R l -> l = l1 ++ a :: b :: l2 -> R a b.
Proof.
  induction l1 as [|x l1 IH]; intros l a b l2 Hs ->; simpl in Hs.
  - apply Sorted_inv in Hs. destruct Hs as [_ Hhd]. now inversion Hhd.
  - apply Sorted_inv in Hs. destruct Hs as [Hs _]. eapply IH; eauto.
Qed.

Lemma schedule_sorted C B off evs blocks :
  1 <= C -> 0 <= off ->
  schedule C B off evs blocks ->
  pendingFrom off evs ->
  Forall (fun b => Forall (fun ev => frameIndex ev = blockStart b) (blockEvents b))
         blocks /\
  List.concat (map blockEvents blocks) = filter (fun ev => frameIndex ev <? B) evs /\
  Sorted (meets C evs) blocks.
Proof.
  intros HC Hoff Hs. induction Hs as [evs | off evs blocks Hlt Hs IH]; intros Hp.
  - split; [constructor|]. split; [|constructor].
    simpl. symmetry. apply filter_none.
    destruct Hp as (_ & Hge & _). eapply Forall_impl; [|exact Hge].
    simpl. intros ev Hev. apply Z.ltb_ge. lia.
  - pose proof (takeEvents_pending evs off (Z.min C (B - off)) Hp Hoff ltac:(lia))
      as [Hbatch Hp'].
    pose proof (takeEvents_split evs off (Z.min C (B - off))) as Hsplit.
    pose proof (takeEvents_rest evs off (Z.min C (B - off))) as Hrest.
    assert (Hn : 1 <= snd (takeEvents evs off (Z.min C (B - off)))).
    { apply takeEvents_framesToDo; [apply Hp | lia | lia]. }
    destruct IH as (IH1 & IH2 & IH3); [lia | exact Hp' |].
    set (t := takeEvents evs off (Z.min C (B - off))) in *.
    split; [constructor; [exact Hbatch | exact IH1]|]. split.
    + simpl. rewrite IH2.
      replace (filter (fun ev => frameIndex ev <? B) evs)
        with (filter (fun ev => frameIndex ev <? B) (fst (fst t) ++ snd (fst t)))
        by (now rewrite <- Hsplit).
      rewrite filter_app. f_equal. symmetry. apply filter_all.
      eapply Forall_impl; [|exact Hbatch]. simpl. intros ev ->. apply Z.ltb_lt. lia.
    + constructor.
      * eapply Sorted_weaken; [|exact IH3].
        intros a b [H1 [H2 | (ev & Hin & Hev)]]; split; auto.
        right. exists ev. split; [|exact Hev].
        rewrite Hsplit. apply in_or_app. now right.
      * destruct blocks as [|b' blocks]; constructor.
        apply schedule_head in Hs. destruct Hs as [Hb' Hlt'].
        unfold meets. cbn [blockStart framesToDo]. split; [exact Hb'|].
        destruct (snd (fst t)) as [|ev rest] eqn:E.
        -- left. lia.
        -- destruct Hrest as [Hl Hto].
           destruct Hp' as (_ & _ & Hwf'). apply Forall_inv in Hwf'.
           rename Hwf' into Hev. unfold wfEvent, is_u32 in Hev.
           rewrite u32_id in Hto by (unfold is_u32; lia).
           destruct (Z.eq_dec (snd t) C) as [|Hne]; [left; assumption|].
           right. exists ev. split; [|lia].
           rewrite Hsplit. apply in_or_app. right. now left.
Qed.


(** ** Iterating over output events *)

Lemma iterateEvents_invariant {V St : Type} (I : St -> Prop)
    (fn : Z -> V -> St -> bool * St) :
  (forall off v s, I s -> I (snd (fn off v s))) ->
  forall evs s, I s -> I (iterateEvents evs fn s).
Proof.
  intros Hfn. induction evs as [|[off v] rest IH]; intros s Hs; simpl; [exact Hs|].
  destruct (fst (fn off v s)); [apply IH|]; apply Hfn, Hs.
Qed.

(** A handler that never refuses sees every event. *)
Lemma iterateEvents_all {V St : Type} (fn : Z -> V -> St -> bool * St) :
  (forall off v s, fst (fn off v s) = true) ->
  forall evs s,
  iterateEvents evs fn s = fold_left (fun s ev => snd (fn (fst ev) (snd ev) s)) evs s.
Proof.
  intros Hfn. induction evs as [|[off v] rest IH]; intros s; simpl; [reflexivity|].
  rewrite Hfn. apply IH.
Qed.

Section RenderFacts.
Context {choc : Choc} {P : Type} {engine : Performer P}.
Variable Host : Type.

Lemma sameFrame_refl rc : sameFrame rc rc.
Proof. repeat split. Qed.

Lemma sameFrame_trans a b c : sameFrame a b -> sameFrame b c -> sameFrame a c.
Proof.
  unfold sameFrame. intros (A1 & A2 & A3 & A4 & A5 & A6) (B1 & B2 & B3 & B4 & B5 & B6).
  repeat split; congruence.
Qed.

(** No operation touches a field of the context other than [midiOutCount]. *)
Lemma runOperation_sameFrame (op : Operation Host) st :
  sameFrame (fst st) (fst (runOperation op st)).
Proof.
  destruct op; simpl; try apply sameFrame_refl.
  - unfold iterateOutputEvents.
    apply (iterateEvents_invariant (fun s => sameFrame (fst st) (fst s)));
      [|apply sameFrame_refl].
    intros off v s Hs. unfold writeMIDIOut. cbn [snd].
    destruct (midiOutCount (fst s) <? midiOutCapacity (fst s)); [|exact Hs].
    eapply sameFrame_trans; [exact Hs|]. repeat split.
  - unfold iterateOutputEvents.
    apply (iterateEvents_invariant (fun s => sameFrame (fst st) (fst s)));
      [|apply sameFrame_refl].
    intros off v s Hs. exact Hs.
Qed.

Lemma runOperations_sameFrame (ops : list (Operation Host)) : forall st,
  sameFrame (fst st) (fst (runOperations ops st)).
Proof.
  unfold runOperations.
  induction ops as [|op ops IH]; intros st; simpl; [apply sameFrame_refl|].
  eapply sameFrame_trans; [apply runOperation_sameFrame | apply IH].
Qed.

Lemma renderBlock_sameFrame (w : AudioMIDIWrapper Host) rc world :
  sameFrame rc (fst (renderBlock w rc world)).
Proof.
  unfold renderBlock.
  eapply sameFrame_trans;
    [|apply (runOperations_sameFrame (postRenderOperations w))].
  cbn [fst].
  apply (runOperations_sameFrame (preRenderOperations w) (rc, _)).
Qed.

Lemma writeMIDIOut_withinCapacity off v (st : RenderContext * World P Host) :
  is_u32 (midiOutCapacity (fst st)) ->
  withinCapacity (fst st) -> withinCapacity (fst (snd (writeMIDIOut off v st))).
Proof.
  unfold withinCapacity, writeMIDIOut, is_u32. intros Hcap Hc. cbn [snd].
  destruct (midiOutCount (fst st) <? midiOutCapacity (fst st)) eqn:E; [|exact Hc].
  apply Z.ltb_lt in E. cbn [fst set_midiOutCount midiOutCount midiOutCapacity].
  rewrite u32_id by (unfold is_u32; lia). lia.
Qed.

Lemma runOperation_withinCapacity (op : Operation Host) st :
  is_u32 (midiOutCapacity (fst st)) ->
  withinCapacity (fst st) -> withinCapacity (fst (runOperation op st)).
Proof.
  intros Hcap Hc. destruct op; simpl; try exact Hc.
  - unfold iterateOutputEvents.
    apply (iterateEvents_invariant
             (fun s => midiOutCapacity (fst s) = midiOutCapacity (fst st) /\
                       withinCapacity (fst s))); [|split; [reflexivity | exact Hc]].
    intros off v s [Hk Hs]. split.
    + unfold writeMIDIOut. cbn [snd].
      destruct (midiOutCount (fst s) <? midiOutCapacity (fst s)); [|exact Hk].
      exact Hk.
    + apply writeMIDIOut_withinCapacity; [rewrite Hk; exact Hcap | exact Hs].
  - unfold iterateOutputEvents.
    apply (iterateEvents_invariant (fun s => withinCapacity (fst s))); [|exact Hc].
    intros off v s Hs. exact Hs.
Qed.

Lemma runOperations_withinCapacity (ops : list (Operation Host)) : forall st,
  is_u32 (midiOutCapacity (fst st)) ->
  withinCapacity (fst st) -> withinCapacity (fst (runOperations ops st)).
Proof.
  unfold runOperations.
  induction ops as [|op ops IH]; intros st Hcap Hc; simpl; [exact Hc|].
  apply IH.
  - destruct (runOperation_sameFrame op st) as (_ & _ & _ & _ & _ & ->). exact Hcap.
  - apply runOperation_withinCapacity; assumption.
Qed.

Lemma renderBlock_withinCapacity (w : AudioMIDIWrapper Host) rc world :
  is_u32 (midiOutCapacity rc) ->
  withinCapacity rc -> withinCapacity (fst (renderBlock w rc world)).
Proof.
  intros Hcap Hc. unfold renderBlock.
  apply runOperations_withinCapacity; cbn [fst].
  - destruct (runOperations_sameFrame (preRenderOperations w)
                (rc, set_performer
                       (prepare (getNumFrames (inputChannels rc)) (performer world))
                       world)) as (_ & _ & _ & _ & _ & ->). exact Hcap.
  - apply (runOperations_withinCapacity (preRenderOperations w) (rc, _)); assumption.
Qed.

End RenderFacts.

(** ** One render call *)

Section RenderTheory.
Context {choc : Choc} {P : Type} {engine : Performer P}.
Variable Host : Type.

Lemma render_guard (input output : ChannelArrayView) (w : AudioMIDIWrapper Host) :
  getNumFrames input = getNumFrames output -> 1 <= maxBlockSize w ->
  (getNumFrames input =? getNumFrames output) && negb (maxBlockSize w =? 0) = true.
Proof.
  intros -> HC. rewrite Z.eqb_refl. simpl.
  destruct (maxBlockSize w =? 0) eqn:E; [apply Z.eqb_eq in E; lia | reflexivity].
Qed.

(** A render call on a built pipeline returns, and its sub-blocks split the
    host block by [schedule]. *)
Lemma render_runs input output midiIn cap (w : AudioMIDIWrapper Host)
    (world : World P Host) :
  getNumFrames input = getNumFrames output ->
  1 <= maxBlockSize w ->
  is_u32 (getNumFrames input) ->
  Forall wfEvent midiIn ->
  exists world' n ctxs,
    render input output midiIn cap w world
      = Some (add_totalFramesRendered (getNumFrames input) w, world', n) /\
    renderContexts input output midiIn cap w world = Some ctxs /\
    schedule (maxBlockSize w) (getNumFrames input) 0 midiIn
             (map (subBlockOf input) ctxs).
Proof.
  intros Hio HC HB Hwf.
  unfold render, renderContexts, tracedContexts.
  rewrite (render_guard input output w Hio HC).
  rewrite iterateInBlocks_traced. unfold iterateInBlocks.
  set (this := initialContext w input output midiIn cap).
  destruct (blockLoop_schedule (maxBlockSize w) (renderBlock w)
              (getNumFrames input) input (Z.to_nat (getNumFrames input))
              this this (getNumFrames input) world [])
    as (this' & context' & s' & new & Hrun & Hsch & _ & _);
    try (subst this; simpl; unfold is_u32 in HB; auto; lia).
  replace (getNumFrames (inputChannels this)) with (getNumFrames input)
    by reflexivity.
  rewrite Hrun. cbn [option_map fst snd app].
  exists s', (midiOutCount context'), new. repeat split. exact Hsch.
Qed.

(** The count [render] reports is within the capacity it was given. *)
Lemma render_count input output midiIn cap (w w' : AudioMIDIWrapper Host)
    (world world' : World P Host) n :
  is_u32 cap ->
  render input output midiIn cap w world = Some (w', world', n) ->
  0 <= n <= cap.
Proof.
  intros Hcap. unfold render.
  destruct ((getNumFrames input =? getNumFrames output)
            && negb (maxBlockSize w =? 0)); [|discriminate].
  unfold iterateInBlocks.
  set (this := initialContext w input output midiIn cap).
  destruct (blockLoop (maxBlockSize w) (renderBlock w)
              (Z.to_nat (getNumFrames input)) this this
              (getNumFrames (inputChannels this)) world)
    as [[[this' context'] s']|] eqn:Hrun; [|discriminate].
  intros [= <- <- <-]. cbn [midiOutCount set_midiOutCount].
  pose proof (blockLoop_context (maxBlockSize w) (renderBlock w)
                (fun rc => midiOutCapacity rc = cap /\ withinCapacity rc)) as Hinv.
  destruct (Hinv) with (fuel := Z.to_nat (getNumFrames input)) (this := this)
    (context := this) (rem := getNumFrames (inputChannels this)) (s := world)
    (this' := this') (context' := context') (s' := s') as [Hk Hc]; auto.
  - intros rc s [Hk Hc]. split.
    + destruct (renderBlock_sameFrame Host w rc s) as (_ & _ & _ & _ & _ & ->).
      exact Hk.
    + apply renderBlock_withinCapacity; [rewrite Hk; exact Hcap | exact Hc].
  - subst this. unfold withinCapacity, is_u32 in *. simpl. split; [reflexivity | lia].
  - unfold withinCapacity in Hc. rewrite Hk in Hc. exact Hc.
Qed.

(** Each sub-block of a render call is stamped with the frames rendered
    before it. *)
Lemma render_timeBase input output midiIn cap (w : AudioMIDIWrapper Host)
    (world : World P Host) ctxs :
  1 <= maxBlockSize w ->
  is_u32 (getNumFrames input) ->
  is_u64 (wrapper_totalFramesRendered w) ->
  Forall wfEvent midiIn ->
  renderContexts input output midiIn cap w world = Some ctxs ->
  Forall (timeBase (wrapper_totalFramesRendered w) input) ctxs.
Proof.
  intros HC HB HT Hwf. unfold renderContexts, tracedContexts.
  destruct ((getNumFrames input =? getNumFrames output)
            && negb (maxBlockSize w =? 0)); [|discriminate].
  unfold iterateInBlocks.
  set (this := initialContext w input output midiIn cap).
  destruct (blockLoop (maxBlockSize w) (traced (renderBlock w))
              (Z.to_nat (getNumFrames input)) this this
              (getNumFrames (inputChannels this)) (world, []))
    as [[[this' context'] [s' log']]|] eqn:Hrun; [|discriminate].
  cbn [snd]. intros [= <-].
  eapply (blockLoop_timebase (maxBlockSize w) (renderBlock w)
            (getNumFrames input) (wrapper_totalFramesRendered w) input);
    try exact Hrun; auto;
    try (subst this; simpl; unfold is_u32 in HB; auto; lia).
  - intros rc s. apply renderBlock_sameFrame.
  - subst this. simpl. rewrite Z.add_0_r. symmetry. apply u64_id, HT.
Qed.

End RenderTheory.

(** ** The clock of the engine *)

Section ClockFacts.
Context {choc : Choc} {P : Type} {engine : Performer P}.
Variable Host : Type.
#[local] Existing Instance clockedPerformer.

(** No operation prepares or advances the engine. *)
Lemma runOperation_clock (op : Operation Host)
    (st : RenderContext * World (Clocked P) Host) :
  clockLog (performer (snd (runOperation op st)))
  = clockLog (performer (snd st)).
Proof.
  destruct op; cbn [runOperation fst snd]; try reflexivity.
  - unfold pollParameter. destruct (fst (getNewValueForParamIfChanged _));
      reflexivity.
  - unfold pollParameter. destruct (fst (getNewValueForParamIfChanged _));
      reflexivity.
  - unfold pollParameter. destruct (fst (getNewValueForParamIfChanged _));
      reflexivity.
  - cbn [set_performer performer].
    generalize (performer (snd st)).
    induction (midiIn (fst st)) as [|ev l IH]; intros p; simpl; [reflexivity|].
    rewrite IH. reflexivity.
  - unfold iterateOutputEvents.
    apply (iterateEvents_invariant
             (fun s : RenderContext * World (Clocked P) Host =>
                clockLog (performer (snd s)) = clockLog (performer (snd st))));
      [|reflexivity].
    intros off v s Hs. unfold writeMIDIOut. cbn [snd].
    destruct (midiOutCount (fst s) <? midiOutCapacity (fst s)); exact Hs.
  - unfold iterateOutputEvents.
    apply (iterateEvents_invariant
             (fun s : RenderContext * World (Clocked P) Host =>
                clockLog (performer (snd s)) = clockLog (performer (snd st))));
      [|reflexivity].
    intros off v s Hs. exact Hs.
Qed.

Lemma runOperations_clock (ops : list (Operation Host)) :
  forall st : RenderContext * World (Clocked P) Host,
  clockLog (performer (snd (runOperations ops st)))
  = clockLog (performer (snd st)).
Proof.
  unfold runOperations.
  induction ops as [|op ops IH]; intros st; simpl; [reflexivity|].
  rewrite IH. apply runOperation_clock.
Qed.

(** Rendering a sub-block prepares the engine for the frames of the
    sub-block and advances it once. *)
Lemma renderBlock_clock (w : AudioMIDIWrapper Host) rc
    (world : World (Clocked P) Host) :
  clockLog (performer (snd (renderBlock w rc world)))
  = clockLog (performer world)
    ++ [PrepareCall (getNumFrames (inputChannels rc)); AdvanceCall].
Proof.
  unfold renderBlock. rewrite runOperations_clock. cbn [snd set_performer performer].
  cbn [advance clockedPerformer logged clockLog].
  rewrite runOperations_clock. cbn [snd set_performer performer].
  cbn [prepare clockedPerformer logged clockLog].
  rewrite <- app_assoc. reflexivity.
Qed.

(** A render call prepares and advances the engine once for each of its
    sub-blocks, in order, and at no other time. *)
Lemma render_clock input output midiIn cap (w : AudioMIDIWrapper Host)
    (world : World (Clocked P) Host) :
  getNumFrames input = getNumFrames output ->
  1 <= maxBlockSize w ->
  is_u32 (getNumFrames input) ->
  Forall wfEvent midiIn ->
  exists world' n blocks,
    render input output midiIn cap w world
      = Some (add_totalFramesRendered (getNumFrames input) w, world', n) /\
    renderSubBlocks input output midiIn cap w world = Some blocks /\
    schedule (maxBlockSize w) (getNumFrames input) 0 midiIn blocks /\
    clockLog (performer world')
      = clockLog (performer world) ++ clockCalls blocks.
Proof.
  intros Hio HC HB Hwf.
  unfold render, renderSubBlocks, renderContexts, tracedContexts.
  rewrite (render_guard Host input output w Hio HC).
  rewrite iterateInBlocks_traced. unfold iterateInBlocks.
  set (this := initialContext w input output midiIn cap).
  destruct (blockLoop_schedule (maxBlockSize w) (renderBlock w)
              (getNumFrames input) input (Z.to_nat (getNumFrames input))
              this this (getNumFrames input) world [])
    as (this' & context' & s' & new & Hrun & Hsch & _ & _);
    try (subst this; simpl; unfold is_u32 in HB; auto; lia).
  replace (getNumFrames (inputChannels this)) with (getNumFrames input)
    by reflexivity.
  pose proof (blockLoop_invariant (maxBlockSize w) (traced (renderBlock w))
                (fun _ (sl : World (Clocked P) Host * list RenderContext) =>
                   clockLog (performer (fst sl))
                   = clockLog (performer world)
                     ++ clockCalls (map (subBlockOf input) (snd sl)))) as Hinv.
  specialize (Hinv) with (fuel := Z.to_nat (getNumFrames input)) (this := this)
    (context := this) (rem := getNumFrames input) (s := (world, []))
    (this' := this') (context' := context') (s' := (s', [] ++ new)).
  rewrite Hrun. cbn [option_map fst snd app].
  exists s', (midiOutCount context'), (map (subBlockOf input) new).
  split; [reflexivity|]. split; [reflexivity|]. split; [exact Hsch|].
  apply Hinv; auto.
  - intros rc [wd log] Hs. cbn [traced fst snd] in *.
    rewrite renderBlock_clock, Hs, map_app. unfold clockCalls.
    rewrite flat_map_app, <- app_assoc. reflexivity.
  - cbn [fst snd map]. unfold clockCalls. simpl. now rewrite app_nil_r.
Qed.

End ClockFacts.

(** ** Building the pipeline *)

Lemma forEach_app {A B : Type} (body : A -> B -> option B) l1 : forall l2 b,
  forEach body (l1 ++ l2) b =
  match forEach body l1 b with
  | Some b1 => forEach body l2 b1
  | None => None
  end.
Proof.
  induction l1 as [|x l1 IH]; intros l2 b; simpl; [reflexivity|].
  destruct (body x b); [apply IH | reflexivity].
Qed.

(** A property every step of a loop keeps holds at its end. *)
Lemma forEach_invariant {A B : Type} (body : A -> B -> option B) (I : B -> Prop) :
  (forall x b b', I b -> body x b = Some b' -> I b') ->
  forall l b b', I b -> forEach body l b = Some b' -> I b'.
Proof.
  intros Hstep. induction l as [|x l IH]; intros b b' Hb; simpl.
  - intros [= <-]. exact Hb.
  - destruct (body x b) as [b1|] eqn:E; [|discriminate].
    apply IH. eapply Hstep; eauto.
Qed.

Ltac break_build H :=
  repeat match type of H with
         | context [match ?x with _ => _ end] => destruct x eqn:?
         | Some _ = Some _ => injection H as <-
         | None = Some _ => discriminate H
         end.

Section BuildTheory.
Context {choc : Choc} {P : Type} {engine : Performer P}.
Variable Host : Type.
Variable perf : P.
Variable getNewParameterValueFn : GetNewParameterValueFn Host.
Variable getRampLengthForSparseStreamFn : GetRampLengthForSparseStreamFn.
Variable handleUnusedEventFn : HandleUnusedEventFn Host.

(** What one input endpoint changes: a pre-render operation at most, and
    the input channel counter when it is an audio endpoint. *)
Lemma buildInput_step e (w w' : AudioMIDIWrapper Host) :
  buildInput perf getNewParameterValueFn getRampLengthForSparseStreamFn e w
    = Some w' ->
  wrapper_totalFramesRendered w' = wrapper_totalFramesRendered w /\
  maxBlockSize w' = maxBlockSize w /\
  postRenderOperations w' = postRenderOperations w /\
  numOutputChannelsExpected w' = numOutputChannelsExpected w /\
  numInputChannelsExpected w' =
    (if isAudioInput e
     then u32 (numInputChannelsExpected w + getNumAudioChannels e)
     else numInputChannelsExpected w).
Proof.
  unfold buildInput, isAudioInput. intros Hb.
  break_build Hb; simpl; repeat split; reflexivity.
Qed.

Lemma buildOutput_step e (w w' : AudioMIDIWrapper Host) :
  buildOutput perf handleUnusedEventFn e w = Some w' ->
  wrapper_totalFramesRendered w' = wrapper_totalFramesRendered w /\
  maxBlockSize w' = maxBlockSize w /\
  preRenderOperations w' = preRenderOperations w /\
  numInputChannelsExpected w' = numInputChannelsExpected w /\
  numOutputChannelsExpected w' =
    (if isAudioOutput e
     then u32 (numOutputChannelsExpected w + getNumAudioChannels e)
     else numOutputChannelsExpected w).
Proof.
  unfold buildOutput, isAudioOutput. intros Hb.
  break_build Hb; simpl; repeat split; reflexivity.
Qed.

Lemma totalChannels_app sel (l1 l2 : list EndpointDetails) :
  totalChannels sel (l1 ++ l2) = totalChannels sel l1 + totalChannels sel l2.
Proof.
  unfold totalChannels. rewrite filter_app.
  induction (filter sel l1) as [|e l IH]; simpl; [reflexivity | rewrite IH; lia].
Qed.

Lemma totalChannels_nonneg sel (l : list EndpointDetails) :
  Forall wfEndpoint l -> 0 <= totalChannels sel l.
Proof.
  unfold totalChannels, wfEndpoint, is_u32.
  induction 1 as [|e l He _ IH]; simpl; [lia|].
  destruct (sel e); simpl; lia.
Qed.

Lemma u32_add_l a b : u32 (u32 a + b) = u32 (a + b).
Proof. unfold u32. apply Zplus_mod_idemp_l. Qed.

(** After the loop over the endpoints [l], the input counter has grown by
    the channels of the audio endpoints among them, modulo 2^32. *)
Lemma inputs_loop l : forall (w w' : AudioMIDIWrapper Host),
  is_u32 (numInputChannelsExpected w) ->
  forEach (buildInput perf getNewParameterValueFn getRampLengthForSparseStreamFn)
          l w = Some w' ->
  wrapper_totalFramesRendered w' = wrapper_totalFramesRendered w /\
  maxBlockSize w' = maxBlockSize w /\
  postRenderOperations w' = postRenderOperations w /\
  numOutputChannelsExpected w' = numOutputChannelsExpected w /\
  numInputChannelsExpected w' =
    u32 (numInputChannelsExpected w + totalChannels isAudioInput l).
Proof.
  induction l as [|e l IH]; intros w w' Hw; simpl.
  - intros [= <-]. repeat split. unfold totalChannels. simpl.
    rewrite Z.add_0_r. symmetry. apply u32_id, Hw.
  - destruct (buildInput _ _ _ e w) as [w1|] eqn:E; [|discriminate].
    intros Hrest. apply buildInput_step in E.
    destruct E as (E1 & E2 & E3 & E4 & E5).
    apply IH in Hrest.
    + destruct Hrest as (R1 & R2 & R3 & R4 & R5).
      repeat split; try congruence.
      rewrite R5, E5. unfold totalChannels. simpl.
      destruct (isAudioInput e); simpl; [|reflexivity].
      rewrite u32_add_l. f_equal. lia.
    + rewrite E5. destruct (isAudioInput e); [apply u32_range | exact Hw].
Qed.

Lemma outputs_loop l : forall (w w' : AudioMIDIWrapper Host),
  is_u32 (numOutputChannelsExpected w) ->
  forEach (buildOutput perf handleUnusedEventFn) l w = Some w' ->
  wrapper_totalFramesRendered w' = wrapper_totalFramesRendered w /\
  maxBlockSize w' = maxBlockSize w /\
  preRenderOperations w' = preRenderOperations w /\
  numInputChannelsExpected w' = numInputChannelsExpected w /\
  numOutputChannelsExpected w' =
    u32 (numOutputChannelsExpected w + totalChannels isAudioOutput l).
Proof.
  induction l as [|e l IH]; intros w w' Hw; simpl.
  - intros [= <-]. repeat split. unfold totalChannels. simpl.
    rewrite Z.add_0_r. symmetry. apply u32_id, Hw.
  - destruct (buildOutput _ _ e w) as [w1|] eqn:E; [|discriminate].
    intros Hrest. apply buildOutput_step in E.
    destruct E as (E1 & E2 & E3 & E4 & E5).
    apply IH in Hrest.
    + destruct Hrest as (R1 & R2 & R3 & R4 & R5).
      repeat split; try congruence.
      rewrite R5, E5. unfold totalChannels. simpl.
      destruct (isAudioOutput e); simpl; [|reflexivity].
      rewrite u32_add_l. f_equal. lia.
    + rewrite E5. destruct (isAudioOutput e); [apply u32_range | exact Hw].
Qed.

(** [buildRenderingPipeline], taken apart. *)
Lemma build_inv M (w w' : AudioMIDIWrapper Host) :
  buildRenderingPipeline M getNewParameterValueFn getRampLengthForSparseStreamFn
                         handleUnusedEventFn perf w = Some w' ->
  0 < M /\
  exists w1,
    forEach (buildInput perf getNewParameterValueFn getRampLengthForSparseStreamFn)
            (getInputEndpoints perf) (freshPipeline M w) = Some w1 /\
    forEach (buildOutput perf handleUnusedEventFn)
            (getOutputEndpoints perf) w1 = Some w'.
Proof.
  unfold buildRenderingPipeline, freshPipeline.
  destruct (M >? 0) eqn:E; [|discriminate].
  destruct (forEach (buildInput _ _ _) _ _) as [w1|]; [|discriminate].
  intros Hout. split; [lia|]. exists w1. split; [reflexivity | exact Hout].
Qed.

(** The shape of the pipeline depends on the endpoints and the callbacks,
    not on the engine that resolves the handles nor on anything else in the
    wrapper the step starts from. *)
Lemma buildInput_shape' (perf' : P) e (w1 w2 : AudioMIDIWrapper Host) :
  pipelineShape w1 = pipelineShape w2 ->
  sameShape
    (buildInput perf' getNewParameterValueFn getRampLengthForSparseStreamFn e w1)
    (buildInput perf getNewParameterValueFn getRampLengthForSparseStreamFn e w2).
Proof.
  unfold sameShape, pipelineShape, getExpectedNumInputChannels,
    getExpectedNumOutputChannels, buildInput.
  intros [= E1 E2 E3 E4].
  repeat match goal with
         | |- context [match ?x with _ => _ end] => destruct x eqn:?
         end;
    cbn [option_map push_pre add_inputChannels numInputChannelsExpected
         numOutputChannelsExpected preRenderOperations postRenderOperations];
    rewrite ?length_app; cbn [List.length]; congruence.
Qed.

Lemma buildOutput_shape' (perf' : P) e (w1 w2 : AudioMIDIWrapper Host) :
  pipelineShape w1 = pipelineShape w2 ->
  sameShape (buildOutput perf' handleUnusedEventFn e w1)
            (buildOutput perf handleUnusedEventFn e w2).
Proof.
  unfold sameShape, pipelineShape, getExpectedNumInputChannels,
    getExpectedNumOutputChannels, buildOutput.
  intros [= E1 E2 E3 E4].
  repeat match goal with
         | |- context [match ?x with _ => _ end] => destruct x eqn:?
         end;
    cbn [option_map push_post add_outputChannels numInputChannelsExpected
         numOutputChannelsExpected preRenderOperations postRenderOperations];
    rewrite ?length_app; cbn [List.length]; congruence.
Qed.

Lemma forEach_shape (body1 body2 : EndpointDetails -> AudioMIDIWrapper Host ->
                                   option (AudioMIDIWrapper Host)) :
  (forall e w1 w2, pipelineShape w1 = pipelineShape w2 ->
                   sameShape (body1 e w1) (body2 e w2)) ->
  forall l w1 w2,
  pipelineShape w1 = pipelineShape w2 ->
  sameShape (forEach body1 l w1) (forEach body2 l w2).
Proof.
  intros Hstep. induction l as [|e l IH]; intros w1 w2 Hw; simpl.
  - unfold sameShape. simpl. now rewrite Hw.
  - specialize (Hstep e w1 w2 Hw). unfold sameShape in Hstep.
    destruct (body1 e w1) as [a|], (body2 e w2) as [b|]; simpl in Hstep;
      try discriminate; [|reflexivity].
    apply IH. congruence.
Qed.

Lemma build_shape (perf' : P) M (w1 w2 : AudioMIDIWrapper Host) :
  getInputEndpoints perf' = getInputEndpoints perf ->
  getOutputEndpoints perf' = getOutputEndpoints perf ->
  sameShape
    (buildRenderingPipeline M getNewParameterValueFn
       getRampLengthForSparseStreamFn handleUnusedEventFn perf' w1)
    (buildRenderingPipeline M getNewParameterValueFn
       getRampLengthForSparseStreamFn handleUnusedEventFn perf w2).
Proof.
  intros Hi Ho. unfold buildRenderingPipeline. rewrite Hi, Ho.
  destruct (M >? 0); [|reflexivity].
  pose proof (forEach_shape
                (buildInput perf' getNewParameterValueFn
                            getRampLengthForSparseStreamFn)
                (buildInput perf getNewParameterValueFn
                            getRampLengthForSparseStreamFn)
                (fun e a b Hab => buildInput_shape' perf' e a b Hab)
                (getInputEndpoints perf)
                (set_maxBlockSize (Z.min 512 M) (reset w1))
                (set_maxBlockSize (Z.min 512 M) (reset w2)) eq_refl) as Hin.
  unfold sameShape in Hin.
  destruct (forEach (buildInput perf' _ _) _ _) as [a|],
           (forEach (buildInput perf _ _) _ _) as [b|];
    simpl in Hin; try discriminate; [|reflexivity].
  apply forEach_shape; [|congruence].
  intros e x y Hxy. apply buildOutput_shape'. exact Hxy.
Qed.

Lemma zero_is_u32 : is_u32 0.
Proof. unfold is_u32. lia. Qed.

End BuildTheory.

(** * The claims *)

(** ** Unused output events *)

Section UnusedEvents.
Context {choc : Choc} {P : Type} {engine : Performer P}.
Variable Host : Type.

Lemma forwardUnusedEvent_recording (fn : HandleUnusedEvent Host) endpointName
    rc off v (world : World P (Host * list Call)) :
  forwardUnusedEvent (recording fn) endpointName off v (rc, world)
  = (fst (fn (u64 (totalFramesRendered rc + off)) endpointName v (fst (host world))),
     (rc,
      set_host
        (snd (fn (u64 (totalFramesRendered rc + off)) endpointName v
                 (fst (host world))),
         snd (host world)
         ++ [{| callTime := u64 (totalFramesRendered rc + off);
                callName := endpointName; callEvent := v;
                callResult :=
                  fst (fn (u64 (totalFramesRendered rc + off)) endpointName v
                          (fst (host world))) |}])
        world)).
Proof. reflexivity. Qed.

Lemma forwardUnusedEvent_calls (fn : HandleUnusedEvent Host) endpointName rc :
  forall evs (world : World P (Host * list Call)),
  exists new,
    snd (host (snd (iterateEvents evs
                      (forwardUnusedEvent (recording fn) endpointName)
                      (rc, world))))
      = snd (host world) ++ new /\
    forwardedPrefix rc endpointName evs new.
Proof.
  induction evs as [|[off v] rest IH]; intros world.
  - exists []. simpl. rewrite app_nil_r. repeat split; auto.
  - cbn [iterateEvents]. rewrite forwardUnusedEvent_recording. cbn [fst snd].
    set (t := u64 (totalFramesRendered rc + off)).
    set (r := fn t endpointName v (fst (host world))).
    set (c := {| callTime := t; callName := endpointName; callEvent := v;
                 callResult := fst r |}).
    destruct (fst r) eqn:Er.
    + destruct (IH (set_host (snd r, snd (host world) ++ [c]) world))
        as (new & Hlog & Hmap & Hall & Hlast).
      exists (c :: new). split; [|split; [|split]].
      * rewrite Hlog. cbn [host set_host snd].
        rewrite <- app_assoc. reflexivity.
      * cbn [List.length firstn map]. rewrite Hmap. reflexivity.
      * destruct new as [|c' new']; [constructor|].
        change (removelast (c :: c' :: new')) with (c :: removelast (c' :: new')).
        constructor; [reflexivity | exact Hall].
      * destruct Hlast as [Hlen | (l & c' & -> & Hc')].
        -- left. simpl. now rewrite Hlen.
        -- right. exists (c :: l), c'. split; [reflexivity | exact Hc'].
    + exists [c]. cbn [host set_host snd]. split; [reflexivity|].
      split; [reflexivity|]. split; [constructor|].
      right. exists [], c. split; reflexivity.
Qed.

Lemma unused_events_forwarded_prefix
    (h : EndpointHandle) (fn : HandleUnusedEvent Host) (endpointName : string)
    (rc : RenderContext) (world : World P Host) :
  forwardedPrefix rc endpointName (outputEvents h (performer world))
                  (unusedEventCalls h fn endpointName rc world).
Proof.
  unfold unusedEventCalls.
  cbn [runOperation]. unfold iterateOutputEvents. cbn [performer snd].
  match goal with
  | |- context [iterateEvents ?evs _ (rc, ?w)] =>
      destruct (forwardUnusedEvent_calls fn endpointName rc evs w)
        as (new & Hlog & Hp)
  end.
  cbn [host snd app] in Hlog. rewrite Hlog. exact Hp.
Qed.

(** C1, as amended: the post-render operation of a plain event endpoint
    hands the events the engine produced to the unused-event callback, in
    order, each with the time [totalFramesRendered + frameOffset], and
    returns the callback's result to the engine's iteration: the events are
    forwarded up to and including the first one the callback answers
    [false]; when the callback answers [true] every time, every event is
    forwarded. *)
Theorem unused_events_forwarded_until_refused
    (h : EndpointHandle) (fn : HandleUnusedEvent Host) (endpointName : string)
    (rc : RenderContext) (world : World P Host) :
  forwardedPrefix rc endpointName (outputEvents h (performer world))
                  (unusedEventCalls h fn endpointName rc world) /\
  (Exists (fun c => callResult c = false)
          (unusedEventCalls h fn endpointName rc world) \/
   forwardsEveryEvent h fn endpointName rc world).
Proof.
  pose proof (unused_events_forwarded_prefix h fn endpointName rc world) as Hp.
  split; [exact Hp|]. unfold forwardsEveryEvent.
  destruct Hp as (Hmap & _ & [Hlen | (l & c & Heq & Hc)]).
  - right. rewrite Hmap, Hlen. now rewrite firstn_all.
  - left. apply Exists_exists. exists c. split; [|exact Hc].
    rewrite Heq. apply in_or_app. right. now left.
Qed.

End UnusedEvents.


(** ** The render loop *)

Section RenderClaims.
Context {choc : Choc} {P : Type} {engine : Performer P}.
Variable Host : Type.
Implicit Types (input output : ChannelArrayView) (midiIn : list MIDIEvent)
               (w : AudioMIDIWrapper Host) (world : World P Host).

(** C2: a host block of [B] frames rendered with a cap of [C >= 1] frames
    is split into sub-blocks whose lengths add up to [B] exactly; no
    sub-block is longer than [C]; the loop ends (the call returns) with no
    frame remaining, the last sub-block ending at [B].  The events need not
    even be sorted for this. *)
Theorem render_frames_sum_to_block input output midiIn cap w world :
  getNumFrames input = getNumFrames output ->
  1 <= maxBlockSize w ->
  is_u32 (getNumFrames input) ->
  Forall wfEvent midiIn ->
  exists w' world' n blocks,
    render input output midiIn cap w world = Some (w', world', n) /\
    renderSubBlocks input output midiIn cap w world = Some blocks /\
    sumFrames blocks = getNumFrames input /\
    Forall (fun b => 1 <= framesToDo b <= maxBlockSize w /\
                     0 <= blockStart b /\
                     blockStart b + framesToDo b <= getNumFrames input)
           blocks.
Proof.
  intros Hio HC HB Hwf.
  destruct (render_runs Host input output midiIn cap w world Hio HC HB Hwf)
    as (world' & n & ctxs & Hr & Hc & Hs).
  exists (add_totalFramesRendered (getNumFrames input) w), world', n,
         (map (subBlockOf input) ctxs).
  split; [exact Hr|]. split; [unfold renderSubBlocks; rewrite Hc; reflexivity|].
  destruct (schedule_frames _ _ _ _ _ HC (Z.le_refl 0) Hwf Hs) as [Hsum Hall].
  split; [lia | exact Hall].
Qed.

(** C3, as amended: with the inbound events sorted by frame index, two
    consecutive sub-blocks meet at the frame index of an event or after a
    full [C] frames; every event delivered is delivered in the sub-block
    that starts at its frame index; the length of a sub-block is the cap,
    the rest of the block or the distance to the first event later than its
    start, whichever is least; and the batches, in order, are the events
    whose frame index is below [B]. *)
Theorem sub_blocks_meet_at_events_or_cap input output midiIn cap w world :
  getNumFrames input = getNumFrames output ->
  1 <= maxBlockSize w ->
  is_u32 (getNumFrames input) ->
  Forall wfEvent midiIn ->
  timeSorted midiIn ->
  exists blocks,
    renderSubBlocks input output midiIn cap w world = Some blocks /\
    eachConsecutive (meets (maxBlockSize w) midiIn) blocks /\
    Forall (fun b =>
              Forall (fun ev => frameIndex ev = blockStart b) (blockEvents b) /\
              framesToDo b
                = capFormula (maxBlockSize w) (getNumFrames input) midiIn b)
           blocks /\
    List.concat (map blockEvents blocks)
      = filter (fun ev => frameIndex ev <? getNumFrames input) midiIn.
Proof.
  intros Hio HC HB Hwf Hsorted.
  destruct (render_runs Host input output midiIn cap w world Hio HC HB Hwf)
    as (world' & n & ctxs & _ & Hc & Hs).
  exists (map (subBlockOf input) ctxs).
  split; [unfold renderSubBlocks; rewrite Hc; reflexivity|].
  assert (Hp : pendingFrom 0 midiIn).
  { split; [exact Hsorted|]. split; [|exact Hwf].
    eapply Forall_impl; [|exact Hwf]. unfold wfEvent, is_u32. intros; lia. }
  destruct (schedule_sorted _ _ _ _ _ HC (Z.le_refl 0) Hs Hp) as (H1 & H2 & H3).
  pose proof (schedule_cap _ _ _ _ _ HC Hs [] (Z.le_refl 0) Hwf (Forall_nil _)) as H4.
  split; [|split; [|exact H2]].
  - intros l1 a b l2 Heq. eapply Sorted_adjacent; eauto.
  - rewrite Forall_forall in *. intros b Hb. split; [apply H1 | apply H4]; exact Hb.
Qed.

(** C4: the count of outbound events [render] reports is at most the
    capacity it was given, whatever the capacity; the writer stores an event
    and counts it only while the count is below the capacity, and otherwise
    drops it and lets the iteration go on; the call returns all the same. *)
Theorem midi_out_count_within_capacity input output midiIn cap w world :
  getNumFrames input = getNumFrames output ->
  1 <= maxBlockSize w ->
  is_u32 (getNumFrames input) ->
  Forall wfEvent midiIn ->
  is_u32 cap ->
  (exists w' world' n,
      render input output midiIn cap w world = Some (w', world', n) /\
      0 <= n <= cap) /\
  (forall off v (st : RenderContext * World P Host),
      midiOutCapacity (fst st) <= midiOutCount (fst st) ->
      writeMIDIOut off v st = (true, st)) /\
  (forall off v (st : RenderContext * World P Host),
      midiOutCount (fst st) < midiOutCapacity (fst st) ->
      fst (writeMIDIOut off v st) = true /\
      midiOutCount (fst (snd (writeMIDIOut off v st)))
        = u32 (midiOutCount (fst st) + 1) /\
      midiOut (snd (snd (writeMIDIOut off v st)))
        = store (Z.to_nat (midiOutCount (fst st)))
                (fromPackedMIDIData (u32 (frameOffset (fst st) + off))
                                    (getMidiBytes v))
                (midiOut (snd st))).
Proof.
  intros Hio HC HB Hwf Hcap. split; [|split].
  - destruct (render_runs Host input output midiIn cap w world Hio HC HB Hwf)
      as (world' & n & ctxs & Hr & _ & _).
    exists (add_totalFramesRendered (getNumFrames input) w), world', n.
    split; [exact Hr|]. eapply render_count; eauto.
  - intros off v st Hfull. unfold writeMIDIOut.
    destruct (midiOutCount (fst st) <? midiOutCapacity (fst st)) eqn:E;
      [apply Z.ltb_lt in E; lia | reflexivity].
  - intros off v st Hroom. unfold writeMIDIOut.
    apply Z.ltb_lt in Hroom. rewrite Hroom. repeat split.
Qed.

(** A block of 512 frames, a cap of 512 and one inbound event at frame
    100 give exactly two sub-blocks, frames 0..100 and 100..512 (100 and 412
    frames); the event is in the batch of the second. *)
Lemma event_at_100_splits_block
    (c1 n1 f1 c2 n2 f2 packed cap : Z) w world :
  renderSubBlocks
    {| firstChannel := c1; numChannels := n1; firstFrame := f1;
       getNumFrames := 512 |}
    {| firstChannel := c2; numChannels := n2; firstFrame := f2;
       getNumFrames := 512 |}
    [{| frameIndex := 100; getPackedMIDIData := packed |}] cap
    (set_maxBlockSize 512 w) world
  = Some [{| blockStart := 0; framesToDo := 100; blockEvents := [] |};
          {| blockStart := 100; framesToDo := 412;
             blockEvents := [{| frameIndex := 100;
                                getPackedMIDIData := packed |}] |}].
Proof.
  set (input := {| firstChannel := c1; numChannels := n1; firstFrame := f1;
                   getNumFrames := 512 |}).
  set (output := {| firstChannel := c2; numChannels := n2; firstFrame := f2;
                    getNumFrames := 512 |}).
  set (ev := {| frameIndex := 100; getPackedMIDIData := packed |}).
  destruct (render_runs Host input output [ev] cap (set_maxBlockSize 512 w) world)
    as (world' & n & ctxs & _ & Hc & Hs);
    try (simpl; unfold is_u32; lia); try reflexivity.
  { repeat constructor; unfold wfEvent, is_u32; simpl; lia. }
  unfold renderSubBlocks. rewrite Hc. cbn [option_map]. f_equal.
  cbn [maxBlockSize set_maxBlockSize getNumFrames input] in Hs.
  apply schedule_inv in Hs. destruct Hs as [[Hs _] | (_ & r1 & -> & Hs)]; [lia|].
  vm_compute in Hs.
  apply schedule_inv in Hs. destruct Hs as [[Hs _] | (_ & r2 & -> & Hs)]; [lia|].
  vm_compute in Hs.
  apply schedule_inv in Hs. destruct Hs as [[_ ->] | (Hs & _)]; [|lia].
  reflexivity.
Qed.

(** What the unused-event callback is told is an event the engine produced,
    at the time [totalFramesRendered + frameOffset]. *)
Lemma unusedEventCalls_time h (fn : HandleUnusedEvent Host) endpointName rc
    world c :
  In c (unusedEventCalls h fn endpointName rc world) ->
  exists off v,
    In (off, v) (outputEvents h (performer world)) /\
    callTime c = u64 (totalFramesRendered rc + off) /\
    callName c = endpointName /\ callEvent c = v.
Proof.
  intros Hin.
  destruct (unused_events_forwarded_prefix Host h fn endpointName rc world)
    as (Hmap & _ & _).
  apply (in_map callArgs) in Hin. rewrite Hmap in Hin.
  apply in_map_iff in Hin. destruct Hin as ([off v] & Heq & Hin).
  apply In_firstn in Hin. exists off, v. split; [exact Hin|].
  unfold stamped, callArgs in Heq. cbn [fst snd] in Heq.
  injection Heq as <- <- <-. repeat split.
Qed.

(** C9: the counter of frames rendered is part of the wrapper's state and
    goes from one render call to the next: a render call of [N] frames adds
    exactly [N] to it (inside the 64 bits of the counter) and so never
    lowers it; [reset], and with it every build, puts it back to zero; and
    it is the time base of the unused-event callback: in the context of
    each sub-block the callback is called on the events the engine
    produced, from the first one on and up to the first refusal, and the
    times it is given are, in order, the counter as it stood when the call
    began, plus the start of the sub-block in the host block, plus the
    offset of each event in the sub-block. *)
Theorem total_frames_counter input output midiIn cap w world w' world' n :
  is_u64 (wrapper_totalFramesRendered w) ->
  is_u32 (getNumFrames input) ->
  is_u32 (maxBlockSize w) ->
  Forall wfEvent midiIn ->
  wrapper_totalFramesRendered w + getNumFrames input < 2 ^ 64 ->
  render input output midiIn cap w world = Some (w', world', n) ->
  wrapper_totalFramesRendered w'
    = wrapper_totalFramesRendered w + getNumFrames input /\
  wrapper_totalFramesRendered w <= wrapper_totalFramesRendered w' /\
  (forall i o m c,
      totalFramesRendered (initialContext w' i o m c)
        = wrapper_totalFramesRendered w') /\
  wrapper_totalFramesRendered (reset w') = 0 /\
  (forall M g r u (perf : P) wb,
      buildRenderingPipeline M g r u perf w' = Some wb ->
      wrapper_totalFramesRendered wb = 0) /\
  exists ctxs,
    renderContexts input output midiIn cap w world = Some ctxs /\
    Forall (fun rc =>
              totalFramesRendered rc
                = u64 (wrapper_totalFramesRendered w
                       + blockStart (subBlockOf input rc)) /\
              (forall h (fn : HandleUnusedEvent Host) endpointName
                      (wd : World P Host) c,
                  In c (unusedEventCalls h fn endpointName rc wd) ->
                  exists off v,
                    In (off, v) (outputEvents h (performer wd)) /\
                    callTime c
                      = u64 (u64 (wrapper_totalFramesRendered w
                                  + blockStart (subBlockOf input rc)) + off)) /\
              (forall rc' h (fn : HandleUnusedEvent Host) endpointName
                      (wd : World P Host),
                  sameFrame rc rc' ->
                  forwardedPrefix rc' endpointName
                    (outputEvents h (performer wd))
                    (unusedEventCalls h fn endpointName rc' wd) /\
                  map callTime (unusedEventCalls h fn endpointName rc' wd)
                  = map (fun ev =>
                           u64 (u64 (wrapper_totalFramesRendered w
                                     + blockStart (subBlockOf input rc))
                                + fst ev))
                        (firstn (List.length
                                   (unusedEventCalls h fn endpointName rc' wd))
                                (outputEvents h (performer wd)))))
           ctxs.
Proof.
  intros HT HB HC Hwf Hno Hr.
  assert (Hguard : getNumFrames input = getNumFrames output /\ 1 <= maxBlockSize w).
  { unfold render in Hr.
    destruct (getNumFrames input =? getNumFrames output) eqn:E1;
      [|discriminate].
    destruct (maxBlockSize w =? 0) eqn:E2; [discriminate|].
    apply Z.eqb_eq in E1. apply Z.eqb_neq in E2. unfold is_u32 in HC. lia. }
  destruct Hguard as [Hio HC1].
  destruct (render_runs Host input output midiIn cap w world Hio HC1 HB Hwf)
    as (world1 & n1 & ctxs & Hr1 & Hc & Hs).
  rewrite Hr1 in Hr. injection Hr as <- <- <-.
  unfold is_u64, is_u32 in *.
  assert (Hadd : wrapper_totalFramesRendered
                   (add_totalFramesRendered (getNumFrames input) w)
                 = wrapper_totalFramesRendered w + getNumFrames input).
  { cbn [add_totalFramesRendered wrapper_totalFramesRendered].
    apply u64_id. unfold is_u64. lia. }
  split; [exact Hadd|]. split; [rewrite Hadd; lia|].
  split; [reflexivity|]. split; [reflexivity|]. split.
  - intros M g r u perf wb Hb. apply build_inv in Hb.
    destruct Hb as (_ & w1 & Hin & Hout).
    apply inputs_loop in Hin; [|apply zero_is_u32].
    apply outputs_loop in Hout;
      [|destruct Hin as (_ & _ & _ & -> & _); apply zero_is_u32].
    destruct Hin as (E1 & _). destruct Hout as (E2 & _).
    rewrite E2, E1. reflexivity.
  - exists ctxs. split; [exact Hc|].
    pose proof (render_timeBase Host input output midiIn cap w world ctxs
                  HC1 HB HT Hwf Hc) as Htb.
    eapply Forall_impl; [|exact Htb].
    intros rc [Hfo Htot]. cbn [subBlockOf blockStart]. rewrite <- Hfo.
    split; [exact Htot|]. split.
    + intros h fn endpointName wd c Hin.
      destruct (unusedEventCalls_time h fn endpointName rc wd c Hin)
        as (off & v & Hev & Ht & _).
      exists off, v. split; [exact Hev|]. rewrite Ht, Htot. reflexivity.
    + intros rc' h fn endpointName wd (Hsame & _).
      pose proof (unused_events_forwarded_prefix Host h fn endpointName rc' wd)
        as Hp.
      split; [exact Hp|]. destruct Hp as (Hmap & _).
      apply (f_equal (map (fun x : Z * string * Value => fst (fst x)))) in Hmap.
      rewrite !map_map in Hmap. cbn [callArgs stamped fst snd] in Hmap.
      rewrite Hsame, Htot in Hmap. exact Hmap.
Qed.

(** C10: an inbound event whose frame index is at or past the end of the
    block is never handed to the engine: a batch holds only events at or
    before the start of its sub-block, every sub-block starts before the end
    of the block, and what a call delivers is an initial segment of its own
    event list; the wrapper keeps none of the events, so none goes over to
    a later call. *)
Theorem late_events_never_delivered input output midiIn cap w world :
  getNumFrames input = getNumFrames output ->
  1 <= maxBlockSize w ->
  is_u32 (getNumFrames input) ->
  Forall wfEvent midiIn ->
  exists world' n blocks,
    render input output midiIn cap w world
      = Some (add_totalFramesRendered (getNumFrames input) w, world', n) /\
    renderSubBlocks input output midiIn cap w world = Some blocks /\
    Forall (fun b =>
              blockStart b < getNumFrames input /\
              Forall (fun ev => frameIndex ev <= blockStart b) (blockEvents b))
           blocks /\
    Forall (fun b =>
              Forall (fun ev => frameIndex ev < getNumFrames input)
                     (blockEvents b))
           blocks /\
    exists rest, midiIn = List.concat (map blockEvents blocks) ++ rest.
Proof.
  intros Hio HC HB Hwf.
  destruct (render_runs Host input output midiIn cap w world Hio HC HB Hwf)
    as (world' & n & ctxs & Hr & Hc & Hs).
  exists world', n, (map (subBlockOf input) ctxs).
  split; [exact Hr|]. split; [unfold renderSubBlocks; rewrite Hc; reflexivity|].
  destruct (schedule_batches _ _ _ _ _ Hs) as [Hall Hrest].
  split; [exact Hall|]. split; [|exact Hrest].
  eapply Forall_impl; [|exact Hall]. intros b [Hlt Hb].
  eapply Forall_impl; [|exact Hb]. simpl. intros; lia.
Qed.

End RenderClaims.

(** ** The pipeline builder *)

Section BuildClaims.
Context {choc : Choc} {P : Type} {engine : Performer P}.
Variable Host : Type.
Variable perf : P.
Variable getNewParameterValueFn : GetNewParameterValueFn Host.
Variable getRampLengthForSparseStreamFn : GetRampLengthForSparseStreamFn.
Variable handleUnusedEventFn : HandleUnusedEventFn Host.

(** C5: after a build with a requested maximum block size [M > 0], the
    maximum sub-block size of the pipeline is [min (M, 512)], and no
    sub-block of a render call on it is longer. *)
Theorem effective_max_block_size M (w w' : AudioMIDIWrapper Host) :
  0 < M ->
  buildRenderingPipeline M getNewParameterValueFn
    getRampLengthForSparseStreamFn handleUnusedEventFn perf w = Some w' ->
  maxBlockSize w' = Z.min M 512 /\
  forall input output midiIn cap (world : World P Host),
    getNumFrames input = getNumFrames output ->
    is_u32 (getNumFrames input) ->
    Forall wfEvent midiIn ->
    exists blocks,
      renderSubBlocks input output midiIn cap w' world = Some blocks /\
      Forall (fun b => framesToDo b <= Z.min M 512) blocks.
Proof.
  intros HM Hb. apply build_inv in Hb. destruct Hb as (_ & w1 & Hin & Hout).
  apply inputs_loop in Hin; [|apply zero_is_u32].
  apply outputs_loop in Hout;
    [|destruct Hin as (_ & _ & _ & -> & _); apply zero_is_u32].
  destruct Hin as (_ & E1 & _). destruct Hout as (_ & E2 & _).
  assert (Hmax : maxBlockSize w' = Z.min M 512).
  { rewrite E2, E1. unfold freshPipeline. simpl. lia. }
  split; [exact Hmax|].
  intros input output midiIn cap world Hio HB Hwf.
  assert (HC : 1 <= maxBlockSize w') by lia.
  destruct (render_runs Host input output midiIn cap w' world Hio HC HB Hwf)
    as (world' & n & ctxs & _ & Hc & Hs).
  exists (map (subBlockOf input) ctxs).
  split; [unfold renderSubBlocks; rewrite Hc; reflexivity|].
  destruct (schedule_frames _ _ _ _ _ HC (Z.le_refl 0) Hwf Hs) as [_ Hall].
  eapply Forall_impl; [|exact Hall]. simpl. intros b Hb. lia.
Qed.

(** C6: while the pipeline is built the two channel counters never go
    down: after any number of input (output) endpoints the input (output)
    counter is the sum of the channel counts of the audio endpoints among
    them; at the end of the build they are the sums over all the input and
    all the output audio endpoints, and these are what
    [getExpectedNumInputChannels] and [getExpectedNumOutputChannels]
    return.  (The sums are taken to fit the 32 bits of the counters.) *)
Theorem expected_channel_counts M (w w' : AudioMIDIWrapper Host) :
  Forall wfEndpoint (getInputEndpoints perf) ->
  Forall wfEndpoint (getOutputEndpoints perf) ->
  totalChannels isAudioInput (getInputEndpoints perf) < 2 ^ 32 ->
  totalChannels isAudioOutput (getOutputEndpoints perf) < 2 ^ 32 ->
  buildRenderingPipeline M getNewParameterValueFn
    getRampLengthForSparseStreamFn handleUnusedEventFn perf w = Some w' ->
  getExpectedNumInputChannels w'
    = totalChannels isAudioInput (getInputEndpoints perf) /\
  getExpectedNumOutputChannels w'
    = totalChannels isAudioOutput (getOutputEndpoints perf) /\
  (forall done next rest wa wb,
      getInputEndpoints perf = done ++ next ++ rest ->
      forEach (buildInput perf getNewParameterValueFn
                 getRampLengthForSparseStreamFn) done (freshPipeline M w) = Some wa ->
      forEach (buildInput perf getNewParameterValueFn
                 getRampLengthForSparseStreamFn) next wa = Some wb ->
      numInputChannelsExpected wa = totalChannels isAudioInput done /\
      numInputChannelsExpected wa <= numInputChannelsExpected wb /\
      numOutputChannelsExpected wa = 0 /\
      numOutputChannelsExpected wb = 0) /\
  (forall done next rest w1 wa wb,
      getOutputEndpoints perf = done ++ next ++ rest ->
      forEach (buildInput perf getNewParameterValueFn
                 getRampLengthForSparseStreamFn) (getInputEndpoints perf) (freshPipeline M w) = Some w1 ->
      forEach (buildOutput perf handleUnusedEventFn) done w1 = Some wa ->
      forEach (buildOutput perf handleUnusedEventFn) next wa = Some wb ->
      numOutputChannelsExpected wa = totalChannels isAudioOutput done /\
      numOutputChannelsExpected wa <= numOutputChannelsExpected wb /\
      numInputChannelsExpected wa = numInputChannelsExpected w' /\
      numInputChannelsExpected wb = numInputChannelsExpected w').
Proof.
  intros Hwi Hwo Hti Hto Hb.
  apply build_inv in Hb. destruct Hb as (_ & w1 & Hin & Hout).
  assert (Hz : is_u32 (numInputChannelsExpected (freshPipeline M w)))
    by apply zero_is_u32.
  pose proof (inputs_loop Host perf getNewParameterValueFn
                getRampLengthForSparseStreamFn _ _ _ Hz Hin)
    as (_ & _ & _ & I4 & I5).
  change (numInputChannelsExpected (freshPipeline M w)) with 0 in I5.
  change (numOutputChannelsExpected (freshPipeline M w)) with 0 in I4.
  pose proof (totalChannels_nonneg isAudioInput _ Hwi) as Hni.
  pose proof (totalChannels_nonneg isAudioOutput _ Hwo) as Hno.
  rewrite Z.add_0_l, u32_id in I5 by (unfold is_u32; lia).
  assert (Hw1 : is_u32 (numOutputChannelsExpected w1))
    by (rewrite I4; apply zero_is_u32).
  pose proof (outputs_loop Host perf handleUnusedEventFn _ _ _ Hw1 Hout)
    as (_ & _ & _ & O4 & O5).
  rewrite I4, Z.add_0_l, u32_id in O5 by (unfold is_u32; lia).
  unfold getExpectedNumInputChannels, getExpectedNumOutputChannels.
  split; [congruence|]. split; [exact O5|]. split.
  - intros done next rest wa wb Hsplit Ha Hb.
    rewrite Hsplit in Hwi, Hti. rewrite !totalChannels_app in Hti.
    apply Forall_app in Hwi. destruct Hwi as [Hw_done Hwi].
    apply Forall_app in Hwi. destruct Hwi as [Hw_next Hw_rest].
    pose proof (totalChannels_nonneg isAudioInput _ Hw_done).
    pose proof (totalChannels_nonneg isAudioInput _ Hw_next).
    pose proof (totalChannels_nonneg isAudioInput _ Hw_rest).
    pose proof (inputs_loop Host perf getNewParameterValueFn
                  getRampLengthForSparseStreamFn _ _ _ Hz Ha)
      as (_ & _ & _ & A4 & A5).
    change (numInputChannelsExpected (freshPipeline M w)) with 0 in A5.
    change (numOutputChannelsExpected (freshPipeline M w)) with 0 in A4.
    rewrite Z.add_0_l, u32_id in A5 by (unfold is_u32; lia).
    assert (Hwa : is_u32 (numInputChannelsExpected wa))
      by (rewrite A5; unfold is_u32; lia).
    pose proof (inputs_loop Host perf getNewParameterValueFn
                  getRampLengthForSparseStreamFn _ _ _ Hwa Hb)
      as (_ & _ & _ & B4 & B5).
    rewrite A5, u32_id in B5 by (unfold is_u32; lia).
    repeat split; try congruence. lia.
  - intros done next rest w1' wa wb Hsplit H1 Ha Hb.
    rewrite Hin in H1. injection H1 as <-.
    rewrite Hsplit in Hwo, Hto. rewrite !totalChannels_app in Hto.
    apply Forall_app in Hwo. destruct Hwo as [Hw_done Hwo].
    apply Forall_app in Hwo. destruct Hwo as [Hw_next Hw_rest].
    pose proof (totalChannels_nonneg isAudioOutput _ Hw_done).
    pose proof (totalChannels_nonneg isAudioOutput _ Hw_next).
    pose proof (totalChannels_nonneg isAudioOutput _ Hw_rest).
    pose proof (outputs_loop Host perf handleUnusedEventFn _ _ _ Hw1 Ha)
      as (_ & _ & _ & A4 & A5).
    rewrite I4, Z.add_0_l, u32_id in A5 by (unfold is_u32; lia).
    assert (Hwa : is_u32 (numOutputChannelsExpected wa))
      by (rewrite A5; unfold is_u32; lia).
    pose proof (outputs_loop Host perf handleUnusedEventFn _ _ _ Hwa Hb)
      as (_ & _ & _ & B4 & B5).
    rewrite A5, u32_id in B5 by (unfold is_u32; lia).
    repeat split; try congruence. lia.
Qed.

(** C7: a build starts from [reset], so its result does not depend on the
    wrapper it starts from: building again on the pipeline just built, with
    the same engine and the same arguments, gives the same pipeline, and in
    particular the same expected channel counts and the same numbers of
    pre-render and post-render operations; these four numbers are the same
    for any engine with the same input and output endpoints. *)
Theorem build_idempotent M (w : AudioMIDIWrapper Host) :
  (forall w2,
      buildRenderingPipeline M getNewParameterValueFn
        getRampLengthForSparseStreamFn handleUnusedEventFn perf w2
      = buildRenderingPipeline M getNewParameterValueFn
          getRampLengthForSparseStreamFn handleUnusedEventFn perf w) /\
  match buildRenderingPipeline M getNewParameterValueFn
          getRampLengthForSparseStreamFn handleUnusedEventFn perf w with
  | Some w1 =>
      buildRenderingPipeline M getNewParameterValueFn
        getRampLengthForSparseStreamFn handleUnusedEventFn perf w1 = Some w1 /\
      option_map (@pipelineShape choc Host)
        (buildRenderingPipeline M getNewParameterValueFn
           getRampLengthForSparseStreamFn handleUnusedEventFn perf w1)
      = Some (pipelineShape w1)
  | None => True
  end /\
  (forall (perf' : P) w2,
      getInputEndpoints perf' = getInputEndpoints perf ->
      getOutputEndpoints perf' = getOutputEndpoints perf ->
      sameShape
        (buildRenderingPipeline M getNewParameterValueFn
           getRampLengthForSparseStreamFn handleUnusedEventFn perf' w2)
        (buildRenderingPipeline M getNewParameterValueFn
           getRampLengthForSparseStreamFn handleUnusedEventFn perf w)).
Proof.
  assert (Hany : forall w2,
             buildRenderingPipeline M getNewParameterValueFn
               getRampLengthForSparseStreamFn handleUnusedEventFn perf w2
             = buildRenderingPipeline M getNewParameterValueFn
                 getRampLengthForSparseStreamFn handleUnusedEventFn perf w)
    by reflexivity.
  split; [exact Hany|]. split.
  - destruct (buildRenderingPipeline M getNewParameterValueFn
                getRampLengthForSparseStreamFn handleUnusedEventFn perf w)
      as [w1|] eqn:E; [|exact I].
    rewrite (Hany w1). split; reflexivity.
  - intros perf' w2 Hi Ho. apply build_shape; assumption.
Qed.

End BuildClaims.

(** ** The calls to the engine *)

Section EngineCalls.
Context {choc : Choc} {P : Type} {engine : Performer P}.
Variable Host : Type.
#[local] Existing Instance clockedPerformer.

(** C8: a render call over a block of 512 frames with a cap of 512 and one
    inbound event at frame 100 makes exactly two sub-blocks, frames 0..100
    and 100..512, with the event in the batch of the second; and, on any
    engine whose [prepare] and [advance] calls are logged and with any
    pipeline, it makes exactly two engine advance calls, the first after
    preparing 100 frames and the second after preparing 412. *)
Theorem event_at_100_two_advances
    (c1 n1 f1 c2 n2 f2 packed cap : Z) (w : AudioMIDIWrapper Host)
    (world : World (Clocked P) Host) :
  renderSubBlocks
    {| firstChannel := c1; numChannels := n1; firstFrame := f1;
       getNumFrames := 512 |}
    {| firstChannel := c2; numChannels := n2; firstFrame := f2;
       getNumFrames := 512 |}
    [{| frameIndex := 100; getPackedMIDIData := packed |}] cap
    (set_maxBlockSize 512 w) world
  = Some [{| blockStart := 0; framesToDo := 100; blockEvents := [] |};
          {| blockStart := 100; framesToDo := 412;
             blockEvents := [{| frameIndex := 100;
                                getPackedMIDIData := packed |}] |}] /\
  exists world' n,
    render
      {| firstChannel := c1; numChannels := n1; firstFrame := f1;
         getNumFrames := 512 |}
      {| firstChannel := c2; numChannels := n2; firstFrame := f2;
         getNumFrames := 512 |}
      [{| frameIndex := 100; getPackedMIDIData := packed |}] cap
      (set_maxBlockSize 512 w) world
    = Some (add_totalFramesRendered 512 (set_maxBlockSize 512 w), world', n) /\
    clockLog (performer world')
    = clockLog (performer world)
      ++ [PrepareCall 100; AdvanceCall; PrepareCall 412; AdvanceCall].
Proof.
  set (input := {| firstChannel := c1; numChannels := n1; firstFrame := f1;
                   getNumFrames := 512 |}).
  set (output := {| firstChannel := c2; numChannels := n2; firstFrame := f2;
                    getNumFrames := 512 |}).
  set (ev := {| frameIndex := 100; getPackedMIDIData := packed |}).
  destruct (render_clock Host input output [ev] cap (set_maxBlockSize 512 w) world)
    as (world' & n & blocks & Hr & Hb & Hs & Hclock);
    try (simpl; unfold is_u32; lia); try reflexivity.
  { repeat constructor; unfold wfEvent, is_u32; simpl; lia. }
  assert (Hblocks : blocks
                    = [{| blockStart := 0; framesToDo := 100; blockEvents := [] |};
                       {| blockStart := 100; framesToDo := 412;
                          blockEvents := [ev] |}]).
  { cbn [maxBlockSize set_maxBlockSize getNumFrames input] in Hs.
    apply schedule_inv in Hs. destruct Hs as [[Hs _] | (_ & r1 & -> & Hs)]; [lia|].
    vm_compute in Hs.
    apply schedule_inv in Hs. destruct Hs as [[Hs _] | (_ & r2 & -> & Hs)]; [lia|].
    vm_compute in Hs.
    apply schedule_inv in Hs. destruct Hs as [[_ ->] | (Hs & _)]; [|lia].
    reflexivity. }
  subst blocks. split; [exact Hb|].
  exists world', n. split; [exact Hr | exact Hclock].
Qed.

End EngineCalls.

(** * Further properties *)

(** ** The splitting of a block *)

Lemma schedule_at_end C B evs blocks :
  schedule C B B evs blocks -> blocks = [].
Proof.
  intros Hs. apply schedule_inv in Hs.
  destruct Hs as [[_ ->] | (Hlt & _)]; [reflexivity | lia].
Qed.

Lemma schedule_tiles C B off evs blocks :
  1 <= C -> 0 <= off ->
  Forall wfEvent evs ->
  schedule C B off evs blocks -> tiles off blocks B.
Proof.
  intros HC Hoff Hwf Hs. induction Hs as [evs | off evs blocks Hlt Hs IH].
  - reflexivity.
  - pose proof (takeEvents_framesToDo evs off (Z.min C (B - off)) Hwf Hoff
                  ltac:(lia)) as Hn.
    pose proof (takeEvents_split evs off (Z.min C (B - off))) as Hsplit.
    cbn [tiles blockStart framesToDo]. split; [reflexivity|]. split; [lia|].
    apply IH; [lia|].
    rewrite Hsplit in Hwf. apply Forall_app in Hwf. apply Hwf.
Qed.

Lemma ceilDiv_zero C : 1 <= C -> ceilDiv 0 C = 0.
Proof. intros HC. unfold ceilDiv. apply Z.div_small. lia. Qed.

Lemma ceilDiv_full C x : 1 <= C -> ceilDiv x C = ceilDiv (x - C) C + 1.
Proof.
  intros HC. unfold ceilDiv.
  replace (x + C - 1) with (x - C + C - 1 + 1 * C) by lia.
  apply Z.div_add. lia.
Qed.

Lemma ceilDiv_last C x : 1 <= x <= C -> ceilDiv x C = 1.
Proof.
  intros Hx. unfold ceilDiv. symmetry.
  apply (Z.div_unique (x + C - 1) C 1 (x - 1)); lia.
Qed.

Lemma ceilDiv_mono C x y : 1 <= C -> x <= y -> ceilDiv x C <= ceilDiv y C.
Proof. intros HC Hxy. unfold ceilDiv. apply Z.div_le_mono; lia. Qed.

Lemma ceilDiv_nonneg C x : 1 <= C -> 0 <= x -> 0 <= ceilDiv x C.
Proof. intros HC Hx. unfold ceilDiv. apply Z.div_pos; lia. Qed.

Lemma ceilDiv_step C x :
  1 <= C -> 1 <= x -> ceilDiv (x - Z.min C x) C + 1 <= ceilDiv x C.
Proof.
  intros HC Hx. destruct (Z_le_gt_dec C x) as [Hle | Hgt].
  - rewrite Z.min_l by lia. rewrite (ceilDiv_full C x HC). lia.
  - rewrite Z.min_r by lia. rewrite Z.sub_diag, ceilDiv_zero by lia.
    rewrite ceilDiv_last; lia.
Qed.

(** Without events the block is cut at the multiples of the cap. *)
Lemma schedule_no_events C B off blocks :
  1 <= C -> 0 <= off -> off mod C = 0 ->
  schedule C B off [] blocks ->
  Forall (fun b => blockEvents b = [] /\
                   framesToDo b = Z.min C (B - blockStart b) /\
                   blockStart b mod C = 0) blocks /\
  Z.of_nat (List.length blocks) = ceilDiv (B - off) C.
Proof.
  intros HC Hoff Hmod Hs.
  remember [] as evs eqn:Hevs.
  induction Hs as [evs | off evs blocks Hlt Hs IH]; subst evs.
  - split; [constructor|]. rewrite Z.sub_diag, ceilDiv_zero by lia. reflexivity.
  - cbn [takeEvents fst snd] in *.
    destruct (Z_le_gt_dec C (B - off)) as [Hle | Hgt].
    + rewrite Z.min_l in * by lia.
      destruct IH as [IHall IHlen]; [lia | | reflexivity |].
      { rewrite <- (Z.mul_1_l C) at 1. rewrite Z.mod_add by lia. exact Hmod. }
      split.
      * constructor; [|exact IHall]. cbn [blockEvents framesToDo blockStart].
        repeat split; [rewrite Z.min_l by lia; reflexivity | exact Hmod].
      * cbn [List.length]. rewrite Nat2Z.inj_succ, IHlen.
        rewrite (ceilDiv_full C (B - off) HC).
        replace (B - (off + C)) with (B - off - C) by lia. lia.
    + rewrite Z.min_r in * by lia.
      replace (off + (B - off)) with B in Hs by lia.
      apply schedule_at_end in Hs. subst blocks. split.
      * constructor; [|constructor]. cbn [blockEvents framesToDo blockStart].
        repeat split; [rewrite Z.min_r by lia; reflexivity | exact Hmod].
      * cbn [List.length]. rewrite ceilDiv_last by lia. reflexivity.
Qed.

Lemma filter_length_le {A : Type} (p q : A -> bool) l :
  (forall x, p x = true -> q x = true) ->
  (List.length (filter p l) <= List.length (filter q l))%nat.
Proof.
  intros Hpq. induction l as [|x l IH]; simpl; [lia|].
  destruct (p x) eqn:Ep.
  - rewrite (Hpq x Ep). simpl. lia.
  - destruct (q x); simpl; lia.
Qed.

Lemma laterCount_mono off off' evs :
  off <= off' -> laterCount off' evs <= laterCount off evs.
Proof.
  intros Hle. unfold laterCount. apply Nat2Z.inj_le, filter_length_le.
  unfold later. intros ev Hev. apply Z.ltb_lt in Hev. apply Z.ltb_lt. lia.
Qed.

Lemma laterCount_app off l1 l2 :
  laterCount off (l1 ++ l2) = laterCount off l1 + laterCount off l2.
Proof.
  unfold laterCount. rewrite filter_app, length_app. lia.
Qed.

Lemma laterCount_nonneg off evs : 0 <= laterCount off evs.
Proof. unfold laterCount. lia. Qed.

Lemma laterCount_le_length off evs :
  laterCount off evs <= Z.of_nat (List.length evs).
Proof.
  unfold laterCount. apply Nat2Z.inj_le.
  induction evs as [|ev evs IH]; simpl; [lia|].
  destruct (later off ev); simpl; lia.
Qed.

(** Every sub-block but those that fill the cap ends at an event that is
    still to come: the sub-blocks are no more than the blocks of [C] frames
    and the events later than the start together. *)
Lemma schedule_count C B off evs blocks :
  1 <= C -> 0 <= off ->
  Forall wfEvent evs ->
  schedule C B off evs blocks ->
  Z.of_nat (List.length blocks) <= ceilDiv (B - off) C + laterCount off evs.
Proof.
  intros HC Hoff Hwf Hs. induction Hs as [evs | off evs blocks Hlt Hs IH].
  - simpl. rewrite Z.sub_diag, ceilDiv_zero by lia.
    pose proof (laterCount_nonneg B evs). lia.
  - pose proof (takeEvents_framesToDo evs off (Z.min C (B - off)) Hwf Hoff
                  ltac:(lia)) as Hn.
    pose proof (takeEvents_split evs off (Z.min C (B - off))) as Hsplit.
    pose proof (takeEvents_rest evs off (Z.min C (B - off))) as Hrest.
    assert (Hwf' : Forall wfEvent (snd (fst (takeEvents evs off (Z.min C (B - off)))))).
    { rewrite Hsplit in Hwf. apply Forall_app in Hwf. apply Hwf. }
    specialize (IH ltac:(lia) Hwf').
    assert (Hevs : laterCount off (snd (fst (takeEvents evs off (Z.min C (B - off)))))
                   <= laterCount off evs).
    { pose proof (laterCount_app off
                    (fst (fst (takeEvents evs off (Z.min C (B - off)))))
                    (snd (fst (takeEvents evs off (Z.min C (B - off))))))
        as Happ.
      rewrite <- Hsplit in Happ.
      pose proof (laterCount_nonneg off
                    (fst (fst (takeEvents evs off (Z.min C (B - off)))))).
      lia. }
    cbn [List.length]. rewrite Nat2Z.inj_succ.
    pose proof (ceilDiv_step C (B - off) HC ltac:(lia)) as Hstep.
    destruct (snd (fst (takeEvents evs off (Z.min C (B - off)))))
      as [|ev rest] eqn:E.
    + rewrite Hrest in *.
      replace (B - (off + Z.min C (B - off))) with (B - off - Z.min C (B - off))
        in IH by lia.
      pose proof (laterCount_nonneg off evs).
      change (laterCount (off + Z.min C (B - off)) []) with 0 in IH. lia.
    + destruct Hrest as [Hlater Hto].
      apply Forall_inv in Hwf'. unfold wfEvent, is_u32 in Hwf'.
      rewrite u32_id in Hto by (unfold is_u32; lia).
      destruct (Z_le_gt_dec (Z.min C (B - off)) (frameIndex ev - off)) as [Hfull | Hcut].
      * rewrite (Z.min_l (Z.min C (B - off)) (frameIndex ev - off)) in Hto by lia.
        rewrite Hto in *.
        replace (B - (off + Z.min C (B - off)))
          with (B - off - Z.min C (B - off)) in IH by lia.
        pose proof (laterCount_mono off (off + Z.min C (B - off)) (ev :: rest)
                      ltac:(lia)).
        lia.
      * rewrite (Z.min_r (Z.min C (B - off)) (frameIndex ev - off)) in Hto by lia.
        rewrite Hto in *.
        replace (off + (frameIndex ev - off)) with (frameIndex ev) in IH by lia.
        assert (Hhead : laterCount (frameIndex ev) (ev :: rest) + 1
                        <= laterCount off (ev :: rest)).
        { change (ev :: rest) with ([ev] ++ rest). rewrite !laterCount_app.
          pose proof (laterCount_mono off (frameIndex ev) rest ltac:(lia)).
          unfold laterCount at 1 3. simpl. unfold later at 1 2.
          rewrite Z.ltb_irrefl.
          destruct (off <? frameIndex ev) eqn:El;
            [cbn [List.length]; lia | apply Z.ltb_ge in El; lia]. }
        pose proof (ceilDiv_mono C (B - frameIndex ev) (B - off) HC ltac:(lia)).
        lia.
Qed.

Section LoopExtras.
Context {St : Type}.
Variable C : Z.
Variable f : RenderContext -> St -> RenderContext * St.

(** The two windows of a sub-block are cut from the host's views at the
    same frames. *)
Lemma blockLoop_windows (input output : ChannelArrayView) fuel :
  forall this context rem s log this' context' s' log',
  inputChannels this = input -> outputChannels this = output ->
  blockLoop C (traced f) fuel this context rem (s, log)
    = Some (this', context', (s', log')) ->
  Forall (sameWindow input output) log ->
  Forall (sameWindow input output) log'.
Proof.
  induction fuel as [|fuel IH];
    intros this context rem s log this' context' s' log' Hi Ho; simpl.
  - destruct (rem =? 0); [|discriminate]. intros [= <- <- <- <-]. auto.
  - destruct (rem =? 0); [intros [= <- <- <- <-]; auto|].
    cbn [traced fst snd]. intros Hrun Hlog.
    eapply IH in Hrun; eauto.
    apply Forall_app. split; [exact Hlog|]. constructor; [|constructor].
    unfold sameWindow.
    cbn [set_channels set_midiIn set_frameOffset inputChannels outputChannels
         getFrameRange getNumFrames firstFrame firstChannel numChannels
         frameOffset midiIn].
    rewrite Hi, Ho. repeat split; lia.
Qed.

(** With a cap of zero frames [iterateInBlocks] never returns on a block
    that is not empty. *)
Lemma iterateInBlocks_zero_cap_none fuel this s :
  0 < getNumFrames (inputChannels this) ->
  is_u32 (getNumFrames (inputChannels this)) ->
  iterateInBlocks 0 f fuel this s = None.
Proof.
  intros Hpos Hu. unfold iterateInBlocks.
  rewrite blockLoop_zero_cap by assumption. reflexivity.
Qed.
End LoopExtras.

(** ** Further properties of render *)

Section RenderExtras.
Context {choc : Choc} {P : Type} {engine : Performer P}.
Variable Host : Type.
Implicit Types (input output : ChannelArrayView) (midiIn : list MIDIEvent)
               (w : AudioMIDIWrapper Host) (world : World P Host).

(** [render] halts on its assertion, and only there: it returns unless the
    input and output views differ in their number of frames or the pipeline
    has not been built ([maxBlockSize] is zero). *)
Theorem render_halts_iff input output midiIn cap w world :
  is_u32 (getNumFrames input) ->
  is_u32 (maxBlockSize w) ->
  Forall wfEvent midiIn ->
  (render input output midiIn cap w world = None <->
   getNumFrames input <> getNumFrames output \/ maxBlockSize w = 0).
Proof.
  intros HB HC Hwf. split.
  - intros Hnone.
    destruct (Z.eq_dec (getNumFrames input) (getNumFrames output)) as [Hio|]; [|now left].
    destruct (Z.eq_dec (maxBlockSize w) 0) as [|Hne]; [now right|].
    unfold is_u32 in HC.
    destruct (render_runs Host input output midiIn cap w world Hio
                ltac:(lia) HB Hwf) as (world' & n & ctxs & Hr & _).
    congruence.
  - intros [Hne | Hz]; unfold render.
    + apply Z.eqb_neq in Hne. rewrite Hne. reflexivity.
    + rewrite Hz. rewrite andb_false_r. reflexivity.
Qed.

(** A block of no frames: the engine is not advanced, no operation runs,
    the inbound events are dropped, and the call reports no outbound
    event. *)
Theorem render_empty_block input output midiIn cap w world :
  getNumFrames input = 0 -> getNumFrames output = 0 ->
  maxBlockSize w <> 0 ->
  render input output midiIn cap w world
    = Some (add_totalFramesRendered 0 w, world, 0) /\
  renderSubBlocks input output midiIn cap w world = Some [].
Proof.
  intros Hi Ho HC. apply Z.eqb_neq in HC.
  unfold renderSubBlocks, renderContexts, tracedContexts, render, iterateInBlocks.
  cbn [initialContext inputChannels].
  rewrite Hi, Ho, HC. simpl. split; reflexivity.
Qed.

(** The sub-blocks of a render call tile the host block: the first starts
    at frame 0, each one starts where the one before ends, the last ends at
    the end of the block, and in each the output window covers the same
    frames as the input window.  This holds for any inbound events, sorted
    or not. *)
Theorem render_tiles_block input output midiIn cap w world :
  getNumFrames input = getNumFrames output ->
  1 <= maxBlockSize w ->
  is_u32 (getNumFrames input) ->
  Forall wfEvent midiIn ->
  exists ctxs,
    renderContexts input output midiIn cap w world = Some ctxs /\
    tiles 0 (map (subBlockOf input) ctxs) (getNumFrames input) /\
    Forall (sameWindow input output) ctxs.
Proof.
  intros Hio HC HB Hwf.
  destruct (render_runs Host input output midiIn cap w world Hio HC HB Hwf)
    as (world' & n & ctxs & _ & Hc & Hs).
  exists ctxs. split; [exact Hc|]. split.
  - eapply schedule_tiles; eauto. lia.
  - unfold renderContexts in Hc. rewrite (render_guard Host input output w Hio HC) in Hc.
    unfold tracedContexts, iterateInBlocks in Hc.
    set (this := initialContext w input output midiIn cap) in *.
    destruct (blockLoop (maxBlockSize w) (traced (renderBlock w))
                (Z.to_nat (getNumFrames input)) this this
                (getNumFrames (inputChannels this)) (world, []))
      as [[[this' context'] [s' log']]|] eqn:Hrun; [|discriminate].
    cbn [snd] in Hc. injection Hc as <-.
    eapply (blockLoop_windows (maxBlockSize w) (renderBlock w) input output);
      try exact Hrun; auto.
Qed.

(** With no inbound event the block is cut at the multiples of the cap:
    every sub-block has [maxBlockSize] frames but the last, which has the
    rest, and there are [ceil (B / maxBlockSize)] of them. *)
Theorem render_without_events input output cap w world :
  getNumFrames input = getNumFrames output ->
  1 <= maxBlockSize w ->
  is_u32 (getNumFrames input) ->
  exists blocks,
    renderSubBlocks input output [] cap w world = Some blocks /\
    Z.of_nat (List.length blocks) = ceilDiv (getNumFrames input) (maxBlockSize w) /\
    Forall (fun b =>
              blockEvents b = [] /\
              framesToDo b
                = Z.min (maxBlockSize w) (getNumFrames input - blockStart b) /\
              blockStart b mod maxBlockSize w = 0)
           blocks.
Proof.
  intros Hio HC HB.
  destruct (render_runs Host input output [] cap w world Hio HC HB (Forall_nil _))
    as (world' & n & ctxs & _ & Hc & Hs).
  exists (map (subBlockOf input) ctxs).
  split; [unfold renderSubBlocks; rewrite Hc; reflexivity|].
  assert (Hm : 0 mod maxBlockSize w = 0) by (apply Z.mod_0_l; lia).
  destruct (schedule_no_events _ _ _ _ HC (Z.le_refl 0) Hm Hs) as [Hall Hlen].
  rewrite Z.sub_0_r in Hlen. split; assumption.
Qed.

(** The engine is advanced at most once for every [maxBlockSize] frames
    (rounded up) and once more for every inbound event. *)
Theorem render_sub_block_count input output midiIn cap w world :
  getNumFrames input = getNumFrames output ->
  1 <= maxBlockSize w ->
  is_u32 (getNumFrames input) ->
  Forall wfEvent midiIn ->
  exists blocks,
    renderSubBlocks input output midiIn cap w world = Some blocks /\
    Z.of_nat (List.length blocks)
      <= ceilDiv (getNumFrames input) (maxBlockSize w)
         + Z.of_nat (List.length midiIn).
Proof.
  intros Hio HC HB Hwf.
  destruct (render_runs Host input output midiIn cap w world Hio HC HB Hwf)
    as (world' & n & ctxs & _ & Hc & Hs).
  exists (map (subBlockOf input) ctxs).
  split; [unfold renderSubBlocks; rewrite Hc; reflexivity|].
  pose proof (schedule_count _ _ _ _ _ HC (Z.le_refl 0) Hwf Hs) as Hcount.
  rewrite Z.sub_0_r in Hcount.
  pose proof (laterCount_le_length 0 midiIn). lia.
Qed.

End RenderExtras.

(** ** The outbound MIDI buffer *)

Lemma store_length {A : Type} (x : A) : forall i l,
  List.length (store i x l) = List.length l.
Proof.
  intros i l. revert i. induction l as [|y l IH]; intros [|i]; simpl; auto.
Qed.

Lemma store_firstn {A : Type} (x : A) : forall i l,
  (i < List.length l)%nat ->
  firstn (S i) (store i x l) = firstn i l ++ [x].
Proof.
  intros i l. revert i. induction l as [|y l IH]; intros [|i] Hi; simpl in *;
    try lia; [reflexivity|].
  f_equal. apply IH. lia.
Qed.

Lemma store_skipn {A : Type} (x : A) : forall i j l,
  (i < j)%nat -> skipn j (store i x l) = skipn j l.
Proof.
  intros i j l. revert i j. induction l as [|y l IH]; intros [|i] [|j] Hij;
    simpl; try lia; try reflexivity.
  apply IH. lia.
Qed.

Lemma skipn_succ_eq {A : Type} (i : nat) (l l0 : list A) :
  skipn i l = skipn i l0 -> skipn (S i) l = skipn (S i) l0.
Proof.
  intros Heq. change (S i) with (1 + i)%nat.
  rewrite <- !skipn_skipn. now rewrite Heq.
Qed.

Section MIDIOutExtras.
Context {choc : Choc} {P : Type} {engine : Performer P}.
Variable Host : Type.

Lemma writeMIDIOut_full evs : forall (st : RenderContext * World P Host),
  midiOutCapacity (fst st) <= midiOutCount (fst st) ->
  iterateEvents evs (@writeMIDIOut choc P Host) st = st.
Proof.
  induction evs as [|[off v] rest IH]; intros st Hfull; cbn [iterateEvents];
    [reflexivity|].
  assert (Hw : writeMIDIOut off v st = (true, st)).
  { unfold writeMIDIOut.
    destruct (midiOutCount (fst st) <? midiOutCapacity (fst st)) eqn:E;
      [apply Z.ltb_lt in E; lia | reflexivity]. }
  rewrite Hw. cbn [fst snd]. apply IH, Hfull.
Qed.

Lemma writeMIDIOut_room off v rc (world : World P Host) :
  midiOutCount rc < midiOutCapacity rc ->
  writeMIDIOut off v (rc, world)
  = (true,
     (set_midiOutCount (u32 (midiOutCount rc + 1)) rc,
      set_midiOut (store (Z.to_nat (midiOutCount rc))
                         (midiOutEvent rc (off, v)) (midiOut world))
                  world)).
Proof.
  intros Hroom. unfold writeMIDIOut. cbn [fst snd].
  apply Z.ltb_lt in Hroom. rewrite Hroom. reflexivity.
Qed.

Lemma writeMIDIOut_iterate evs : forall rc (world : World P Host),
  is_u32 (midiOutCapacity rc) ->
  0 <= midiOutCount rc <= midiOutCapacity rc ->
  midiOutCapacity rc <= Z.of_nat (List.length (midiOut world)) ->
  midiOutCount (fst (iterateEvents evs (@writeMIDIOut choc P Host) (rc, world)))
    = midiOutCount rc
      + Z.of_nat (List.length
                    (firstn (Z.to_nat (midiOutCapacity rc - midiOutCount rc)) evs)) /\
  midiOut (snd (iterateEvents evs (@writeMIDIOut choc P Host) (rc, world)))
    = firstn (Z.to_nat (midiOutCount rc)) (midiOut world)
      ++ map (midiOutEvent rc)
             (firstn (Z.to_nat (midiOutCapacity rc - midiOutCount rc)) evs)
      ++ skipn (Z.to_nat (midiOutCount rc)
                + List.length
                    (firstn (Z.to_nat (midiOutCapacity rc - midiOutCount rc)) evs))
               (midiOut world).
Proof.
  induction evs as [|[off v] rest IH]; intros rc world Hcap Hc Hbuf.
  - rewrite firstn_nil. cbn [iterateEvents fst snd List.length map app].
    rewrite Nat.add_0_r, firstn_skipn. split; [lia | reflexivity].
  - destruct (Z_lt_ge_dec (midiOutCount rc) (midiOutCapacity rc)) as [Hroom | Hfull].
    + cbn [iterateEvents]. rewrite writeMIDIOut_room by exact Hroom.
      cbn [fst snd]. unfold is_u32 in Hcap.
      rewrite u32_id by (unfold is_u32; lia).
      set (x := midiOutEvent rc (off, v)).
      set (c := Z.to_nat (midiOutCount rc)).
      assert (Hcl : (c < List.length (midiOut world))%nat) by (subst c; lia).
      destruct (IH (set_midiOutCount (midiOutCount rc + 1) rc)
                   (set_midiOut (store c x (midiOut world)) world))
        as [IHc IHb];
        cbn [set_midiOutCount set_midiOut midiOutCount midiOutCapacity midiOut];
        try (rewrite ?store_length; unfold is_u32; lia).
      cbn [set_midiOutCount set_midiOut midiOutCount midiOutCapacity midiOut]
        in IHc, IHb.
      replace (Z.to_nat (midiOutCapacity rc - midiOutCount rc))
        with (S (Z.to_nat (midiOutCapacity rc - (midiOutCount rc + 1)))) by lia.
      cbn [firstn List.length map].
      set (kept := firstn (Z.to_nat (midiOutCapacity rc - (midiOutCount rc + 1)))
                          rest) in *.
      split; [rewrite IHc; lia|].
      rewrite IHb.
      replace (Z.to_nat (midiOutCount rc + 1)) with (S c) by (subst c; lia).
      rewrite store_firstn by exact Hcl.
      rewrite store_skipn by lia.
      rewrite <- app_assoc. cbn [app].
      replace (c + S (List.length kept))%nat with (S c + List.length kept)%nat by lia.
      reflexivity.
    + rewrite writeMIDIOut_full by (cbn [fst]; lia).
      replace (Z.to_nat (midiOutCapacity rc - midiOutCount rc)) with O by lia.
      cbn [firstn fst snd List.length map app].
      rewrite Nat.add_0_r, firstn_skipn. split; [lia | reflexivity].
Qed.

(** The MIDI output operation is a bounded buffer: of the events the engine
    produced it stores the first ones, as many as there is room for, in
    order, in the slots from [midiOutCount] on, each with the frame offset
    of the sub-block added to its own; it counts them, drops the rest, and
    leaves every other slot as it was. *)
Theorem midi_output_bounded_buffer (h : EndpointHandle) (rc : RenderContext)
    (world : World P Host) :
  is_u32 (midiOutCapacity rc) ->
  0 <= midiOutCount rc <= midiOutCapacity rc ->
  midiOutCapacity rc <= Z.of_nat (List.length (midiOut world)) ->
  midiOutCount (fst (runOperation (MIDIOutputOp Host h) (rc, world)))
    = midiOutCount rc
      + Z.of_nat (List.length
                    (firstn (Z.to_nat (midiOutCapacity rc - midiOutCount rc))
                            (outputEvents h (performer world)))) /\
  midiOut (snd (runOperation (MIDIOutputOp Host h) (rc, world)))
    = firstn (Z.to_nat (midiOutCount rc)) (midiOut world)
      ++ map (midiOutEvent rc)
             (firstn (Z.to_nat (midiOutCapacity rc - midiOutCount rc))
                     (outputEvents h (performer world)))
      ++ skipn (Z.to_nat (midiOutCount rc)
                + List.length
                    (firstn (Z.to_nat (midiOutCapacity rc - midiOutCount rc))
                            (outputEvents h (performer world))))
               (midiOut world).
Proof.
  intros Hcap Hc Hbuf. cbn [runOperation]. unfold iterateOutputEvents.
  cbn [snd performer]. apply writeMIDIOut_iterate; assumption.
Qed.


Lemma writeMIDIOut_untouched cap buffer off v
    (st : RenderContext * World P Host) :
  is_u32 cap ->
  untouched cap buffer (fst st) (snd st) ->
  untouched cap buffer (fst (snd (writeMIDIOut off v st)))
            (snd (snd (writeMIDIOut off v st))).
Proof.
  unfold untouched, writeMIDIOut, is_u32. intros Hcap (Hk & Hc & Hskip).
  cbn [snd].
  destruct (midiOutCount (fst st) <? midiOutCapacity (fst st)) eqn:E;
    [|repeat split; auto; lia].
  apply Z.ltb_lt in E.
  cbn [fst snd set_midiOutCount set_midiOut midiOutCount midiOutCapacity
       midiOut].
  rewrite u32_id by (unfold is_u32; lia).
  replace (Z.to_nat (midiOutCount (fst st) + 1))
    with (S (Z.to_nat (midiOutCount (fst st)))) by lia.
  repeat split; try lia; try assumption.
  rewrite store_skipn by lia. apply skipn_succ_eq, Hskip.
Qed.

Lemma runOperation_untouched cap buffer (op : Operation Host) st :
  is_u32 cap ->
  untouched cap buffer (fst st) (snd st) ->
  untouched cap buffer (fst (runOperation op st))
            (snd (runOperation op st)).
Proof.
  intros Hcap Hu. destruct op; cbn [runOperation fst snd]; try exact Hu.
  - unfold pollParameter. destruct (fst (getNewValueForParamIfChanged _)); exact Hu.
  - unfold pollParameter. destruct (fst (getNewValueForParamIfChanged _)); exact Hu.
  - unfold pollParameter. destruct (fst (getNewValueForParamIfChanged _)); exact Hu.
  - unfold iterateOutputEvents.
    apply (iterateEvents_invariant
             (fun s => untouched cap buffer (fst s) (snd s)));
      [|exact Hu].
    intros off v s Hs. apply writeMIDIOut_untouched; assumption.
  - unfold iterateOutputEvents.
    apply (iterateEvents_invariant
             (fun s => untouched cap buffer (fst s) (snd s)));
      [|exact Hu].
    intros off v s Hs. exact Hs.
Qed.

Lemma runOperations_untouched cap buffer (ops : list (Operation Host)) :
  forall st,
  is_u32 cap ->
  untouched cap buffer (fst st) (snd st) ->
  untouched cap buffer (fst (runOperations ops st))
            (snd (runOperations ops st)).
Proof.
  unfold runOperations.
  induction ops as [|op ops IH]; intros st Hcap Hu; simpl; [exact Hu|].
  apply IH; [exact Hcap|]. apply runOperation_untouched; assumption.
Qed.

Lemma renderBlock_untouched cap buffer (w : AudioMIDIWrapper Host) rc world :
  is_u32 cap ->
  untouched cap buffer rc world ->
  untouched cap buffer (fst (renderBlock w rc world))
            (snd (renderBlock w rc world)).
Proof.
  intros Hcap Hu. unfold renderBlock.
  apply runOperations_untouched; [exact Hcap|]. cbn [fst snd].
  set (st2 := runOperations (preRenderOperations w) _).
  assert (H2 : untouched cap buffer (fst st2) (snd st2)).
  { subst st2. apply runOperations_untouched; [exact Hcap|]. exact Hu. }
  exact H2.
Qed.

(** A render call writes the outbound MIDI buffer only in the slots it
    reports as used: every slot from the reported count on holds what it
    held before the call. *)
Theorem render_leaves_rest_of_buffer input output midiIn cap
    (w w' : AudioMIDIWrapper Host) (world world' : World P Host) n :
  is_u32 cap ->
  render input output midiIn cap w world = Some (w', world', n) ->
  skipn (Z.to_nat n) (midiOut world') = skipn (Z.to_nat n) (midiOut world).
Proof.
  intros Hcap. unfold render.
  destruct ((getNumFrames input =? getNumFrames output)
            && negb (maxBlockSize w =? 0)); [|discriminate].
  unfold iterateInBlocks.
  set (this := initialContext w input output midiIn cap).
  destruct (blockLoop (maxBlockSize w) (renderBlock w)
              (Z.to_nat (getNumFrames input)) this this
              (getNumFrames (inputChannels this)) world)
    as [[[this' context'] s']|] eqn:Hrun; [|discriminate].
  intros [= <- <- <-]. cbn [midiOutCount set_midiOutCount].
  pose proof (blockLoop_invariant (maxBlockSize w) (renderBlock w)
                (untouched cap (midiOut world))) as Hinv.
  destruct (Hinv) with (fuel := Z.to_nat (getNumFrames input)) (this := this)
    (context := this) (rem := getNumFrames (inputChannels this)) (s := world)
    (this' := this') (context' := context') (s' := s')
    as (_ & _ & Hskip); auto.
  - intros rc s Hu. apply renderBlock_untouched; assumption.
  - subst this. unfold untouched, is_u32 in *. simpl. repeat split; auto; lia.
Qed.

End MIDIOutExtras.

(** ** Further properties of the builder *)

Lemma forEach_none_iff {A B : Type} (body : A -> B -> option B)
    (halts : A -> bool) :
  (forall x b, body x b = None <-> halts x = true) ->
  forall l b, forEach body l b = None <-> existsb halts l = true.
Proof.
  intros Hbody. induction l as [|x l IH]; intros b; simpl.
  - split; discriminate.
  - destruct (body x b) as [b'|] eqn:E.
    + rewrite IH. destruct (halts x) eqn:Hx; [|reflexivity].
      apply (Hbody x b) in Hx. congruence.
    + apply (Hbody x b) in E. rewrite E. split; reflexivity.
Qed.

Section BuildExtras.
Context {choc : Choc} {P : Type} {engine : Performer P}.
Variable Host : Type.
Variable perf : P.
Variable getNewParameterValueFn : GetNewParameterValueFn Host.
Variable getRampLengthForSparseStreamFn : GetRampLengthForSparseStreamFn.
Variable handleUnusedEventFn : HandleUnusedEventFn Host.

Lemma buildInput_halts e (w : AudioMIDIWrapper Host) :
  buildInput perf getNewParameterValueFn getRampLengthForSparseStreamFn e w = None
  <-> inputHalts getNewParameterValueFn getRampLengthForSparseStreamFn e = true.
Proof.
  unfold buildInput, inputHalts, isEvent, isStream, isValue.
  repeat match goal with
         | |- context [match ?x with _ => _ end] => destruct x eqn:?
         end; simpl; split; congruence.
Qed.

Lemma buildOutput_halts e (w : AudioMIDIWrapper Host) :
  buildOutput perf handleUnusedEventFn e w = None <-> outputHalts e = true.
Proof.
  unfold buildOutput, outputHalts.
  repeat match goal with
         | |- context [match ?x with _ => _ end] => destruct x eqn:?
         end; simpl; split; congruence.
Qed.

(** The builder halts at its assertions and nowhere else: it returns a
    pipeline unless the requested block size is zero, or an input endpoint
    is a stream parameter with a change detector while no ramp length
    provider was given, or an audio endpoint (input or output) has frames
    that are not floats. *)
Theorem build_halts_iff M (w : AudioMIDIWrapper Host) :
  buildRenderingPipeline M getNewParameterValueFn
    getRampLengthForSparseStreamFn handleUnusedEventFn perf w = None
  <->
  M <= 0 \/
  existsb (inputHalts getNewParameterValueFn getRampLengthForSparseStreamFn)
          (getInputEndpoints perf) = true \/
  existsb outputHalts (getOutputEndpoints perf) = true.
Proof.
  unfold buildRenderingPipeline.
  destruct (M >? 0) eqn:EM.
  - assert (HM : 0 < M) by lia.
    destruct (forEach (buildInput perf getNewParameterValueFn
                         getRampLengthForSparseStreamFn)
                      (getInputEndpoints perf)
                      (set_maxBlockSize (Z.min 512 M) (reset w)))
      as [w1|] eqn:Ein.
    + rewrite (forEach_none_iff _ outputHalts buildOutput_halts).
      assert (Hno : existsb (inputHalts getNewParameterValueFn
                               getRampLengthForSparseStreamFn)
                            (getInputEndpoints perf) <> true).
      { intros Hex.
        apply (forEach_none_iff _ _ buildInput_halts _
                 (set_maxBlockSize (Z.min 512 M) (reset w))) in Hex.
        congruence. }
      split; [intros H; right; right; exact H|].
      intros [H | [H | H]]; [lia | contradiction | exact H].
    + split; [|reflexivity]. intros _. right. left.
      apply (forEach_none_iff _ _ buildInput_halts (getInputEndpoints perf)
               (set_maxBlockSize (Z.min 512 M) (reset w))). exact Ein.
  - split; [intros _; left; lia | reflexivity].
Qed.

(** What one input endpoint adds to the pipeline. *)
Lemma buildInput_ops e (w w' : AudioMIDIWrapper Host) :
  buildInput perf getNewParameterValueFn getRampLengthForSparseStreamFn e w
    = Some w' ->
  exists ops,
    preRenderOperations w' = preRenderOperations w ++ ops /\
    (List.length ops <= 1)%nat /\
    Forall (fun op => isPreOp op = true) ops /\
    (getNewParameterValueFn = None ->
     Forall (fun op => isParameterOp op = false) ops) /\
    inputStarts ops
      = (if isAudioInput e then [numInputChannelsExpected w] else []).
Proof.
  unfold buildInput, isAudioInput. intros Hb.
  break_build Hb;
    cbn [push_pre add_inputChannels preRenderOperations numInputChannelsExpected];
    try (exists []; rewrite app_nil_r; repeat split; simpl; auto; fail);
    eexists [_]; (split; [reflexivity|]);
    (split; [simpl; lia|]);
    (split; [repeat constructor|]);
    (split; [intros; try discriminate; repeat constructor | reflexivity]).
Qed.

(** What one output endpoint adds to the pipeline. *)
Lemma buildOutput_ops e (w w' : AudioMIDIWrapper Host) :
  buildOutput perf handleUnusedEventFn e w = Some w' ->
  exists ops,
    postRenderOperations w' = postRenderOperations w ++ ops /\
    (List.length ops <= 1)%nat /\
    Forall (fun op => isPostOp op = true) ops /\
    (handleUnusedEventFn = None ->
     Forall (fun op => isUnusedEventOp op = false) ops) /\
    outputRanges ops
      = (if isAudioOutput e
         then [(numOutputChannelsExpected w, getNumAudioChannels e)]
         else []).
Proof.
  unfold buildOutput, isAudioOutput. intros Hb.
  break_build Hb;
    cbn [push_post add_outputChannels postRenderOperations
         numOutputChannelsExpected];
    try (exists []; rewrite app_nil_r; repeat split; simpl; auto; fail);
    eexists [_]; (split; [reflexivity|]);
    (split; [simpl; lia|]);
    (split; [repeat constructor|]);
    (split; [intros; try discriminate; repeat constructor | reflexivity]).
Qed.

Lemma inputStarts_app (a b : list (Operation Host)) :
  inputStarts (a ++ b) = inputStarts a ++ inputStarts b.
Proof. unfold inputStarts. apply flat_map_app. Qed.

Lemma outputRanges_app (a b : list (Operation Host)) :
  outputRanges (a ++ b) = outputRanges a ++ outputRanges b.
Proof. unfold outputRanges. apply flat_map_app. Qed.

Lemma inputs_ops l : forall (w w' : AudioMIDIWrapper Host),
  forEach (buildInput perf getNewParameterValueFn getRampLengthForSparseStreamFn)
          l w = Some w' ->
  exists ops,
    preRenderOperations w' = preRenderOperations w ++ ops /\
    (List.length ops <= List.length l)%nat /\
    Forall (fun op => isPreOp op = true) ops /\
    (getNewParameterValueFn = None ->
     Forall (fun op => isParameterOp op = false) ops).
Proof.
  induction l as [|e l IH]; intros w w'; simpl.
  - intros [= <-]. exists []. rewrite app_nil_r. repeat split; auto.
  - destruct (buildInput _ _ _ e w) as [w1|] eqn:E; [|discriminate].
    intros Hrest. apply buildInput_ops in E.
    destruct E as (ops1 & E1 & E2 & E3 & E4 & _).
    apply IH in Hrest. destruct Hrest as (ops2 & R1 & R2 & R3 & R4).
    exists (ops1 ++ ops2). rewrite R1, E1, app_assoc.
    split; [reflexivity|]. split; [rewrite length_app; lia|].
    split; [apply Forall_app; split; assumption|].
    intros Hnone. apply Forall_app. split; auto.
Qed.

Lemma outputs_ops l : forall (w w' : AudioMIDIWrapper Host),
  forEach (buildOutput perf handleUnusedEventFn) l w = Some w' ->
  exists ops,
    postRenderOperations w' = postRenderOperations w ++ ops /\
    (List.length ops <= List.length l)%nat /\
    Forall (fun op => isPostOp op = true) ops /\
    (handleUnusedEventFn = None ->
     Forall (fun op => isUnusedEventOp op = false) ops).
Proof.
  induction l as [|e l IH]; intros w w'; simpl.
  - intros [= <-]. exists []. rewrite app_nil_r. repeat split; auto.
  - destruct (buildOutput _ _ e w) as [w1|] eqn:E; [|discriminate].
    intros Hrest. apply buildOutput_ops in E.
    destruct E as (ops1 & E1 & E2 & E3 & E4 & _).
    apply IH in Hrest. destruct Hrest as (ops2 & R1 & R2 & R3 & R4).
    exists (ops1 ++ ops2). rewrite R1, E1, app_assoc.
    split; [reflexivity|]. split; [rewrite length_app; lia|].
    split; [apply Forall_app; split; assumption|].
    intros Hnone. apply Forall_app. split; auto.
Qed.

Lemma inputs_layout l : forall (w w' : AudioMIDIWrapper Host),
  forEach (buildInput perf getNewParameterValueFn getRampLengthForSparseStreamFn)
          l w = Some w' ->
  Forall wfEndpoint l ->
  0 <= numInputChannelsExpected w ->
  numInputChannelsExpected w + totalChannels isAudioInput l < 2 ^ 32 ->
  inputStarts (preRenderOperations w')
  = inputStarts (preRenderOperations w)
    ++ prefixSums (numInputChannelsExpected w) l.
Proof.
  induction l as [|e l IH]; intros w w'; simpl.
  - intros [= <-] _ _ _. now rewrite app_nil_r.
  - destruct (buildInput _ _ _ e w) as [w1|] eqn:E; [|discriminate].
    intros Hrest Hwf H0 Hfit.
    pose proof (buildInput_step _ _ _ _ _ _ _ E) as (_ & _ & _ & _ & S5).
    apply buildInput_ops in E. destruct E as (ops1 & E1 & _ & _ & _ & E5).
    apply Forall_cons_iff in Hwf. destruct Hwf as [He Hwf].
    pose proof (totalChannels_nonneg isAudioInput l Hwf) as Hnn.
    unfold wfEndpoint, is_u32 in He.
    unfold totalChannels in Hfit. cbn [filter] in Hfit.
    destruct (isAudioInput e).
    + cbn [fold_right] in Hfit. fold (totalChannels isAudioInput l) in Hfit.
      rewrite u32_id in S5 by (unfold is_u32; lia).
      rewrite (IH w1 w' Hrest Hwf) by (rewrite S5; lia).
      rewrite E1, inputStarts_app, E5, S5, <- app_assoc. reflexivity.
    + fold (totalChannels isAudioInput l) in Hfit.
      rewrite (IH w1 w' Hrest Hwf) by (rewrite S5; lia).
      rewrite E1, inputStarts_app, E5, S5, app_nil_r. reflexivity.
Qed.

Lemma contiguousFrom_app s l1 : forall a n,
  0 < n -> contiguousFrom s l1 a -> contiguousFrom s (l1 ++ [(a, n)]) (a + n).
Proof.
  revert s. induction l1 as [|[b m] l1 IH]; intros s a n Hn; simpl.
  - intros ->. repeat split; auto.
  - intros (-> & Hm & Hrest). repeat split; auto.
Qed.

Lemma outputs_layout l : forall (w w' : AudioMIDIWrapper Host) s,
  forEach (buildOutput perf handleUnusedEventFn) l w = Some w' ->
  Forall wfEndpoint l ->
  0 <= numOutputChannelsExpected w ->
  numOutputChannelsExpected w + totalChannels isAudioOutput l < 2 ^ 32 ->
  contiguousFrom s (outputRanges (postRenderOperations w))
                 (numOutputChannelsExpected w) ->
  contiguousFrom s (outputRanges (postRenderOperations w'))
                 (numOutputChannelsExpected w').
Proof.
  induction l as [|e l IH]; intros w w' s; simpl.
  - intros [= <-] _ _ _ Hc. exact Hc.
  - destruct (buildOutput _ _ e w) as [w1|] eqn:E; [|discriminate].
    intros Hrest Hwf H0 Hfit Hc.
    pose proof (buildOutput_step Host perf handleUnusedEventFn e w w1 E)
      as (_ & _ & _ & _ & S5).
    pose proof E as E'. apply buildOutput_ops in E'.
    destruct E' as (ops1 & E1 & _ & _ & _ & E5).
    apply Forall_cons_iff in Hwf. destruct Hwf as [He Hwf].
    pose proof (totalChannels_nonneg isAudioOutput l Hwf) as Hnn.
    unfold wfEndpoint, is_u32 in He.
    unfold totalChannels in Hfit. cbn [filter] in Hfit.
    destruct (isAudioOutput e) eqn:Ea.
    + cbn [fold_right] in Hfit. fold (totalChannels isAudioOutput l) in Hfit.
      rewrite u32_id in S5 by (unfold is_u32; lia).
      apply (IH w1 w' s Hrest Hwf); [rewrite S5; lia | rewrite S5; lia |].
      rewrite E1, outputRanges_app, E5, S5.
      apply contiguousFrom_app; [|exact Hc].
      unfold isAudioOutput in Ea. apply andb_prop in Ea. destruct Ea as [_ Ea].
      apply negb_true_iff, Z.eqb_neq in Ea. lia.
    + fold (totalChannels isAudioOutput l) in Hfit.
      apply (IH w1 w' s Hrest Hwf); [rewrite S5; lia | rewrite S5; lia |].
      rewrite E1, outputRanges_app, E5, S5, app_nil_r. exact Hc.
Qed.

(** The two loops of a build, with what the first leaves for the second
    and the second keeps of the first. *)
Lemma build_parts M (w w' : AudioMIDIWrapper Host) :
  buildRenderingPipeline M getNewParameterValueFn
    getRampLengthForSparseStreamFn handleUnusedEventFn perf w = Some w' ->
  exists w1,
    forEach (buildInput perf getNewParameterValueFn getRampLengthForSparseStreamFn)
            (getInputEndpoints perf) (freshPipeline M w) = Some w1 /\
    forEach (buildOutput perf handleUnusedEventFn)
            (getOutputEndpoints perf) w1 = Some w' /\
    postRenderOperations w1 = [] /\
    numOutputChannelsExpected w1 = 0 /\
    preRenderOperations w' = preRenderOperations w1.
Proof.
  intros Hb. apply build_inv in Hb. destruct Hb as (_ & w1 & Hin & Hout).
  assert (Hz : is_u32 (numInputChannelsExpected (freshPipeline M w)))
    by apply zero_is_u32.
  pose proof (inputs_loop Host perf getNewParameterValueFn
                getRampLengthForSparseStreamFn _ _ _ Hz Hin)
    as (_ & _ & I3 & I4 & _).
  assert (Hz1 : is_u32 (numOutputChannelsExpected w1))
    by (rewrite I4; apply zero_is_u32).
  pose proof (outputs_loop Host perf handleUnusedEventFn _ _ _ Hz1 Hout)
    as (_ & _ & O3 & _).
  exists w1. repeat split; assumption.
Qed.

Lemma build_kinds M (w w' : AudioMIDIWrapper Host) :
  buildRenderingPipeline M getNewParameterValueFn
    getRampLengthForSparseStreamFn handleUnusedEventFn perf w = Some w' ->
  Forall (fun op => isPreOp op = true) (preRenderOperations w') /\
  Forall (fun op => isPostOp op = true) (postRenderOperations w') /\
  (List.length (preRenderOperations w')
   <= List.length (getInputEndpoints perf))%nat /\
  (List.length (postRenderOperations w')
   <= List.length (getOutputEndpoints perf))%nat.
Proof.
  intros Hb. apply build_parts in Hb.
  destruct Hb as (w1 & Hin & Hout & I3 & _ & O3).
  apply inputs_ops in Hin. destruct Hin as (ops1 & P1 & P2 & P3 & _).
  apply outputs_ops in Hout. destruct Hout as (ops2 & Q1 & Q2 & Q3 & _).
  change (preRenderOperations (freshPipeline M w)) with (@nil (Operation Host)) in P1.
  rewrite O3, P1, Q1, I3. cbn [app]. repeat split; assumption.
Qed.

(** The builder keeps the two lists apart: every pre-render operation
    feeds the engine (a parameter, MIDI or audio input), every post-render
    operation reads it (MIDI, audio or unused-event output), and each
    endpoint gives one operation at most. *)
Theorem build_operation_kinds M (w w' : AudioMIDIWrapper Host) :
  buildRenderingPipeline M getNewParameterValueFn
    getRampLengthForSparseStreamFn handleUnusedEventFn perf w = Some w' ->
  Forall (fun op => isPreOp op = true) (preRenderOperations w') /\
  Forall (fun op => isPostOp op = true) (postRenderOperations w') /\
  (List.length (preRenderOperations w')
   <= List.length (getInputEndpoints perf))%nat /\
  (List.length (postRenderOperations w')
   <= List.length (getOutputEndpoints perf))%nat.
Proof. apply build_kinds. Qed.

(** With no provider of change detectors, no parameter operation is
    built. *)
Theorem build_without_change_detector M (w w' : AudioMIDIWrapper Host) :
  getNewParameterValueFn = None ->
  buildRenderingPipeline M getNewParameterValueFn
    getRampLengthForSparseStreamFn handleUnusedEventFn perf w = Some w' ->
  Forall (fun op => isParameterOp op = false) (preRenderOperations w').
Proof.
  intros Hnone Hb. apply build_parts in Hb.
  destruct Hb as (w1 & Hin & _ & _ & _ & O3).
  apply inputs_ops in Hin. destruct Hin as (ops1 & P1 & _ & _ & P4).
  change (preRenderOperations (freshPipeline M w)) with (@nil (Operation Host)) in P1.
  rewrite O3, P1. apply P4, Hnone.
Qed.

(** With no unused-event callback, no unused-event operation is built:
    the events of plain event outputs are left with the engine. *)
Theorem build_without_unused_callback M (w w' : AudioMIDIWrapper Host) :
  handleUnusedEventFn = None ->
  buildRenderingPipeline M getNewParameterValueFn
    getRampLengthForSparseStreamFn handleUnusedEventFn perf w = Some w' ->
  Forall (fun op => isUnusedEventOp op = false) (postRenderOperations w').
Proof.
  intros Hnone Hb. apply build_parts in Hb.
  destruct Hb as (w1 & _ & Hout & I3 & _ & _).
  apply outputs_ops in Hout. destruct Hout as (ops2 & Q1 & _ & _ & Q4).
  rewrite Q1, I3. cbn [app]. apply Q4, Hnone.
Qed.

(** The audio output operations write channel ranges that follow one
    another from channel 0 up to the expected number of output channels:
    no two overlap and no channel below that number is left out. *)
Theorem output_channel_layout M (w w' : AudioMIDIWrapper Host) :
  Forall wfEndpoint (getOutputEndpoints perf) ->
  totalChannels isAudioOutput (getOutputEndpoints perf) < 2 ^ 32 ->
  buildRenderingPipeline M getNewParameterValueFn
    getRampLengthForSparseStreamFn handleUnusedEventFn perf w = Some w' ->
  contiguousFrom 0 (outputRanges (postRenderOperations w'))
                 (getExpectedNumOutputChannels w').
Proof.
  intros Hwf Hfit Hb. apply build_parts in Hb.
  destruct Hb as (w1 & _ & Hout & I3 & I4 & _).
  unfold getExpectedNumOutputChannels.
  apply (outputs_layout _ w1 w' 0 Hout Hwf); rewrite ?I3, ?I4; try lia.
  reflexivity.
Qed.

(** Each audio input operation reads the host's input from the channel
    where the audio input endpoints declared before its own end. *)
Theorem input_channel_layout M (w w' : AudioMIDIWrapper Host) :
  Forall wfEndpoint (getInputEndpoints perf) ->
  totalChannels isAudioInput (getInputEndpoints perf) < 2 ^ 32 ->
  buildRenderingPipeline M getNewParameterValueFn
    getRampLengthForSparseStreamFn handleUnusedEventFn perf w = Some w' ->
  inputStarts (preRenderOperations w') = prefixSums 0 (getInputEndpoints perf).
Proof.
  intros Hwf Hfit Hb. apply build_parts in Hb.
  destruct Hb as (w1 & Hin & _ & _ & _ & O3).
  rewrite O3.
  rewrite (inputs_layout _ _ _ Hin Hwf);
    change (numInputChannelsExpected (freshPipeline M w)) with 0; try lia.
  reflexivity.
Qed.

End BuildExtras.

(** ** The operations and the calls together *)

Section OperationExtras.
Context {choc : Choc} {P : Type} {engine : Performer P}.
Variable Host : Type.

Lemma preOp_frame (op : Operation Host) (st : RenderContext * World P Host) :
  isPreOp op = true ->
  fst (runOperation op st) = fst st /\
  outputAudio (snd (runOperation op st)) = outputAudio (snd st) /\
  midiOut (snd (runOperation op st)) = midiOut (snd st) /\
  inputAudio (snd (runOperation op st)) = inputAudio (snd st).
Proof.
  destruct op; cbn [isPreOp]; try discriminate; intros _;
    cbn [runOperation fst snd]; unfold pollParameter;
    try destruct (fst (getNewValueForParamIfChanged _));
    repeat split.
Qed.

(** The pre-render operations of a built pipeline only feed the engine:
    they leave the context of the sub-block, the output audio, the outbound
    MIDI buffer and the input audio as they find them. *)
Theorem built_pre_operations_frame M g r u (perf : P)
    (w w' : AudioMIDIWrapper Host) (st : RenderContext * World P Host) :
  buildRenderingPipeline M g r u perf w = Some w' ->
  fst (runOperations (preRenderOperations w') st) = fst st /\
  outputAudio (snd (runOperations (preRenderOperations w') st))
    = outputAudio (snd st) /\
  midiOut (snd (runOperations (preRenderOperations w') st)) = midiOut (snd st) /\
  inputAudio (snd (runOperations (preRenderOperations w') st))
    = inputAudio (snd st).
Proof.
  intros Hb. apply build_kinds in Hb. destruct Hb as (Hpre & _).
  revert st. unfold runOperations.
  induction Hpre as [|op ops Hop _ IH]; intros st; simpl; [repeat split|].
  destruct (preOp_frame op st Hop) as (F1 & F2 & F3 & F4).
  destruct (IH (runOperation op st)) as (G1 & G2 & G3 & G4).
  repeat split; congruence.
Qed.

Lemma render_wrapper input output midiIn cap (w w' : AudioMIDIWrapper Host)
    (world world' : World P Host) n :
  render input output midiIn cap w world = Some (w', world', n) ->
  w' = add_totalFramesRendered (getNumFrames input) w.
Proof.
  unfold render.
  destruct ((getNumFrames input =? getNumFrames output)
            && negb (maxBlockSize w =? 0)); [|discriminate].
  destruct (iterateInBlocks _ _ _ _ _) as [[c s]|]; [|discriminate].
  now intros [= <- _ _].
Qed.

(** Render calls add up and leave the compiled pipeline alone: after two
    calls the pipeline (operations, expected channel counts, maximum block
    size) is the one before them, and the frame counter has grown by the
    frames of both blocks, modulo 2^64. *)
Theorem render_twice input1 output1 midiIn1 cap1 input2 output2 midiIn2 cap2
    (w w1 w2 : AudioMIDIWrapper Host) (world world1 world2 : World P Host)
    n1 n2 :
  render input1 output1 midiIn1 cap1 w world = Some (w1, world1, n1) ->
  render input2 output2 midiIn2 cap2 w1 world1 = Some (w2, world2, n2) ->
  samePipeline w w2 /\
  wrapper_totalFramesRendered w2
    = u64 (wrapper_totalFramesRendered w
           + getNumFrames input1 + getNumFrames input2).
Proof.
  intros H1 H2. apply render_wrapper in H1. apply render_wrapper in H2.
  subst w2 w1. split; [repeat split|].
  cbn [add_totalFramesRendered wrapper_totalFramesRendered].
  unfold u64. rewrite Zplus_mod_idemp_l. reflexivity.
Qed.

(** [iterateInBlocks] with a maximum of zero frames per block makes no
    progress on a block that is not empty: whatever the fuel, it does not
    return.  ([render] never calls it so: it halts first on
    [maxBlockSize != 0].) *)
Theorem iterateInBlocks_zero_cap {St : Type}
    (f : RenderContext -> St -> RenderContext * St) fuel this s :
  0 < getNumFrames (inputChannels this) ->
  is_u32 (getNumFrames (inputChannels this)) ->
  iterateInBlocks 0 f fuel this s = None.
Proof. apply iterateInBlocks_zero_cap_none. Qed.

End OperationExtras.

(** ** The engine's clock *)

Section ClockExtras.
Context {choc : Choc} {P : Type} {engine : Performer P}.
Variable Host : Type.
#[local] Existing Instance clockedPerformer.

(** On an engine whose [prepare] and [advance] calls are logged, a render
    call prepares the engine with the length of a sub-block and advances
    it once, for each sub-block in order, and makes no other such call:
    no operation of the pipeline prepares or advances the engine. *)
Theorem render_advances_once_per_sub_block input output midiIn cap
    (w : AudioMIDIWrapper Host) (world : World (Clocked P) Host) :
  getNumFrames input = getNumFrames output ->
  1 <= maxBlockSize w ->
  is_u32 (getNumFrames input) ->
  Forall wfEvent midiIn ->
  exists world' n blocks,
    render input output midiIn cap w world
      = Some (add_totalFramesRendered (getNumFrames input) w, world', n) /\
    renderSubBlocks input output midiIn cap w world = Some blocks /\
    clockLog (performer world')
      = clockLog (performer world) ++ clockCalls blocks.
Proof.
  intros Hio HC HB Hwf.
  destruct (render_clock Host input output midiIn cap w world Hio HC HB Hwf)
    as (world' & n & blocks & Hr & Hb & _ & Hclock).
  exists world', n, blocks. repeat split; assumption.
Qed.

End ClockExtras.

(** * The claims on the demo engine *)

Import Demo.

Example demo_build_512 : build 512 accept = Some (pipeline 512 accept).
Proof. reflexivity. Qed.

Example demo_build_4 : build 4 refuse = Some (pipeline 4 refuse).
Proof. reflexivity. Qed.

(** A requested size above the ceiling is cut to 512. *)
Example demo_build_1000 : build 1000 accept = Some (pipeline 512 accept).
Proof. reflexivity. Qed.

(** The scenario of C8 on the demo engine: two advances, of 100 and of 412
    frames, the event going in before the second. *)
Example event_at_100_engine_calls :
  option_map (fun r => timing (calls (performer (snd (fst r)))))
    (render (block 512) (block 512) [noteAt 100] 0 (pipeline 512 accept)
            (world []))
  = Some [Prepare 100; Advance; Prepare 412;
          AddInputEvent 2 (V_midiMessage 9453568); Advance].
Proof. vm_compute. reflexivity. Qed.

(** The first scenario of the spec: 1024 frames, no events, two advances of
    512 frames, no outbound event. *)
Example no_events_two_blocks :
  renderSubBlocks (block 1024) (block 1024) [] 0
                  (set_maxBlockSize 512 emptyWrapper) (world [])
  = Some [{| blockStart := 0; framesToDo := 512; blockEvents := [] |};
          {| blockStart := 512; framesToDo := 512; blockEvents := [] |}].
Proof. vm_compute. reflexivity. Qed.

(** C1, as stated, fails: with a callback that answers [false], the second
    event the engine produced is not forwarded. *)
Lemma unused_events_not_all_forwarded :
  ~ forwardsEveryEvent 5 refuse "meter"%string someContext (world []).
Proof. unfold forwardsEveryEvent. vm_compute. discriminate. Qed.

Lemma render_frames_sum_to_block_witness :
  exists w' world' n blocks,
    render (block 10) (block 10) [noteAt 3; noteAt 3; noteAt 12] 1
           (pipeline 4 accept) (world [noteAt 0]) = Some (w', world', n) /\
    renderSubBlocks (block 10) (block 10) [noteAt 3; noteAt 3; noteAt 12] 1
                    (pipeline 4 accept) (world [noteAt 0]) = Some blocks /\
    sumFrames blocks = 10 /\
    Forall (fun b => 1 <= framesToDo b <= 4 /\
                     0 <= blockStart b /\ blockStart b + framesToDo b <= 10)
           blocks.
Proof.
  apply (render_frames_sum_to_block unit (block 10) (block 10)
           [noteAt 3; noteAt 3; noteAt 12] 1 (pipeline 4 accept)
           (world [noteAt 0])).
  - reflexivity.
  - simpl. lia.
  - unfold is_u32. simpl. lia.
  - repeat constructor; unfold wfEvent, is_u32; simpl; lia.
Defined.

(** C3, as stated, fails: with a cap of 4 frames, a block of 8 frames and
    one event at frame 0, the sub-blocks meet at frame 4, where there is no
    event. *)
Lemma boundary_without_event :
  renderSubBlocks (block 8) (block 8) [noteAt 0] 0 (pipeline 4 accept)
                  (world [])
  = Some [{| blockStart := 0; framesToDo := 4; blockEvents := [noteAt 0] |};
          {| blockStart := 4; framesToDo := 4; blockEvents := [] |}] /\
  ~ boundariesAtEvents [noteAt 0]
      [{| blockStart := 0; framesToDo := 4; blockEvents := [noteAt 0] |};
       {| blockStart := 4; framesToDo := 4; blockEvents := [] |}].
Proof.
  split; [vm_compute; reflexivity|].
  intros Hb. destruct (Hb [] _ _ [] eq_refl) as (ev & [<- | []] & Hev).
  discriminate Hev.
Qed.

Lemma sub_blocks_meet_at_events_or_cap_witness :
  exists blocks,
    renderSubBlocks (block 10) (block 10) [noteAt 3; noteAt 3; noteAt 12] 1
                    (pipeline 4 accept) (world [noteAt 0]) = Some blocks /\
    eachConsecutive (meets 4 [noteAt 3; noteAt 3; noteAt 12]) blocks /\
    Forall (fun b =>
              Forall (fun ev => frameIndex ev = blockStart b) (blockEvents b) /\
              framesToDo b
                = capFormula 4 10 [noteAt 3; noteAt 3; noteAt 12] b)
           blocks /\
    List.concat (map blockEvents blocks)
      = filter (fun ev => frameIndex ev <? 10) [noteAt 3; noteAt 3; noteAt 12].
Proof.
  apply (sub_blocks_meet_at_events_or_cap unit (block 10) (block 10)
           [noteAt 3; noteAt 3; noteAt 12] 1 (pipeline 4 accept)
           (world [noteAt 0])).
  - reflexivity.
  - simpl. lia.
  - unfold is_u32. simpl. lia.
  - repeat constructor; unfold wfEvent, is_u32; simpl; lia.
  - repeat constructor; simpl; lia.
Defined.

(** What that render call does, computed. *)
Example demo_sub_blocks :
  renderSubBlocks (block 10) (block 10) [noteAt 3; noteAt 3; noteAt 12] 1
                  (pipeline 4 accept) (world [noteAt 0])
  = Some [{| blockStart := 0; framesToDo := 3; blockEvents := [] |};
          {| blockStart := 3; framesToDo := 4;
             blockEvents := [noteAt 3; noteAt 3] |};
          {| blockStart := 7; framesToDo := 3; blockEvents := [] |}].
Proof. vm_compute. reflexivity. Qed.

Lemma midi_out_count_within_capacity_witness :
  exists w' world' n,
    render (block 10) (block 10) [noteAt 3] 1 (pipeline 4 accept)
           (world [noteAt 0; noteAt 0]) = Some (w', world', n) /\
    0 <= n <= 1.
Proof.
  apply (midi_out_count_within_capacity unit (block 10) (block 10) [noteAt 3] 1
           (pipeline 4 accept) (world [noteAt 0; noteAt 0])).
  - reflexivity.
  - simpl. lia.
  - unfold is_u32. simpl. lia.
  - repeat constructor; unfold wfEvent, is_u32; simpl; lia.
  - unfold is_u32. lia.
Defined.

(** The engine emits two MIDI messages in each of the three sub-blocks; with
    room for one, the first is stored and the other five are dropped. *)
Example demo_midi_out_full :
  option_map (fun r => (snd r, midiOut (snd (fst r))))
    (render (block 10) (block 10) [noteAt 3] 1 (pipeline 4 accept)
            (world [noteAt 0; noteAt 0]))
  = Some (1, [{| frameIndex := 0; getPackedMIDIData := 144 |}; noteAt 0]).
Proof. vm_compute. reflexivity. Qed.

(** With no room at all nothing is stored and the call returns. *)
Example demo_midi_out_no_room :
  option_map (fun r => (snd r, midiOut (snd (fst r))))
    (render (block 10) (block 10) [noteAt 3] 0 (pipeline 4 accept)
            (world [noteAt 0; noteAt 0]))
  = Some (0, [noteAt 0; noteAt 0]).
Proof. vm_compute. reflexivity. Qed.

Lemma effective_max_block_size_witness :
  maxBlockSize (pipeline 512 accept) = Z.min 1000 512.
Proof.
  apply (effective_max_block_size unit theEngine None None (Some accept)
           1000 emptyWrapper (pipeline 512 accept)).
  - lia.
  - reflexivity.
Defined.

Lemma expected_channel_counts_witness :
  getExpectedNumInputChannels (pipeline 512 accept) = 2 /\
  getExpectedNumOutputChannels (pipeline 512 accept) = 1.
Proof.
  destruct (expected_channel_counts unit theEngine None None (Some accept)
              512 emptyWrapper (pipeline 512 accept)) as (Hi & Ho & _).
  - repeat constructor; unfold wfEndpoint, is_u32; simpl; lia.
  - repeat constructor; unfold wfEndpoint, is_u32; simpl; lia.
  - vm_compute. reflexivity.
  - vm_compute. reflexivity.
  - reflexivity.
  - split; [exact Hi | exact Ho].
Defined.

Lemma build_idempotent_witness :
  sameShape (buildRenderingPipeline 512 None None (Some accept) usedEngine
                                    (pipeline 4 accept))
            (build 512 accept).
Proof.
  destruct (build_idempotent unit theEngine None None (Some accept) 512
              emptyWrapper) as (_ & _ & Hs).
  apply Hs; reflexivity.
Defined.

Lemma total_frames_counter_witness :
  exists w' world' n,
    render (block 10) (block 10) [noteAt 3] 1 (pipeline 4 accept)
           (world [noteAt 0]) = Some (w', world', n) /\
    wrapper_totalFramesRendered w'
      = wrapper_totalFramesRendered (pipeline 4 accept) + 10.
Proof.
  destruct (render (block 10) (block 10) [noteAt 3] 1 (pipeline 4 accept)
                   (world [noteAt 0])) as [[[w' world'] n]|] eqn:E;
    [|vm_compute in E; discriminate E].
  exists w', world', n. split; [reflexivity|].
  apply (total_frames_counter unit (block 10) (block 10) [noteAt 3] 1
           (pipeline 4 accept) (world [noteAt 0]) w' world' n).
  - unfold is_u64. simpl. lia.
  - unfold is_u32. simpl. lia.
  - unfold is_u32. simpl. lia.
  - repeat constructor; unfold wfEvent, is_u32; simpl; lia.
  - simpl. lia.
  - exact E.
Defined.

Lemma late_events_never_delivered_witness :
  exists world' n blocks,
    render (block 10) (block 10) [noteAt 3; noteAt 10; noteAt 2] 1
           (pipeline 4 accept) (world [noteAt 0])
      = Some (add_totalFramesRendered 10 (pipeline 4 accept), world', n) /\
    renderSubBlocks (block 10) (block 10) [noteAt 3; noteAt 10; noteAt 2] 1
                    (pipeline 4 accept) (world [noteAt 0]) = Some blocks /\
    Forall (fun b =>
              blockStart b < 10 /\
              Forall (fun ev => frameIndex ev <= blockStart b) (blockEvents b))
           blocks /\
    Forall (fun b => Forall (fun ev => frameIndex ev < 10) (blockEvents b))
           blocks /\
    exists rest,
      [noteAt 3; noteAt 10; noteAt 2]
      = List.concat (map blockEvents blocks) ++ rest.
Proof.
  apply (late_events_never_delivered unit (block 10) (block 10)
           [noteAt 3; noteAt 10; noteAt 2] 1 (pipeline 4 accept)
           (world [noteAt 0])).
  - reflexivity.
  - simpl. lia.
  - unfold is_u32. simpl. lia.
  - repeat constructor; unfold wfEvent, is_u32; simpl; lia.
Defined.

(** An event at the end of the block, and one held up behind it, stay
    undelivered. *)
Example demo_late_event :
  renderSubBlocks (block 10) (block 10) [noteAt 3; noteAt 10; noteAt 2] 1
                  (pipeline 4 accept) (world [noteAt 0])
  = Some [{| blockStart := 0; framesToDo := 3; blockEvents := [] |};
          {| blockStart := 3; framesToDo := 4; blockEvents := [noteAt 3] |};
          {| blockStart := 7; framesToDo := 3; blockEvents := [] |}].
Proof. vm_compute. reflexivity. Qed.

(** The time base over two render calls on the demo engine, which emits
    meter events at offsets 0 and 5 in every sub-block: a block of 10
    frames in sub-blocks of 4, 4 and 2 frames, then a block of 4 frames.
    The callback is given the frames rendered so far plus the offset. *)
Example demo_callback_times :
  match buildRenderingPipeline 4 None None (Some logTime) theEngine timeWrapper with
  | Some w =>
      match render (block 10) (block 10) [] 0 w timeWorld with
      | Some (w1, world1, _) =>
          match render (block 4) (block 4) [] 0 w1 world1 with
          | Some (_, world2, _) => Some (host world2)
          | None => None
          end
      | None => None
      end
  | None => None
  end
  = Some [0; 5; 4; 9; 8; 13; 10; 15].
Proof. vm_compute. reflexivity. Qed.

(** * The further properties on the demo engine *)

Lemma render_halts_iff_witness :
  render (block 10) (block 8) [noteAt 3] 1 (pipeline 4 accept) (world []) = None
  <-> getNumFrames (block 10) <> getNumFrames (block 8)
      \/ maxBlockSize (pipeline 4 accept) = 0.
Proof.
  apply (render_halts_iff unit (block 10) (block 8) [noteAt 3] 1
           (pipeline 4 accept) (world [])).
  - unfold is_u32. simpl. lia.
  - unfold is_u32. simpl. lia.
  - repeat constructor; unfold wfEvent, is_u32; simpl; lia.
Defined.

Lemma render_empty_block_witness :
  render (block 0) (block 0) [noteAt 0] 1 (pipeline 4 accept) (world [])
    = Some (add_totalFramesRendered 0 (pipeline 4 accept), world [], 0) /\
  renderSubBlocks (block 0) (block 0) [noteAt 0] 1 (pipeline 4 accept) (world [])
    = Some [].
Proof.
  apply (render_empty_block unit (block 0) (block 0) [noteAt 0] 1
           (pipeline 4 accept) (world [])).
  - reflexivity.
  - reflexivity.
  - simpl. lia.
Defined.

Lemma render_tiles_block_witness :
  exists ctxs,
    renderContexts (block 10) (block 10) [noteAt 7; noteAt 3] 1
                   (pipeline 4 accept) (world [noteAt 0]) = Some ctxs /\
    tiles 0 (map (subBlockOf (block 10)) ctxs) (getNumFrames (block 10)) /\
    Forall (sameWindow (block 10) (block 10)) ctxs.
Proof.
  apply (render_tiles_block unit (block 10) (block 10) [noteAt 7; noteAt 3] 1
           (pipeline 4 accept) (world [noteAt 0])).
  - reflexivity.
  - simpl. lia.
  - unfold is_u32. simpl. lia.
  - repeat constructor; unfold wfEvent, is_u32; simpl; lia.
Defined.

Lemma render_without_events_witness :
  exists blocks,
    renderSubBlocks (block 10) (block 10) [] 1 (pipeline 4 accept)
                    (world [noteAt 0]) = Some blocks /\
    Z.of_nat (List.length blocks)
      = ceilDiv (getNumFrames (block 10)) (maxBlockSize (pipeline 4 accept)) /\
    Forall (fun b =>
              blockEvents b = [] /\
              framesToDo b
                = Z.min (maxBlockSize (pipeline 4 accept))
                        (getNumFrames (block 10) - blockStart b) /\
              blockStart b mod maxBlockSize (pipeline 4 accept) = 0)
           blocks.
Proof.
  apply (render_without_events unit (block 10) (block 10) 1
           (pipeline 4 accept) (world [noteAt 0])).
  - reflexivity.
  - simpl. lia.
  - unfold is_u32. simpl. lia.
Defined.

(** Ten frames in blocks of four: 4, 4 and 2. *)
Example demo_without_events :
  renderSubBlocks (block 10) (block 10) [] 1 (pipeline 4 accept)
                  (world [noteAt 0])
  = Some [{| blockStart := 0; framesToDo := 4; blockEvents := [] |};
          {| blockStart := 4; framesToDo := 4; blockEvents := [] |};
          {| blockStart := 8; framesToDo := 2; blockEvents := [] |}].
Proof. vm_compute. reflexivity. Qed.

Lemma render_sub_block_count_witness :
  exists blocks,
    renderSubBlocks (block 10) (block 10) [noteAt 3; noteAt 3; noteAt 12] 1
                    (pipeline 4 accept) (world [noteAt 0]) = Some blocks /\
    Z.of_nat (List.length blocks)
      <= ceilDiv (getNumFrames (block 10)) (maxBlockSize (pipeline 4 accept))
         + Z.of_nat (List.length [noteAt 3; noteAt 3; noteAt 12]).
Proof.
  apply (render_sub_block_count unit (block 10) (block 10)
           [noteAt 3; noteAt 3; noteAt 12] 1 (pipeline 4 accept)
           (world [noteAt 0])).
  - reflexivity.
  - simpl. lia.
  - unfold is_u32. simpl. lia.
  - repeat constructor; unfold wfEvent, is_u32; simpl; lia.
Defined.

Lemma iterateInBlocks_zero_cap_witness :
  iterateInBlocks 0 (fun rc (s : unit) => (rc, s)) 100 someContext tt = None.
Proof.
  apply (iterateInBlocks_zero_cap (fun rc (s : unit) => (rc, s)) 100
           someContext tt).
  - simpl. lia.
  - unfold is_u32. simpl. lia.
Defined.

Lemma midi_output_bounded_buffer_witness :
  midiOutCount (fst (runOperation (MIDIOutputOp unit 3)
                                  (tightContext, world [noteAt 0; noteAt 1])))
    = 2 /\
  midiOut (snd (runOperation (MIDIOutputOp unit 3)
                             (tightContext, world [noteAt 0; noteAt 1])))
    = [noteAt 0; {| frameIndex := 4; getPackedMIDIData := 144 |}].
Proof.
  destruct (midi_output_bounded_buffer unit 3 tightContext
              (world [noteAt 0; noteAt 1])) as [Hc Hb].
  - unfold is_u32. simpl. lia.
  - simpl. lia.
  - simpl. lia.
  - split; [rewrite Hc | rewrite Hb]; reflexivity.
Defined.

Lemma render_leaves_rest_of_buffer_witness :
  exists w' world' n,
    render (block 10) (block 10) [noteAt 3] 1 (pipeline 4 accept)
           (world [noteAt 0; noteAt 1]) = Some (w', world', n) /\
    skipn (Z.to_nat n) (midiOut world')
      = skipn (Z.to_nat n) [noteAt 0; noteAt 1].
Proof.
  destruct (render (block 10) (block 10) [noteAt 3] 1 (pipeline 4 accept)
                   (world [noteAt 0; noteAt 1])) as [[[w' world'] n]|] eqn:E;
    [|vm_compute in E; discriminate E].
  exists w', world', n. split; [reflexivity|].
  apply (render_leaves_rest_of_buffer unit (block 10) (block 10) [noteAt 3] 1
           (pipeline 4 accept) w' (world [noteAt 0; noteAt 1]) world' n).
  - unfold is_u32. lia.
  - exact E.
Defined.

Lemma build_operation_kinds_witness :
  Forall (fun op => isPreOp op = true) (preRenderOperations (pipeline 512 accept)) /\
  Forall (fun op => isPostOp op = true) (postRenderOperations (pipeline 512 accept)).
Proof.
  destruct (build_operation_kinds unit theEngine None None (Some accept) 512
              emptyWrapper (pipeline 512 accept)) as (Hpre & Hpost & _).
  - reflexivity.
  - split; [exact Hpre | exact Hpost].
Defined.

Lemma build_without_change_detector_witness :
  existsb isParameterInput (getInputEndpoints parameterEngine) = true /\
  exists w',
    buildRenderingPipeline 512 None None (Some accept) parameterEngine
                           emptyWrapper = Some w' /\
    Forall (fun op => isParameterOp op = false) (preRenderOperations w').
Proof.
  split; [reflexivity|].
  destruct (buildRenderingPipeline 512 None None (Some accept) parameterEngine
                                   emptyWrapper)
    as [w'|] eqn:E; [|vm_compute in E; discriminate E].
  exists w'. split; [reflexivity|].
  apply (build_without_change_detector unit parameterEngine None None
           (Some accept) 512 emptyWrapper w').
  - reflexivity.
  - exact E.
Defined.

(** On that engine a provider of change detectors does give a parameter
    operation: the one for the gain comes first. *)
Example demo_build_with_change_detector :
  option_map (fun w' => map (@isParameterOp choc unit) (preRenderOperations w'))
    (buildRenderingPipeline 512 (Some detectEvery) None (Some accept)
                            parameterEngine emptyWrapper)
  = Some [true; false].
Proof. reflexivity. Qed.

Lemma build_without_unused_callback_witness :
  exists w',
    buildRenderingPipeline 512 None None None theEngine emptyWrapper = Some w' /\
    Forall (fun op => isUnusedEventOp op = false) (postRenderOperations w').
Proof.
  destruct (buildRenderingPipeline 512 None None None theEngine emptyWrapper)
    as [w'|] eqn:E; [|vm_compute in E; discriminate E].
  exists w'. split; [reflexivity|].
  apply (build_without_unused_callback unit theEngine None None None 512
           emptyWrapper w').
  - reflexivity.
  - exact E.
Defined.

Lemma output_channel_layout_witness :
  contiguousFrom 0 (outputRanges (postRenderOperations (pipeline 512 accept)))
                 (getExpectedNumOutputChannels (pipeline 512 accept)).
Proof.
  apply (output_channel_layout unit theEngine None None (Some accept) 512
           emptyWrapper (pipeline 512 accept)).
  - repeat constructor; unfold wfEndpoint, is_u32; simpl; lia.
  - vm_compute. reflexivity.
  - reflexivity.
Defined.

Lemma input_channel_layout_witness :
  inputStarts (preRenderOperations (pipeline 512 accept))
  = prefixSums 0 (getInputEndpoints theEngine).
Proof.
  apply (input_channel_layout unit theEngine None None (Some accept) 512
           emptyWrapper (pipeline 512 accept)).
  - repeat constructor; unfold wfEndpoint, is_u32; simpl; lia.
  - vm_compute. reflexivity.
  - reflexivity.
Defined.

Lemma built_pre_operations_frame_witness :
  fst (runOperations (preRenderOperations (pipeline 512 accept))
                     (someContext, world [noteAt 0])) = someContext /\
  midiOut (snd (runOperations (preRenderOperations (pipeline 512 accept))
                              (someContext, world [noteAt 0]))) = [noteAt 0].
Proof.
  destruct (built_pre_operations_frame unit 512 None None (Some accept)
              theEngine emptyWrapper (pipeline 512 accept)
              (someContext, world [noteAt 0])) as (H1 & _ & H3 & _).
  - reflexivity.
  - split; [exact H1 | exact H3].
Defined.

Lemma render_twice_witness :
  exists w1 world1 n1 w2 world2 n2,
    render (block 4) (block 4) [] 1 (pipeline 4 accept) (world [noteAt 0])
      = Some (w1, world1, n1) /\
    render (block 3) (block 3) [] 1 w1 world1 = Some (w2, world2, n2) /\
    samePipeline (pipeline 4 accept) w2 /\
    wrapper_totalFramesRendered w2 = 7.
Proof.
  destruct (render (block 4) (block 4) [] 1 (pipeline 4 accept) (world [noteAt 0]))
    as [[[w1 world1] n1]|] eqn:E1; [|vm_compute in E1; discriminate E1].
  assert (Hw1 : maxBlockSize w1 = 4).
  { unfold render in E1. cbn [andb] in E1.
    destruct (iterateInBlocks _ _ _ _ _) as [[c s]|]; [|discriminate E1].
    injection E1 as <- _ _. reflexivity. }
  destruct (render_runs unit (block 3) (block 3) [] 1 w1 world1)
    as (world2 & n2 & _ & E2 & _);
    try reflexivity; try (rewrite Hw1; lia); try (unfold is_u32; simpl; lia);
    try constructor.
  exists w1, world1, n1, (add_totalFramesRendered (getNumFrames (block 3)) w1),
         world2, n2.
  split; [reflexivity|]. split; [exact E2|].
  destruct (render_twice unit (block 4) (block 4) [] 1 (block 3) (block 3) [] 1
              (pipeline 4 accept) w1
              (add_totalFramesRendered (getNumFrames (block 3)) w1)
              (world [noteAt 0]) world1 world2 n1 n2 E1 E2) as [Hp Ht].
  split; [exact Hp | exact Ht].
Defined.

Lemma render_advances_once_per_sub_block_witness :
  exists world' n blocks,
    @render choc (Clocked Engine) (clockedPerformer engine) unit
      (block 10) (block 10) [noteAt 3] 1 (pipeline 4 accept) clockedWorld
      = Some (add_totalFramesRendered 10 (pipeline 4 accept), world', n) /\
    @renderSubBlocks choc (Clocked Engine) (clockedPerformer engine) unit
      (block 10) (block 10) [noteAt 3] 1 (pipeline 4 accept) clockedWorld
      = Some blocks /\
    clockLog (performer world')
      = clockLog (performer clockedWorld) ++ clockCalls blocks.
Proof.
  apply (@render_advances_once_per_sub_block choc Engine engine unit
           (block 10) (block 10) [noteAt 3] 1 (pipeline 4 accept) clockedWorld).
  - reflexivity.
  - simpl. lia.
  - unfold is_u32. simpl. lia.
  - repeat constructor; unfold wfEvent, is_u32; simpl; lia.
Defined.

(** Ten frames, blocks of four, an event at frame 3: sub-blocks of 3, 4 and
    3 frames, and as many advances. *)
Example demo_clock :
  option_map (fun r => clockLog (performer (snd (fst r))))
    (@render choc (Clocked Engine) (clockedPerformer engine) unit
       (block 10) (block 10) [noteAt 3] 1 (pipeline 4 accept) clockedWorld)
  = Some [PrepareCall 3; AdvanceCall; PrepareCall 4; AdvanceCall;
          PrepareCall 3; AdvanceCall].
Proof. vm_compute. reflexivity. Qed.
